(** * Differentiable dynamics core: backpropagation snapshot and SSID loop

    A shallow embedding of the constraint-aware Jacobian assembler
    [neural::BackpropSnapshot] (the text of [dart/neural/BackpropSnapshot.cpp],
    which the sources carry in [src/dart/dynamics/Skeleton.hpp] after the
    skeleton's header) and of the real-time system-identification loop
    [realtime::SSID] ([src/dart/realtime/SSID.cpp]), together with the
    properties of these two units that the design document states. The
    Jacobians of [neural::IdentityMapping], which the same file carries last,
    are embedded as well; properties numbered [X] are read off the code
    rather than off the design document.

    Conventions of the embedding:
    - [Eigen::MatrixXd] is a record of its two dynamic dimensions and its
      coefficient function; [Eigen::VectorXd] and [Eigen::VectorXi] are, as in
      Eigen, matrices with a single column.
    - Scalars ([double], [s_t]) are an abstract type with the arithmetic
      operations the code uses; algebraic laws are assumed only by the few
      results that need them, and are listed in [ScalarLaws].
    - Every Eigen operation that asserts on its operands' shape (block access,
      sum, product, assignment into a block) returns [option]; [None] stands
      for the failed assertion, as it does for the code's own [assert] and for
      a lookup of a name the offset map does not hold.
    - [std::size_t] and [int] counters are [nat], [long] times are [Z]; no
      count or time of the code comes near the width of its machine type.
    - [std::shared_ptr<ConstrainedGroupGradientMatrices>] is an address into a
      store, so that the constructor's deduplication by pointer identity is
      kept.
    - What leaves an [SSID] object (thread operations, calls on the problem,
      the optimizer and the listeners, clock readings) is recorded, in order,
      in a trace; what its collaborators answer is a parameter. *)

From Stdlib Require Import ZArith Bool Lia String.
From stdpp Require Import base option list gmap strings.

Local Open Scope nat_scope.

(** ** Scalars *)

Class Scalar (R : Type) := {
  s_zero : R;
  s_one : R;
  s_add : R → R → R;
  s_sub : R → R → R;
  s_mul : R → R → R;
  s_div : R → R → R
}.

(** The fragment of the ring laws used when an empty constraint set makes a
    correction term vanish. *)
Class ScalarLaws (R : Type) `{Scalar R} : Prop := {
  s_add_0_l : ∀ x : R, s_add s_zero x = x;
  s_add_0_r : ∀ x : R, s_add x s_zero = x;
  s_sub_0_r : ∀ x : R, s_sub x s_zero = x;
  s_mul_0_l : ∀ x : R, s_mul s_zero x = s_zero;
  s_mul_0_r : ∀ x : R, s_mul x s_zero = s_zero;
  s_mul_1_r : ∀ x : R, s_mul x s_one = x
}.

#[export] Instance Z_Scalar : Scalar Z := {
  s_zero := 0%Z;
  s_one := 1%Z;
  s_add := Z.add;
  s_sub := Z.sub;
  s_mul := Z.mul;
  s_div := Z.div
}.

(** Conversions between [int]/[long] and the scalar type, as used by
    [static_cast<s_t>(n)] and [static_cast<int>(ceil(x))]. *)
Class Conversions (R : Type) := {
  from_int : Z → R;
  ceil_to_int : R → Z
}.

#[export] Instance Z_Conversions : Conversions Z := {
  from_int := λ n, n;
  ceil_to_int := λ x, x
}.

(** ** Dense matrices of dynamic size *)

Module Eigen.

Record Matrix (T : Type) := mk_matrix {
  rows : nat;
  cols : nat;
  coeff : nat → nat → T
}.
Arguments mk_matrix {T} _ _ _.
Arguments rows {T} _.
Arguments cols {T} _.
Arguments coeff {T} _ _ _.

(** [m.size()] *)
Definition size {T} (m : Matrix T) : nat := rows m * cols m.

(** Two matrices are the same value when they have the same shape and the
    same coefficients inside that shape. *)
Definition meq {T} (a b : Matrix T) : Prop :=
  rows a = rows b ∧ cols a = cols b ∧
  ∀ i j, i < rows a → j < cols a → coeff a i j = coeff b i j.

(** The coefficients of a column vector, first to last. *)
Definition entries {T} (v : Matrix T) : list T :=
  map (λ i, coeff v i 0) (seq 0 (rows v)).

(** The rows of a matrix, each listed left to right. *)
Definition to_rows {T} (m : Matrix T) : list (list T) :=
  map (λ i, map (λ j, coeff m i j) (seq 0 (cols m))) (seq 0 (rows m)).

(** A column vector with the given coefficients. *)
Definition of_list {T} (d : T) (l : list T) : Matrix T :=
  mk_matrix (length l) 1 (λ i _, nth i l d).

(** A matrix given by its rows; [c] is the common row length. *)
Definition of_rows {T} (d : T) (c : nat) (l : list (list T)) : Matrix T :=
  mk_matrix (length l) c (λ i j, nth j (nth i l []) d).

(** [m.block(r, c, h, w)] read as a value. *)
Definition block {T} (m : Matrix T) (r c h w : nat) : option (Matrix T) :=
  if (r + h <=? rows m) && (c + w <=? cols m)
  then Some (mk_matrix h w (λ i j, coeff m (r + i) (c + j)))
  else None.

(** [dst.block(r, c, h, w) = src]: the block must lie inside [dst] and [src]
    must have the block's shape. *)
Definition set_block {T} (dst : Matrix T) (r c h w : nat) (src : Matrix T)
  : option (Matrix T) :=
  if (r + h <=? rows dst) && (c + w <=? cols dst)
     && (rows src =? h) && (cols src =? w)
  then Some (mk_matrix (rows dst) (cols dst)
               (λ i j, if (r <=? i) && (i <? r + h) && (c <=? j) && (j <? c + w)
                       then coeff src (i - r) (j - c)
                       else coeff dst i j))
  else None.

(** [v.segment(start, n)] and [dst.segment(start, n) = src] on column vectors. *)
Definition segment {T} (v : Matrix T) (start n : nat) : option (Matrix T) :=
  block v start 0 n 1.

Definition set_segment {T} (dst : Matrix T) (start n : nat) (src : Matrix T)
  : option (Matrix T) :=
  set_block dst start 0 n 1 src.

(** [m.col(i)] and [dst.col(i) = src]. *)
Definition col {T} (m : Matrix T) (i : nat) : option (Matrix T) :=
  block m 0 i (rows m) 1.

Definition set_col {T} (dst : Matrix T) (i : nat) (src : Matrix T)
  : option (Matrix T) :=
  set_block dst 0 i (rows dst) 1 src.

(** [v(i)] *)
Definition at_ {T} (v : Matrix T) (i : nat) : option T :=
  if (i <? rows v) && (0 <? cols v) then Some (coeff v i 0) else None.

(** [m(i) = x] on a column vector. *)
Definition set_at {T} (v : Matrix T) (i : nat) (x : T) : option (Matrix T) :=
  if (i <? rows v) && (0 <? cols v)
  then Some (mk_matrix (rows v) (cols v)
               (λ a b, if (a =? i) && (b =? 0) then x else coeff v a b))
  else None.

(** [m.transpose()] *)
Definition transpose {T} (m : Matrix T) : Matrix T :=
  mk_matrix (cols m) (rows m) (λ i j, coeff m j i).

Section Arith.
Context {R : Type} `{Scalar R}.

(** [Σ_{k < n} f k], accumulated from [k = 0]. *)
Fixpoint sum_upto (n : nat) (f : nat → R) : R :=
  match n with
  | 0 => s_zero
  | S k => s_add (sum_upto k f) (f k)
  end.

(** [MatrixXd::Zero(r, c)], also the result of [setZero()]. *)
Definition Zero (r c : nat) : Matrix R := mk_matrix r c (λ _ _, s_zero).

(** [MatrixXd::Identity(r, c)] *)
Definition Identity (r c : nat) : Matrix R :=
  mk_matrix r c (λ i j, if i =? j then s_one else s_zero).

(** [v.asDiagonal()] evaluated to a dense matrix. *)
Definition asDiagonal (v : Matrix R) : Matrix R :=
  mk_matrix (rows v) (rows v) (λ i j, if i =? j then coeff v i 0 else s_zero).

(** [x * m] for a scalar [x]. *)
Definition scale (x : R) (m : Matrix R) : Matrix R :=
  mk_matrix (rows m) (cols m) (λ i j, s_mul x (coeff m i j)).

(** Coefficient-wise sum, difference and the matrix product, on operands
    already known to conform. *)
Definition plus (a b : Matrix R) : Matrix R :=
  mk_matrix (rows a) (cols a) (λ i j, s_add (coeff a i j) (coeff b i j)).

Definition minus (a b : Matrix R) : Matrix R :=
  mk_matrix (rows a) (cols a) (λ i j, s_sub (coeff a i j) (coeff b i j)).

Definition times (a b : Matrix R) : Matrix R :=
  mk_matrix (rows a) (cols b)
    (λ i j, sum_upto (cols a) (λ k, s_mul (coeff a i k) (coeff b k j))).

Definition same_shape (a b : Matrix R) : bool :=
  (rows a =? rows b) && (cols a =? cols b).

(** [a + b], [a - b], [a * b] as Eigen evaluates them: the operands' shapes
    are asserted to conform. *)
Definition add (a b : Matrix R) : option (Matrix R) :=
  if same_shape a b then Some (plus a b) else None.

Definition sub (a b : Matrix R) : option (Matrix R) :=
  if same_shape a b then Some (minus a b) else None.

Definition mul (a b : Matrix R) : option (Matrix R) :=
  if cols a =? rows b then Some (times a b) else None.
End Arith.

(** Contents of storage that has been sized but not yet written:
    [uninitialized i j] is the coefficient found at [(i, j)] of a matrix
    constructed by [Matrix(r, c)]. *)
Class Storage (T : Type) := {
  uninitialized : nat → nat → T
}.

(** [Matrix(r, c)]: sized, not initialised. *)
Definition Uninit {T} `{Storage T} (r c : nat) : Matrix T :=
  mk_matrix r c uninitialized.

(** The two results that the code takes from Eigen's
    [CompleteOrthogonalDecomposition]. *)
Class Decomposition (R : Type) := {
  (** [m.completeOrthogonalDecomposition().pseudoInverse()] *)
  pseudoInverse : Matrix R → Matrix R;
  (** the solution returned by [m.completeOrthogonalDecomposition().solve(b)] *)
  cod_solution : Matrix R → Matrix R → Matrix R
}.

(** [m.completeOrthogonalDecomposition().solve(b)]: [b] must have as many
    rows as [m]. *)
Definition solve {R} `{Decomposition R} (m b : Matrix R) : option (Matrix R) :=
  if rows m =? rows b then Some (cod_solution m b) else None.

(** The documented shape of the pseudo-inverse: [cols × rows]. *)
Class DecompositionShapes (R : Type) `{Decomposition R} : Prop := {
  pseudoInverse_rows : ∀ m : Matrix R, rows (pseudoInverse m) = cols m;
  pseudoInverse_cols : ∀ m : Matrix R, cols (pseudoInverse m) = rows m
}.

(** [for (i = 0; i < n; i++) body], threading the loop's state; an assertion
    failing in the body ends the loop. *)
Fixpoint for_upto {A} (n : nat) (body : nat → A → option A) (init : A)
  : option A :=
  match n with
  | 0 => Some init
  | S k => a ← for_upto k body init; body k a
  end.

End Eigen.

(** ** The backpropagation snapshot ([dart/neural/BackpropSnapshot.cpp]) *)

Module Neural.
Import Eigen.

(** Address of a [ConstrainedGroupGradientMatrices] object; two shared
    pointers are equal exactly when their addresses are. *)
Definition GroupPtr := nat.

(** Modelled from the spec: the two selector enums are declared in
    [BackpropSnapshot.hpp], which is not among the sources; their enumerators
    are the ones the code compares against (clamping / massed-clamping /
    upper-bound / massed-upper-bound / bouncing, and the four vector kinds
    listed in [assembleVector]). *)
Inductive MatrixToAssemble :=
  | CLAMPING
  | MASSED_CLAMPING
  | UPPER_BOUND
  | MASSED_UPPER_BOUND
  | BOUNCING.

Inductive VectorToAssemble :=
  | CONTACT_CONSTRAINT_IMPULSES
  | CONTACT_CONSTRAINT_MAPPINGS
  | BOUNCE_DIAGONALS
  | RESTITUTION_DIAGONALS.

#[export] Instance MatrixToAssemble_eq_dec : EqDecision MatrixToAssemble.
Proof. solve_decision. Defined.

#[export] Instance VectorToAssemble_eq_dec : EqDecision VectorToAssemble.
Proof. solve_decision. Defined.

(** [assert(cond)] *)
Definition assert (cond : bool) : option unit :=
  if cond then Some () else None.

Section Snapshot.
Context {R : Type} `{Scalar R} `{Storage R} `{Storage Z} `{Decomposition R}.

(** What the snapshot reads from a [dynamics::Skeleton]. *)
Record Skeleton := {
  Skeleton_getName : string;
  Skeleton_getNumDofs : nat;
  Skeleton_getMassMatrix : Matrix R;
  Skeleton_getInvMassMatrix : Matrix R;
  (** null when the skeleton is in no constraint group *)
  Skeleton_getGradientConstraintMatrices : option GroupPtr
}.

(** What the snapshot reads from a [ConstrainedGroupGradientMatrices]. *)
Record Group := {
  Group_getSkeletons : list Skeleton;
  Group_getNumDOFs : nat;
  Group_getNumConstraintDim : nat;
  Group_getClampingConstraintMatrix : Matrix R;
  Group_getMassedClampingConstraintMatrix : Matrix R;
  Group_getUpperBoundConstraintMatrix : Matrix R;
  Group_getMassedUpperBoundConstraintMatrix : Matrix R;
  Group_getUpperBoundMappingMatrix : Matrix R;
  Group_getBouncingConstraintMatrix : Matrix R;
  Group_getBounceDiagonals : Matrix R;
  Group_getRestitutionDiagonals : Matrix R;
  Group_getContactConstraintImpluses : Matrix R;
  Group_getContactConstraintMappings : Matrix Z
}.

Record World := {
  World_getSkeletons : list Skeleton;
  World_getTimeStep : R;
  (** the object a non-null group pointer refers to *)
  World_deref : GroupPtr → Group
}.

Record BackpropSnapshot := {
  mWorld : World;
  mTimeStep : R;
  mForwardPassPosition : Matrix R;
  mForwardPassVelocity : Matrix R;
  mForwardPassTorques : Matrix R;
  mNumDOFs : nat;
  mNumConstraintDim : nat;
  mNumClamping : nat;
  mNumUpperBound : nat;
  mNumBouncing : nat;
  mSkeletons : list Skeleton;
  mSkeletonOffset : gmap string nat;
  mGradientMatrices : list GroupPtr
}.

(** [map.insert(make_pair(k, v))]: an existing key keeps its value. *)
Definition map_insert (k : string) (v : nat) (m : gmap string nat)
  : gmap string nat :=
  match m !! k with
  | Some _ => m
  | None => <[k := v]> m
  end.

(** One iteration of the constructor's loop over the world's skeletons. *)
Definition collect (s : BackpropSnapshot) (skel : Skeleton) : BackpropSnapshot :=
  let deref := World_deref (mWorld s) in
  let fresh :=
    match Skeleton_getGradientConstraintMatrices skel with
    | Some p => if bool_decide (p ∈ mGradientMatrices s) then None else Some p
    | None => None
    end in
  {| mWorld := mWorld s;
     mTimeStep := mTimeStep s;
     mForwardPassPosition := mForwardPassPosition s;
     mForwardPassVelocity := mForwardPassVelocity s;
     mForwardPassTorques := mForwardPassTorques s;
     mNumDOFs := mNumDOFs s + Skeleton_getNumDofs skel;
     mNumConstraintDim :=
       match fresh with
       | Some p => mNumConstraintDim s + Group_getNumConstraintDim (deref p)
       | None => mNumConstraintDim s
       end;
     mNumClamping :=
       match fresh with
       | Some p =>
           mNumClamping s + cols (Group_getClampingConstraintMatrix (deref p))
       | None => mNumClamping s
       end;
     mNumUpperBound :=
       match fresh with
       | Some p =>
           mNumUpperBound s
           + cols (Group_getUpperBoundConstraintMatrix (deref p))
       | None => mNumUpperBound s
       end;
     mNumBouncing :=
       match fresh with
       | Some p =>
           mNumBouncing s + cols (Group_getBouncingConstraintMatrix (deref p))
       | None => mNumBouncing s
       end;
     mSkeletons := mSkeletons s ++ [skel];
     mSkeletonOffset :=
       map_insert (Skeleton_getName skel) (mNumDOFs s) (mSkeletonOffset s);
     mGradientMatrices :=
       match fresh with
       | Some p => mGradientMatrices s ++ [p]
       | None => mGradientMatrices s
       end |}.

(** [BackpropSnapshot::BackpropSnapshot] *)
Definition new_BackpropSnapshot (world : World)
    (forwardPassPosition forwardPassVelocity forwardPassTorques : Matrix R)
  : BackpropSnapshot :=
  fold_left collect (World_getSkeletons world)
    {| mWorld := world;
       mTimeStep := World_getTimeStep world;
       mForwardPassPosition := forwardPassPosition;
       mForwardPassVelocity := forwardPassVelocity;
       mForwardPassTorques := forwardPassTorques;
       mNumDOFs := 0;
       mNumConstraintDim := 0;
       mNumClamping := 0;
       mNumUpperBound := 0;
       mNumBouncing := 0;
       mSkeletons := [];
       mSkeletonOffset := ∅;
       mGradientMatrices := [] |}.

(** The group a stored pointer refers to. *)
Definition group_of (s : BackpropSnapshot) (p : GroupPtr) : Group :=
  World_deref (mWorld s) p.

(** *** Matrix assembly *)

(** The per-group matrix selected by [whichMatrix]. *)
Definition groupMatrixOf (whichMatrix : MatrixToAssemble) (g : Group)
  : Matrix R :=
  match whichMatrix with
  | CLAMPING => Group_getClampingConstraintMatrix g
  | MASSED_CLAMPING => Group_getMassedClampingConstraintMatrix g
  | UPPER_BOUND => Group_getUpperBoundConstraintMatrix g
  | MASSED_UPPER_BOUND => Group_getMassedUpperBoundConstraintMatrix g
  | BOUNCING => Group_getBouncingConstraintMatrix g
  end.

(** The column count chosen at the head of [assembleMatrix]. *)
Definition numColsOf (s : BackpropSnapshot) (whichMatrix : MatrixToAssemble)
  : nat :=
  match whichMatrix with
  | CLAMPING | MASSED_CLAMPING => mNumClamping s
  | UPPER_BOUND | MASSED_UPPER_BOUND => mNumUpperBound s
  | BOUNCING => mNumBouncing s
  end.

(** The inner loop of [assembleMatrix]: copy the row block of each skeleton
    of the group from its group-local offset to its world offset. *)
Fixpoint shuffle (s : BackpropSnapshot) (groupMatrix : Matrix R)
    (constraintCursor : nat) (skels : list Skeleton) (dofCursorGroup : nat)
    (matrix : Matrix R) : option (Matrix R) :=
  match skels with
  | [] => Some matrix
  | skel :: rest =>
      dofCursorWorld ← mSkeletonOffset s !! Skeleton_getName skel;
      src ← block groupMatrix dofCursorGroup 0
               (Skeleton_getNumDofs skel) (cols groupMatrix);
      matrix' ← set_block matrix dofCursorWorld constraintCursor
                   (Skeleton_getNumDofs skel) (cols groupMatrix) src;
      shuffle s groupMatrix constraintCursor rest
        (dofCursorGroup + Skeleton_getNumDofs skel) matrix'
  end.

(** The outer loop of [assembleMatrix], over the constraint groups. *)
Fixpoint assemble (s : BackpropSnapshot) (whichMatrix : MatrixToAssemble)
    (groups : list GroupPtr) (constraintCursor : nat) (matrix : Matrix R)
  : option (Matrix R) :=
  match groups with
  | [] => Some matrix
  | p :: rest =>
      let groupMatrix := groupMatrixOf whichMatrix (group_of s p) in
      matrix' ← shuffle s groupMatrix constraintCursor
                   (Group_getSkeletons (group_of s p)) 0 matrix;
      assemble s whichMatrix rest (constraintCursor + cols groupMatrix) matrix'
  end.

(** [BackpropSnapshot::assembleMatrix] *)
Definition assembleMatrix (s : BackpropSnapshot)
    (whichMatrix : MatrixToAssemble) : option (Matrix R) :=
  assemble s whichMatrix (mGradientMatrices s) 0
    (Zero (mNumDOFs s) (numColsOf s whichMatrix)).

Definition getClampingConstraintMatrix (s : BackpropSnapshot) :=
  assembleMatrix s CLAMPING.

Definition getMassedClampingConstraintMatrix (s : BackpropSnapshot) :=
  assembleMatrix s MASSED_CLAMPING.

Definition getUpperBoundConstraintMatrix (s : BackpropSnapshot) :=
  assembleMatrix s UPPER_BOUND.

Definition getMassedUpperBoundConstraintMatrix (s : BackpropSnapshot) :=
  assembleMatrix s MASSED_UPPER_BOUND.

Definition getBouncingConstraintMatrix (s : BackpropSnapshot) :=
  assembleMatrix s BOUNCING.

(** The first loop of [getUpperBoundMappingMatrix]: total column counts of
    the groups' upper-bound and clamping matrices. *)
Definition count_cols (s : BackpropSnapshot) (f : Group → Matrix R)
    (groups : list GroupPtr) : nat :=
  fold_left (λ n p, n + cols (f (group_of s p))) groups 0.

(** The second loop: the groups' mapping matrices along the diagonal. *)
Fixpoint place_mappings (s : BackpropSnapshot) (groups : list GroupPtr)
    (cursorUpperBound cursorClamping : nat) (mappingMatrix : Matrix R)
  : option (Matrix R) :=
  match groups with
  | [] => Some mappingMatrix
  | p :: rest =>
      let groupMappingMatrix :=
        Group_getUpperBoundMappingMatrix (group_of s p) in
      mappingMatrix' ←
        set_block mappingMatrix cursorUpperBound cursorClamping
          (rows groupMappingMatrix) (cols groupMappingMatrix)
          groupMappingMatrix;
      place_mappings s rest
        (cursorUpperBound + rows groupMappingMatrix)
        (cursorClamping + cols groupMappingMatrix) mappingMatrix'
  end.

(** [BackpropSnapshot::getUpperBoundMappingMatrix] *)
Definition getUpperBoundMappingMatrix (s : BackpropSnapshot)
  : option (Matrix R) :=
  let numUpperBound :=
    count_cols s Group_getUpperBoundConstraintMatrix (mGradientMatrices s) in
  let numClamping :=
    count_cols s Group_getClampingConstraintMatrix (mGradientMatrices s) in
  place_mappings s (mGradientMatrices s) 0 0 (Zero numUpperBound numClamping).

(** The loop shared by [getMassMatrix] and [getInvMassMatrix]: each
    skeleton's matrix is written at [(cursor, cursor)]. *)
Fixpoint place_diagonal (f : Skeleton → Matrix R) (skels : list Skeleton)
    (cursor : nat) (massMatrix : Matrix R) : option (Matrix R) :=
  match skels with
  | [] => Some massMatrix
  | skel :: rest =>
      let skelDOF := Skeleton_getNumDofs skel in
      massMatrix' ← set_block massMatrix cursor cursor skelDOF skelDOF (f skel);
      place_diagonal f rest (cursor + skelDOF) massMatrix'
  end.

(** [BackpropSnapshot::getMassMatrix] *)
Definition getMassMatrix (s : BackpropSnapshot) : option (Matrix R) :=
  place_diagonal Skeleton_getMassMatrix (mSkeletons s) 0
    (Zero (mNumDOFs s) (mNumDOFs s)).

(** [BackpropSnapshot::getInvMassMatrix] *)
Definition getInvMassMatrix (s : BackpropSnapshot) : option (Matrix R) :=
  place_diagonal Skeleton_getInvMassMatrix (mSkeletons s) 0
    (Zero (mNumDOFs s) (mNumDOFs s)).

(** *** Vector assembly *)

(** [getVectorToAssemble<Eigen::VectorXd>] *)
Definition getVectorToAssemble_VectorXd (matrices : Group)
    (whichVector : VectorToAssemble) : option (Matrix R) :=
  if bool_decide (whichVector = BOUNCE_DIAGONALS)
  then Some (Group_getBounceDiagonals matrices)
  else if bool_decide (whichVector = RESTITUTION_DIAGONALS)
  then Some (Group_getRestitutionDiagonals matrices)
  else if bool_decide (whichVector = CONTACT_CONSTRAINT_IMPULSES)
  then Some (Group_getContactConstraintImpluses matrices)
  else
    _ ← assert (bool_decide (whichVector ≠ CONTACT_CONSTRAINT_MAPPINGS));
    Some (Zero 0 1).

(** [getVectorToAssemble<Eigen::VectorXi>] *)
Definition getVectorToAssemble_VectorXi (matrices : Group)
    (whichVector : VectorToAssemble) : option (Matrix Z) :=
  _ ← assert (bool_decide (whichVector = CONTACT_CONSTRAINT_MAPPINGS));
  Some (Group_getContactConstraintMappings matrices).

(** The vector types [assembleVector] is instantiated at, each with its
    specialisation of [getVectorToAssemble]. *)
Class Vec (T : Type) := {
  getVectorToAssemble : Group → VectorToAssemble → option (Matrix T);
  Vec_storage : Storage T
}.

#[export] Instance VectorXd : Vec R := {
  getVectorToAssemble := getVectorToAssemble_VectorXd;
  Vec_storage := _
}.

#[export] Instance VectorXi : Vec Z := {
  getVectorToAssemble := getVectorToAssemble_VectorXi;
  Vec_storage := _
}.

(** The first loop of [assembleVector]: one addition per group, each of the
    size of the vector of [mGradientMatrices[0]]. *)
Fixpoint measure {T} `{Vec T} (s : BackpropSnapshot)
    (whichVector : VectorToAssemble) (groups : list GroupPtr) (size : nat)
  : option nat :=
  match groups with
  | [] => Some size
  | _ :: rest =>
      first ← mGradientMatrices s !! 0;
      vec ← getVectorToAssemble (group_of s first) whichVector;
      measure s whichVector rest (size + Eigen.size vec)
  end.

(** The second loop: each group's vector is written at the cursor. *)
Fixpoint gather {T} `{Vec T} (s : BackpropSnapshot)
    (whichVector : VectorToAssemble) (groups : list GroupPtr) (cursor : nat)
    (collected : Matrix T) : option (Matrix T) :=
  match groups with
  | [] => Some collected
  | p :: rest =>
      vec ← getVectorToAssemble (group_of s p) whichVector;
      collected' ← set_segment collected cursor (Eigen.size vec) vec;
      gather s whichVector rest (cursor + Eigen.size vec) collected'
  end.

(** [BackpropSnapshot::assembleVector<Vec>] *)
Definition assembleVector {T} `{Vec T} (s : BackpropSnapshot)
    (whichVector : VectorToAssemble) : option (Matrix T) :=
  match mGradientMatrices s with
  | [only] => getVectorToAssemble (group_of s only) whichVector
  | groups =>
      size ← measure s whichVector groups 0;
      gather s whichVector groups 0 (@Uninit T Vec_storage size 1)
  end.

Definition getContactConstraintImpluses (s : BackpropSnapshot)
  : option (Matrix R) :=
  assembleVector s CONTACT_CONSTRAINT_IMPULSES.

Definition getContactConstraintMappings (s : BackpropSnapshot)
  : option (Matrix Z) :=
  assembleVector s CONTACT_CONSTRAINT_MAPPINGS.

Definition getBounceDiagonals (s : BackpropSnapshot) : option (Matrix R) :=
  assembleVector s BOUNCE_DIAGONALS.

Definition getRestitutionDiagonals (s : BackpropSnapshot)
  : option (Matrix R) :=
  assembleVector s RESTITUTION_DIAGONALS.

(** *** Step Jacobians *)

(** [BackpropSnapshot::getProjectionIntoClampsMatrix] *)
Definition getProjectionIntoClampsMatrix (s : BackpropSnapshot)
  : option (Matrix R) :=
  A_c ← getClampingConstraintMatrix s;
  V_c ← getMassedClampingConstraintMatrix s;
  V_ub ← getMassedUpperBoundConstraintMatrix s;
  E ← getUpperBoundMappingMatrix s;
  V_ub_E ← mul V_ub E;
  constraintForceToImpliedTorques ← add V_c V_ub_E;
  forceToVel ← mul (transpose A_c) constraintForceToImpliedTorques;
  let velToForce := pseudoInverse forceToVel in
  bounceDiagonals ← getBounceDiagonals s;
  let bounce := asDiagonal bounceDiagonals in
  scaled ← mul (scale (s_div s_one (mTimeStep s)) velToForce) bounce;
  mul scaled (transpose A_c).

(** [BackpropSnapshot::getForceVelJacobian] *)
Definition getForceVelJacobian (s : BackpropSnapshot) : option (Matrix R) :=
  A_c ← getClampingConstraintMatrix s;
  A_ub ← getUpperBoundConstraintMatrix s;
  E ← getUpperBoundMappingMatrix s;
  P_c ← getProjectionIntoClampsMatrix s;
  Minv ← getInvMassMatrix s;
  if (0 <? size A_ub) && (0 <? size E)
  then
    A_ub_E ← mul A_ub E;
    A ← add A_c A_ub_E;
    A_P ← mul (scale (mTimeStep s) A) P_c;
    A_P_Minv ← mul A_P Minv;
    inner ← sub (Identity (mNumDOFs s) (mNumDOFs s)) A_P_Minv;
    mul (scale (mTimeStep s) Minv) inner
  else
    A_P ← mul (scale (mTimeStep s) A_c) P_c;
    A_P_Minv ← mul A_P Minv;
    inner ← sub (Identity (mNumDOFs s) (mNumDOFs s)) A_P_Minv;
    mul (scale (mTimeStep s) Minv) inner.

(** [BackpropSnapshot::getVelVelJacobian] *)
Definition getVelVelJacobian (s : BackpropSnapshot) : option (Matrix R) :=
  A_c ← getClampingConstraintMatrix s;
  A_ub ← getUpperBoundConstraintMatrix s;
  E ← getUpperBoundMappingMatrix s;
  P_c ← getProjectionIntoClampsMatrix s;
  Minv ← getInvMassMatrix s;
  let B := Identity (mNumDOFs s) (mNumDOFs s) in
  A_ub_E ← mul A_ub E;
  parts1 ← add A_c A_ub_E;
  Minv_parts1 ← mul (scale (mTimeStep s) Minv) parts1;
  parts2 ← mul Minv_parts1 P_c;
  diff ← sub (Identity (mNumDOFs s) (mNumDOFs s)) parts2;
  mul diff B.

(** The loops of [getPosPosJacobian] that fill [W]: for every column [a_i]
    of [A_b] and every row index [j], the block of [W] at
    [(j * A_b.rows(), i)] of shape [A_b.rows() × 1] receives [a_i(j) * a_i]. *)
Definition fill_W (A_b : Matrix R) (W : Matrix R) : option (Matrix R) :=
  for_upto (cols A_b)
    (λ i W,
       a_i ← col A_b i;
       for_upto (rows A_b)
         (λ j W,
            a_ij ← at_ a_i j;
            set_block W (j * rows A_b) i (rows A_b) 1 (scale a_ij a_i))
         W)
    W.

(** [center((i * mNumDOFs) + i) = 1] for every [i]. *)
Definition fill_center (n : nat) (center : Matrix R) : option (Matrix R) :=
  for_upto n (λ i center, set_at center (i * n + i) s_one) center.

(** [X.col(i) = q.segment(i * mNumDOFs, mNumDOFs)] for every [i]. *)
Definition recover_X (n : nat) (q : Matrix R) (X : Matrix R)
  : option (Matrix R) :=
  for_upto n (λ i X, q_i ← segment q (i * n) n; set_col X i q_i) X.

(** [BackpropSnapshot::getPosPosJacobian] *)
Definition getPosPosJacobian (s : BackpropSnapshot) : option (Matrix R) :=
  A_b ← getBouncingConstraintMatrix s;
  if size A_b =? 0
  then Some (Identity (mNumDOFs s) (mNumDOFs s))
  else
    W ← fill_W A_b (Uninit (cols A_b) (rows A_b * rows A_b));
    center ← fill_center (mNumDOFs s) (Zero (mNumDOFs s * mNumDOFs s) 1);
    restitution ← getRestitutionDiagonals s;
    W_center ← mul (transpose W) center;
    rhs ← add restitution W_center;
    solution ← solve (transpose W) rhs;
    q ← sub center solution;
    recover_X (mNumDOFs s) q (Uninit (mNumDOFs s) (mNumDOFs s)).

(** [BackpropSnapshot::getVelPosJacobian] *)
Definition getVelPosJacobian (s : BackpropSnapshot) : option (Matrix R) :=
  scale (mTimeStep s) <$> getPosPosJacobian s.

(** *** Vocabulary of the properties *)

(** Total DOF count of a list of skeletons. *)
Definition total_dofs (skels : list Skeleton) : nat :=
  sum_list (map Skeleton_getNumDofs skels).

(** World offset of the [i]-th skeleton: the DOFs of the skeletons before it. *)
Definition offset (skels : list Skeleton) (i : nat) : nat :=
  total_dofs (take i skels).

(** The stored column totals agree with the stored groups. *)
Definition consistent (s : BackpropSnapshot) : Prop :=
  count_cols s Group_getClampingConstraintMatrix (mGradientMatrices s)
  = mNumClamping s
  ∧ count_cols s Group_getUpperBoundConstraintMatrix (mGradientMatrices s)
    = mNumUpperBound s
  ∧ count_cols s Group_getBouncingConstraintMatrix (mGradientMatrices s)
    = mNumBouncing s.

(** [f skel] is square of order the skeleton's DOF count. *)
Definition shaped (f : Skeleton → Matrix R) (skel : Skeleton) : Prop :=
  rows (f skel) = Skeleton_getNumDofs skel
  ∧ cols (f skel) = Skeleton_getNumDofs skel.

(** [M] is block diagonal over [skels], with blocks [f skel]. *)
Definition block_diagonal (f : Skeleton → Matrix R)
    (skels : list Skeleton) (M : Matrix R) : Prop :=
  rows M = total_dofs skels ∧ cols M = total_dofs skels
  ∧ (∀ i skel a b,
       skels !! i = Some skel →
       a < Skeleton_getNumDofs skel → b < Skeleton_getNumDofs skel →
       coeff M (offset skels i + a) (offset skels i + b) = coeff (f skel) a b)
  ∧ (∀ i j skel_i skel_j a b,
       i ≠ j → skels !! i = Some skel_i → skels !! j = Some skel_j →
       a < Skeleton_getNumDofs skel_i → b < Skeleton_getNumDofs skel_j →
       coeff M (offset skels i + a) (offset skels j + b) = s_zero).

(** A world the assembler can be run on: skeleton names are distinct; every
    group a skeleton refers to lists skeletons of the world, each of its
    matrices has a row for every DOF of those skeletons, its massed matrices
    are as wide as the plain ones, and its mapping matrix has a row per
    upper-bound column and a column per clamping column. *)
Definition well_formed (world : World) : Prop :=
  NoDup (map Skeleton_getName (World_getSkeletons world))
  ∧ ∀ skel p,
      skel ∈ World_getSkeletons world →
      Skeleton_getGradientConstraintMatrices skel = Some p →
      let g := World_deref world p in
      (∀ sk, sk ∈ Group_getSkeletons g → sk ∈ World_getSkeletons world)
      ∧ (∀ which,
           total_dofs (Group_getSkeletons g) ≤ rows (groupMatrixOf which g))
      ∧ cols (Group_getMassedClampingConstraintMatrix g)
        = cols (Group_getClampingConstraintMatrix g)
      ∧ cols (Group_getMassedUpperBoundConstraintMatrix g)
        = cols (Group_getUpperBoundConstraintMatrix g)
      ∧ rows (Group_getUpperBoundMappingMatrix g)
        = cols (Group_getUpperBoundConstraintMatrix g)
      ∧ cols (Group_getUpperBoundMappingMatrix g)
        = cols (Group_getClampingConstraintMatrix g).


(** Where the [k]-th item of a list starts when every item [x] takes up
    [f x] places. *)
Definition offset_by {A} (f : A → nat) (l : list A) (k : nat) : nat :=
  sum_list (map f (take k l)).

(** The mapping matrix of the group behind a stored pointer. *)
Definition mapping_of (s : BackpropSnapshot) (p : GroupPtr) : Matrix R :=
  Group_getUpperBoundMappingMatrix (group_of s p).

(** The length of the vector a group contributes to [assembleVector], zero
    when the group has none of the kind asked for. *)
Definition vector_size {T} {V : Vec T} (s : BackpropSnapshot)
    (whichVector : VectorToAssemble) (p : GroupPtr) : nat :=
  from_option Eigen.size 0 (getVectorToAssemble (group_of s p) whichVector).

(** *** Backpropagation through the groups *)

(** The three vectors of a [LossGradient] that [backprop] reads and
    writes. *)
Record LossGradient := {
  lossWrtPosition : Matrix R;
  lossWrtVelocity : Matrix R;
  lossWrtTorque : Matrix R
}.

(** [ConstrainedGroupGradientMatrices::backprop(thisTimestepLoss,
    nextTimestepLoss)] of the group behind a pointer: the contents it leaves
    in its first argument, given the contents it finds there and its second
    argument. *)
Class GroupBackprop := {
  Group_backprop : GroupPtr → LossGradient → LossGradient → LossGradient
}.

(** [dst.segment(dstStart, n) = src.segment(srcStart, n)] *)
Definition copy_segment (dst : Matrix R) (dstStart : nat) (src : Matrix R)
    (srcStart n : nat) : option (Matrix R) :=
  seg ← segment src srcStart n;
  set_segment dst dstStart n seg.

(** The first inner loop of [backprop]: the group's view of the next
    timestep's loss is read from the world vectors, skeleton by skeleton. *)
Fixpoint gather_loss (s : BackpropSnapshot)
    (nextTimestepLoss : LossGradient) (skels : list Skeleton)
    (cursor : nat) (groupNextTimestepLoss : LossGradient)
  : option LossGradient :=
  match skels with
  | [] => Some groupNextTimestepLoss
  | skel :: rest =>
      dofCursorWorld ← mSkeletonOffset s !! Skeleton_getName skel;
      let dofs := Skeleton_getNumDofs skel in
      position ←
        copy_segment (lossWrtPosition groupNextTimestepLoss) cursor
          (lossWrtPosition nextTimestepLoss) dofCursorWorld dofs;
      velocity ←
        copy_segment (lossWrtVelocity groupNextTimestepLoss) cursor
          (lossWrtVelocity nextTimestepLoss) dofCursorWorld dofs;
      gather_loss s nextTimestepLoss rest (cursor + dofs)
        {| lossWrtPosition := position;
           lossWrtVelocity := velocity;
           lossWrtTorque := lossWrtTorque groupNextTimestepLoss |}
  end.

(** The second inner loop: the group's result is written back into the
    world vectors. *)
Fixpoint scatter_loss (s : BackpropSnapshot)
    (groupThisTimestepLoss : LossGradient) (skels : list Skeleton)
    (cursor : nat) (thisTimestepLoss : LossGradient)
  : option LossGradient :=
  match skels with
  | [] => Some thisTimestepLoss
  | skel :: rest =>
      dofCursorWorld ← mSkeletonOffset s !! Skeleton_getName skel;
      let dofs := Skeleton_getNumDofs skel in
      position ←
        copy_segment (lossWrtPosition thisTimestepLoss) dofCursorWorld
          (lossWrtPosition groupThisTimestepLoss) cursor dofs;
      velocity ←
        copy_segment (lossWrtVelocity thisTimestepLoss) dofCursorWorld
          (lossWrtVelocity groupThisTimestepLoss) cursor dofs;
      torque ←
        copy_segment (lossWrtTorque thisTimestepLoss) dofCursorWorld
          (lossWrtTorque groupThisTimestepLoss) cursor dofs;
      scatter_loss s groupThisTimestepLoss rest (cursor + dofs)
        {| lossWrtPosition := position;
           lossWrtVelocity := velocity;
           lossWrtTorque := torque |}
  end.

(** The vectors of a group as the loop body allocates them: sized by the
    group's DOF count and not initialised; the torque of the group's view of
    the next timestep is never allocated. *)
Definition fresh_groupNextTimestepLoss (groupDofs : nat) : LossGradient :=
  {| lossWrtPosition := Uninit groupDofs 1;
     lossWrtVelocity := Uninit groupDofs 1;
     lossWrtTorque := Uninit 0 1 |}.

Definition fresh_LossGradient (dofs : nat) : LossGradient :=
  {| lossWrtPosition := Uninit dofs 1;
     lossWrtVelocity := Uninit dofs 1;
     lossWrtTorque := Uninit dofs 1 |}.

(** One turn of the loop of [backprop] over the groups. *)
Definition backprop_group `{GroupBackprop} (s : BackpropSnapshot)
    (nextTimestepLoss : LossGradient) (thisTimestepLoss : LossGradient)
    (group : GroupPtr) : option LossGradient :=
  let groupDofs := Group_getNumDOFs (group_of s group) in
  let skels := Group_getSkeletons (group_of s group) in
  groupNextTimestepLoss ←
    gather_loss s nextTimestepLoss skels 0
      (fresh_groupNextTimestepLoss groupDofs);
  let groupThisTimestepLoss :=
    Group_backprop group (fresh_LossGradient groupDofs)
      groupNextTimestepLoss in
  scatter_loss s groupThisTimestepLoss skels 0 thisTimestepLoss.

(** The loop of [backprop] over the groups. *)
Fixpoint backprop_groups `{GroupBackprop} (s : BackpropSnapshot)
    (nextTimestepLoss : LossGradient) (groups : list GroupPtr)
    (thisTimestepLoss : LossGradient) : option LossGradient :=
  match groups with
  | [] => Some thisTimestepLoss
  | group :: rest =>
      thisTimestepLoss' ←
        backprop_group s nextTimestepLoss thisTimestepLoss group;
      backprop_groups s nextTimestepLoss rest thisTimestepLoss'
  end.

(** [BackpropSnapshot::backprop]: the contents it leaves in
    [thisTimestepLoss]. *)
Definition backprop `{GroupBackprop} (s : BackpropSnapshot)
    (nextTimestepLoss : LossGradient) : option LossGradient :=
  backprop_groups s nextTimestepLoss (mGradientMatrices s)
    (fresh_LossGradient (mNumDOFs s)).

(** The copies one of the two inner loops makes on one of the vectors:
    [into_world] tells whether the world offset indexes the destination
    (reading back) or the source (setting up). *)
Fixpoint copy_segments (s : BackpropSnapshot) (into_world : bool)
    (src : Matrix R) (skels : list Skeleton) (cursor : nat)
    (dst : Matrix R) : option (Matrix R) :=
  match skels with
  | [] => Some dst
  | skel :: rest =>
      dofCursorWorld ← mSkeletonOffset s !! Skeleton_getName skel;
      let dofs := Skeleton_getNumDofs skel in
      dst' ←
        (if into_world
         then copy_segment dst dofCursorWorld src cursor dofs
         else copy_segment dst cursor src dofCursorWorld dofs);
      copy_segments s into_world src rest (cursor + dofs) dst'
  end.

(** The three vectors of a [LossGradient]. *)
Definition loss_vectors : list (LossGradient → Matrix R) :=
  [lossWrtPosition; lossWrtVelocity; lossWrtTorque].

End Snapshot.

Arguments Skeleton : clear implicits.
Arguments Group : clear implicits.
Arguments World : clear implicits.
Arguments BackpropSnapshot : clear implicits.
Arguments LossGradient : clear implicits.
Arguments GroupBackprop : clear implicits.

(** *** The identity mapping ([dart/neural/IdentityMapping.cpp]) *)

Section IdentityMapping.
Context {R : Type} `{Scalar R}.

(** What the mapping's constructor reads from the [simulation::World]. *)
Record WorldDims := {
  World_getNumDofs : nat;
  World_getMassDims : nat
}.

Record IdentityMapping := {
  mNumDofs : nat;
  mMassDim : nat
}.

(** [IdentityMapping::IdentityMapping] *)
Definition new_IdentityMapping (world : WorldDims) : IdentityMapping :=
  {| mNumDofs := World_getNumDofs world;
     mMassDim := World_getMassDims world |}.

Definition getPosDim (m : IdentityMapping) : nat := mNumDofs m.
Definition getVelDim (m : IdentityMapping) : nat := mNumDofs m.
Definition getForceDim (m : IdentityMapping) : nat := mNumDofs m.
Definition getMassDim (m : IdentityMapping) : nat := mMassDim m.

Definition getMappedPosToRealPosJac (m : IdentityMapping) : Matrix R :=
  Identity (mNumDofs m) (mNumDofs m).

Definition getRealPosToMappedPosJac (m : IdentityMapping) : Matrix R :=
  Identity (mNumDofs m) (mNumDofs m).

Definition getRealVelToMappedPosJac (m : IdentityMapping) : Matrix R :=
  Zero (mNumDofs m) (mNumDofs m).

Definition getMappedVelToRealVelJac (m : IdentityMapping) : Matrix R :=
  Identity (mNumDofs m) (mNumDofs m).

Definition getRealVelToMappedVelJac (m : IdentityMapping) : Matrix R :=
  Identity (mNumDofs m) (mNumDofs m).

Definition getRealPosToMappedVelJac (m : IdentityMapping) : Matrix R :=
  Zero (mNumDofs m) (mNumDofs m).

Definition getMappedForceToRealForceJac (m : IdentityMapping) : Matrix R :=
  Identity (mNumDofs m) (mNumDofs m).

Definition getRealForceToMappedForceJac (m : IdentityMapping) : Matrix R :=
  Identity (mNumDofs m) (mNumDofs m).

Definition getMappedMassToRealMassJac (m : IdentityMapping) : Matrix R :=
  Identity (mMassDim m) (mMassDim m).

Definition getRealMassToMappedMassJac (m : IdentityMapping) : Matrix R :=
  Identity (mMassDim m) (mMassDim m).

(** The Jacobians between a mapped quantity and the real one, each with the
    dimension of the quantity. *)
Definition mapped_to_real : list (IdentityMapping → Matrix R) :=
  [getMappedPosToRealPosJac; getMappedVelToRealVelJac;
   getMappedForceToRealForceJac; getMappedMassToRealMassJac].

Definition real_to_mapped : list (IdentityMapping → Matrix R) :=
  [getRealPosToMappedPosJac; getRealVelToMappedVelJac;
   getRealForceToMappedForceJac; getRealMassToMappedMassJac].

(** The Jacobians between positions and velocities. *)
Definition across : list (IdentityMapping → Matrix R) :=
  [getRealVelToMappedPosJac; getRealPosToMappedVelJac].

End IdentityMapping.

End Neural.

(** ** The system-identification loop ([dart/realtime/SSID.cpp]) *)

Module Realtime.
Import Eigen.

(** Shared pointers to collaborators, by address. *)
Definition ProblemPtr := nat.
Definition LossPtr := nat.
Definition SolutionPtr := nat.
Definition CustomOptimizerPtr := nat.
Definition ListenerId := nat.

Section SSID.
Context {R : Type} `{Scalar R} `{Conversions R}.

(** What [SSID] reads from the [simulation::World]. *)
Record World := {
  World_getNumDofs : nat;
  World_getTimeStep : R;
  World_getMasses : Matrix R
}.

(** Modelled from the spec: [VectorLog] is not among the sources; it is an
    append-only-by-timestamp store of fixed-width vectors. Its two queries
    are taken from the environment below. *)
Record VectorLog := {
  VectorLog_dim : nat;
  VectorLog_entries : list (Z * Matrix R)
}.

Definition new_VectorLog (dim : nat) : VectorLog :=
  {| VectorLog_dim := dim; VectorLog_entries := [] |}.

Definition VectorLog_record (log : VectorLog) (time : Z) (value : Matrix R)
  : VectorLog :=
  {| VectorLog_dim := VectorLog_dim log;
     VectorLog_entries := VectorLog_entries log ++ [(time, value)] |}.

(** The settings the constructor gives its default [IPOptOptimizer]. *)
Record IPOptOptimizer := {
  checkDerivatives : bool;
  suppressOutput : bool;
  tolerance : R;
  iterationLimit : Z;
  recordFullDebugInfo : bool;
  recordIterations : bool;
  LBFGSHistoryLength : Z;
  silenceOutput : bool
}.

Inductive Optimizer :=
  | Default (ipopt : IPOptOptimizer)
  | Custom (optimizer : CustomOptimizerPtr).

(** Calls that leave the object, in the order they are made. *)
Inductive Event :=
  | ReadClock
  | ThreadStarted
  | ThreadJoined
  | SignalsBlocked
  | Printed (text : string)
  | NewMultiShot (loss : LossPtr) (steps : Z) (shotLength : Z)
      (tuneStartingState : bool)
  | SetParallelOperationsEnabled (problem : ProblemPtr) (enabled : bool)
  | PinForce (problem : ProblemPtr) (step : nat) (force : Matrix R)
  | SetMetadata (problem : ProblemPtr) (key : string) (value : Matrix R)
  | SetStartPos (problem : ProblemPtr) (startPos : Matrix R)
  | Optimize (optimizer : Optimizer) (problem : ProblemPtr)
  | GetRolloutCache (problem : ProblemPtr)
  | Listener (listener : ListenerId) (time : Z) (pos vel mass : Matrix R)
      (duration : Z).

(** What the collaborators answer; an answer may depend on every call made
    so far. *)
Class Environment := {
  (** [VectorLog::availableHistoryBefore] *)
  availableHistoryBefore : VectorLog → Z → Z;
  (** [VectorLog::getValues(startTime, steps, millisPerStep)] *)
  getValues : VectorLog → Z → Z → Z → Matrix R;
  (** [timeSinceEpochMillis()] *)
  timeSinceEpochMillis : list Event → Z;
  (** the object returned by [std::make_shared<MultiShot>(...)] *)
  make_MultiShot : list Event → ProblemPtr;
  (** the solution returned by [Optimizer::optimize] *)
  optimize : list Event → SolutionPtr;
  (** [getRolloutCache(world)->getPosesConst()] and [getVelsConst()] *)
  getPosesConst : list Event → Matrix R;
  getVelsConst : list Event → Matrix R
}.

Context `{Environment}.

Record SSID := {
  mRunning : bool;
  mWorld : World;
  mLoss : LossPtr;
  mPlanningHistoryMillis : Z;
  mSensorDim : Z;
  mSensorLog : VectorLog;
  mControlLog : VectorLog;
  mInitialPosEstimator : Matrix R → Z → Matrix R;
  mOptimizer : Optimizer;
  mProblem : option ProblemPtr;
  mSolution : option SolutionPtr;
  (** whether [mOptimizationThread] is joinable *)
  mOptimizationThread : bool;
  mInferListeners : list ListenerId;
  (** every call made so far, oldest first *)
  trace : list Event
}.

(** Generic field updates. *)
Definition emit (e : Event) (s : SSID) : SSID :=
  {| mRunning := mRunning s; mWorld := mWorld s; mLoss := mLoss s;
     mPlanningHistoryMillis := mPlanningHistoryMillis s;
     mSensorDim := mSensorDim s; mSensorLog := mSensorLog s;
     mControlLog := mControlLog s;
     mInitialPosEstimator := mInitialPosEstimator s;
     mOptimizer := mOptimizer s; mProblem := mProblem s;
     mSolution := mSolution s;
     mOptimizationThread := mOptimizationThread s;
     mInferListeners := mInferListeners s;
     trace := trace s ++ [e] |}.

Definition set_running (running joinable : bool) (s : SSID) : SSID :=
  {| mRunning := running; mWorld := mWorld s; mLoss := mLoss s;
     mPlanningHistoryMillis := mPlanningHistoryMillis s;
     mSensorDim := mSensorDim s; mSensorLog := mSensorLog s;
     mControlLog := mControlLog s;
     mInitialPosEstimator := mInitialPosEstimator s;
     mOptimizer := mOptimizer s; mProblem := mProblem s;
     mSolution := mSolution s;
     mOptimizationThread := joinable;
     mInferListeners := mInferListeners s;
     trace := trace s |}.

Definition set_problem (problem : option ProblemPtr)
    (solution : option SolutionPtr) (s : SSID) : SSID :=
  {| mRunning := mRunning s; mWorld := mWorld s; mLoss := mLoss s;
     mPlanningHistoryMillis := mPlanningHistoryMillis s;
     mSensorDim := mSensorDim s; mSensorLog := mSensorLog s;
     mControlLog := mControlLog s;
     mInitialPosEstimator := mInitialPosEstimator s;
     mOptimizer := mOptimizer s; mProblem := problem;
     mSolution := solution;
     mOptimizationThread := mOptimizationThread s;
     mInferListeners := mInferListeners s;
     trace := trace s |}.

(** [timeSinceEpochMillis()]: the reading, and the object after the call. *)
Definition now (s : SSID) : Z * SSID :=
  (timeSinceEpochMillis (trace s), emit ReadClock s).

(** [SSID::SSID] *)
Definition new_SSID (world : World) (loss : LossPtr)
    (planningHistoryMillis : Z) (sensorDim : Z) : SSID :=
  let dofs := World_getNumDofs world in
  {| mRunning := false;
     mWorld := world;
     mLoss := loss;
     mPlanningHistoryMillis := planningHistoryMillis;
     mSensorDim := sensorDim;
     mSensorLog := new_VectorLog (Z.to_nat sensorDim);
     mControlLog := new_VectorLog (World_getNumDofs world);
     mInitialPosEstimator := λ _ _, Zero dofs 1;
     mOptimizer :=
       Default {| checkDerivatives := false;
                  suppressOutput := true;
                  tolerance := s_div s_one (from_int 1000000000);
                  iterationLimit := 20;
                  recordFullDebugInfo := false;
                  recordIterations := false;
                  LBFGSHistoryLength := 5;
                  silenceOutput := true |};
     mProblem := None;
     mSolution := None;
     mOptimizationThread := false;
     mInferListeners := [];
     trace := [] |}.

(** [SSID::setLoss] *)
Definition setLoss (loss : LossPtr) (s : SSID) : SSID :=
  {| mRunning := mRunning s; mWorld := mWorld s; mLoss := loss;
     mPlanningHistoryMillis := mPlanningHistoryMillis s;
     mSensorDim := mSensorDim s; mSensorLog := mSensorLog s;
     mControlLog := mControlLog s;
     mInitialPosEstimator := mInitialPosEstimator s;
     mOptimizer := mOptimizer s; mProblem := mProblem s;
     mSolution := mSolution s;
     mOptimizationThread := mOptimizationThread s;
     mInferListeners := mInferListeners s;
     trace := trace s |}.

(** [SSID::setOptimizer] *)
Definition setOptimizer (optimizer : Optimizer) (s : SSID) : SSID :=
  {| mRunning := mRunning s; mWorld := mWorld s; mLoss := mLoss s;
     mPlanningHistoryMillis := mPlanningHistoryMillis s;
     mSensorDim := mSensorDim s; mSensorLog := mSensorLog s;
     mControlLog := mControlLog s;
     mInitialPosEstimator := mInitialPosEstimator s;
     mOptimizer := optimizer; mProblem := mProblem s;
     mSolution := mSolution s;
     mOptimizationThread := mOptimizationThread s;
     mInferListeners := mInferListeners s;
     trace := trace s |}.

(** [SSID::setProblem] *)
Definition setProblem (problem : ProblemPtr) (s : SSID) : SSID :=
  set_problem (Some problem) (mSolution s) s.

(** [SSID::setInitialPosEstimator] *)
Definition setInitialPosEstimator
    (initialPosEstimator : Matrix R → Z → Matrix R) (s : SSID) : SSID :=
  {| mRunning := mRunning s; mWorld := mWorld s; mLoss := mLoss s;
     mPlanningHistoryMillis := mPlanningHistoryMillis s;
     mSensorDim := mSensorDim s; mSensorLog := mSensorLog s;
     mControlLog := mControlLog s;
     mInitialPosEstimator := initialPosEstimator;
     mOptimizer := mOptimizer s; mProblem := mProblem s;
     mSolution := mSolution s;
     mOptimizationThread := mOptimizationThread s;
     mInferListeners := mInferListeners s;
     trace := trace s |}.

(** [SSID::registerSensors] *)
Definition registerSensors (time : Z) (sensors : Matrix R) (s : SSID) : SSID :=
  {| mRunning := mRunning s; mWorld := mWorld s; mLoss := mLoss s;
     mPlanningHistoryMillis := mPlanningHistoryMillis s;
     mSensorDim := mSensorDim s;
     mSensorLog := VectorLog_record (mSensorLog s) time sensors;
     mControlLog := mControlLog s;
     mInitialPosEstimator := mInitialPosEstimator s;
     mOptimizer := mOptimizer s; mProblem := mProblem s;
     mSolution := mSolution s;
     mOptimizationThread := mOptimizationThread s;
     mInferListeners := mInferListeners s;
     trace := trace s |}.

(** [SSID::registerControls] *)
Definition registerControls (time : Z) (controls : Matrix R) (s : SSID)
  : SSID :=
  {| mRunning := mRunning s; mWorld := mWorld s; mLoss := mLoss s;
     mPlanningHistoryMillis := mPlanningHistoryMillis s;
     mSensorDim := mSensorDim s; mSensorLog := mSensorLog s;
     mControlLog := VectorLog_record (mControlLog s) time controls;
     mInitialPosEstimator := mInitialPosEstimator s;
     mOptimizer := mOptimizer s; mProblem := mProblem s;
     mSolution := mSolution s;
     mOptimizationThread := mOptimizationThread s;
     mInferListeners := mInferListeners s;
     trace := trace s |}.

(** [SSID::registerSensorsNow], [SSID::registerControlsNow] *)
Definition registerSensorsNow (sensors : Matrix R) (s : SSID) : SSID :=
  let '(time, s) := now s in registerSensors time sensors s.

Definition registerControlsNow (controls : Matrix R) (s : SSID) : SSID :=
  let '(time, s) := now s in registerControls time controls s.

(** [SSID::registerInferListener] *)
Definition registerInferListener (inferListener : ListenerId) (s : SSID)
  : SSID :=
  {| mRunning := mRunning s; mWorld := mWorld s; mLoss := mLoss s;
     mPlanningHistoryMillis := mPlanningHistoryMillis s;
     mSensorDim := mSensorDim s; mSensorLog := mSensorLog s;
     mControlLog := mControlLog s;
     mInitialPosEstimator := mInitialPosEstimator s;
     mOptimizer := mOptimizer s; mProblem := mProblem s;
     mSolution := mSolution s;
     mOptimizationThread := mOptimizationThread s;
     mInferListeners := mInferListeners s ++ [inferListener];
     trace := trace s |}.

(** [SSID::start] *)
Definition start (s : SSID) : SSID :=
  if mRunning s then s
  else
    let s := set_running true (mOptimizationThread s) s in
    set_running (mRunning s) true (emit ThreadStarted s).

(** [SSID::stop] *)
Definition stop (s : SSID) : SSID :=
  if negb (mRunning s) then s
  else
    let s := set_running false (mOptimizationThread s) s in
    set_running (mRunning s) false (emit ThreadJoined s).

(** [m.col(i)] for a signed index. *)
Definition col_at (m : Matrix R) (i : Z) : option (Matrix R) :=
  if (0 <=? i)%Z then col m (Z.to_nat i) else None.

(** [SSID::runInference] *)
Definition runInference (startTime : Z) (s : SSID) : option SSID :=
  let '(startComputeWallTime, s) := now s in
  let millisPerStep :=
    ceil_to_int (s_mul (World_getTimeStep (mWorld s)) (from_int 1000)) in
  let steps :=
    ceil_to_int
      (s_div (from_int (mPlanningHistoryMillis s)) (from_int millisPerStep)) in
  let s :=
    match mProblem s with
    | Some _ => s
    | None =>
        let multishot := make_MultiShot (trace s) in
        let s := emit (NewMultiShot (mLoss s) steps 10 true) s in
        let s := emit (SetParallelOperationsEnabled multishot true) s in
        set_problem (Some multishot) (mSolution s) s
    end in
  problem ← mProblem s;
  let forceHistory :=
    getValues (mControlLog s) (startTime - mPlanningHistoryMillis s) steps
      millisPerStep in
  s ← for_upto (Z.to_nat steps)
        (λ i s, force ← col forceHistory i; Some (emit (PinForce problem i force) s))
        s;
  let sensorHistory :=
    getValues (mSensorLog s) (startTime - mPlanningHistoryMillis s) steps
      millisPerStep in
  let s := emit (SetMetadata problem "forces" forceHistory) s in
  let s := emit (SetMetadata problem "sensors" sensorHistory) s in
  let s :=
    emit (SetStartPos problem (mInitialPosEstimator s sensorHistory startTime))
      s in
  let solution := optimize (trace s) in
  let s := emit (Optimize (mOptimizer s) problem) s in
  let s := set_problem (mProblem s) (Some solution) s in
  let '(endWallTime, s) := now s in
  let computeDurationWallTime := (endWallTime - startComputeWallTime)%Z in
  let poses := getPosesConst (trace s) in
  let vels := getVelsConst (trace s) in
  let s := emit (GetRolloutCache problem) s in
  pos ← col_at poses (steps - 1);
  vel ← col_at vels (steps - 1);
  let mass := World_getMasses (mWorld s) in
  Some (fold_left
          (λ s listener,
             emit (Listener listener startTime pos vel mass
                     computeDurationWallTime) s)
          (mInferListeners s) s).

(** The body of the [while (mRunning)] loop of
    [SSID::optimizationThreadLoop]. *)
Definition iteration (s : SSID) : option SSID :=
  let '(startTime, s) := now s in
  if (mPlanningHistoryMillis s <? availableHistoryBefore (mControlLog s) startTime)%Z
  then runInference startTime (emit (Printed "Running inference") s)
  else Some s.

(** The first [n] turns of the [while (mRunning)] loop, the flag being read
    before each turn. *)
Fixpoint iterations (n : nat) (s : SSID) : option SSID :=
  match n with
  | 0 => Some s
  | S k =>
      if mRunning s then s' ← iteration s; iterations k s' else Some s
  end.

(** [SSID::optimizationThreadLoop], cut after [n] turns of its loop. *)
Definition optimizationThreadLoop (n : nat) (s : SSID) : option SSID :=
  iterations n (emit SignalsBlocked s).

(** The calls a client can make on the object, and a worker turn. *)
Inductive Call :=
  | call_setLoss (loss : LossPtr)
  | call_setOptimizer (optimizer : Optimizer)
  | call_setProblem (problem : ProblemPtr)
  | call_setInitialPosEstimator (estimator : Matrix R → Z → Matrix R)
  | call_registerSensors (time : Z) (sensors : Matrix R)
  | call_registerControls (time : Z) (controls : Matrix R)
  | call_registerSensorsNow (sensors : Matrix R)
  | call_registerControlsNow (controls : Matrix R)
  | call_registerInferListener (listener : ListenerId)
  | call_start
  | call_stop
  | call_runInference (startTime : Z)
  | call_iteration.

Definition perform (c : Call) (s : SSID) : option SSID :=
  match c with
  | call_setLoss loss => Some (setLoss loss s)
  | call_setOptimizer optimizer => Some (setOptimizer optimizer s)
  | call_setProblem problem => Some (setProblem problem s)
  | call_setInitialPosEstimator f => Some (setInitialPosEstimator f s)
  | call_registerSensors t v => Some (registerSensors t v s)
  | call_registerControls t v => Some (registerControls t v s)
  | call_registerSensorsNow v => Some (registerSensorsNow v s)
  | call_registerControlsNow v => Some (registerControlsNow v s)
  | call_registerInferListener l => Some (registerInferListener l s)
  | call_start => Some (start s)
  | call_stop => Some (stop s)
  | call_runInference t => runInference t s
  | call_iteration => iteration s
  end.

(** A history of calls, performed in order. *)
Fixpoint perform_all (cs : list Call) (s : SSID) : option SSID :=
  match cs with
  | [] => Some s
  | c :: rest => s' ← perform c s; perform_all rest s'
  end.

Definition is_setInitialPosEstimator (c : Call) : bool :=
  match c with
  | call_setInitialPosEstimator _ => true
  | _ => false
  end.

(** The start positions handed to the problem, oldest first. *)
Definition startPositions (events : list Event) : list (Matrix R) :=
  omap (λ e, match e with SetStartPos _ v => Some v | _ => None end) events.

(** How many worker threads were ever started. *)
Definition threadsStarted (events : list Event) : nat :=
  length (omap (λ e, match e with ThreadStarted => Some () | _ => None end)
            events).

(** How many inference cycles were run: [runInference] is the only caller of
    the optimizer, and calls it once. *)
Definition cyclesRun (events : list Event) : nat :=
  length (omap (λ e, match e with Optimize _ _ => Some () | _ => None end)
            events).

(** A turn of the worker loop runs an inference cycle. *)
Definition runs_cycle (s : SSID) : Prop :=
  ∃ s', iteration s = Some s' ∧ cyclesRun (trace s') = S (cyclesRun (trace s)).

(** *** Vocabulary of the properties *)

(** Events other than the ones counted by [startPositions],
    [threadsStarted] and [cyclesRun]. *)
Definition quiet (e : Event) : bool :=
  match e with
  | SetStartPos _ _ | Optimize _ _ | ThreadStarted | Printed _ => false
  | _ => true
  end.

(** Emitting a list of events, oldest first. *)
Definition emit_all (events : list Event) (s : SSID) : SSID :=
  fold_left (λ s e, emit e s) events s.

(** The default estimator is in place, and every start position handed out so
    far is the zero vector. *)
Definition default_estimator (dofs : nat) (s : SSID) : Prop :=
  mInitialPosEstimator s = (λ _ _, Zero dofs 1)
  ∧ Forall (λ v, v = Zero dofs 1) (startPositions (trace s)).


(** *** Vocabulary of the properties of a cycle *)

(** How many worker threads were ever joined. *)
Definition threadsJoined (events : list Event) : nat :=
  length (omap (λ e, match e with ThreadJoined => Some () | _ => None end)
            events).

(** How many default problems were ever built. *)
Definition problemsCreated (events : list Event) : nat :=
  length (omap (λ e, match e with
                     | NewMultiShot _ _ _ _ => Some ()
                     | _ => None
                     end) events).

(** The forces pinned, oldest first: problem, step and force. *)
Definition pinnedForces (events : list Event)
  : list (ProblemPtr * nat * Matrix R) :=
  omap (λ e, match e with PinForce p i f => Some (p, i, f) | _ => None end)
    events.



(** [millisPerStep] and [steps] as [runInference] computes them. *)
Definition millisPerStep (s : SSID) : Z :=
  ceil_to_int (s_mul (World_getTimeStep (mWorld s)) (from_int 1000)).

Definition steps (s : SSID) : Z :=
  ceil_to_int
    (s_div (from_int (mPlanningHistoryMillis s)) (from_int (millisPerStep s))).

(** The problem a cycle entered in state [s] works on: the one held, or the
    default one built at the start of the cycle. *)
Definition cycle_problem (s : SSID) : ProblemPtr :=
  match mProblem s with
  | Some p => p
  | None => make_MultiShot (trace s ++ [ReadClock])
  end.

(** The calls with which a cycle builds the default problem, when it does. *)
Definition creation_events (s : SSID) : list Event :=
  match mProblem s with
  | Some _ => []
  | None =>
      [NewMultiShot (mLoss s) (steps s) 10 true;
       SetParallelOperationsEnabled (cycle_problem s) true]
  end.

(** The control and sensor histories a cycle started at [startTime] reads. *)
Definition forceHistory (startTime : Z) (s : SSID) : Matrix R :=
  getValues (mControlLog s) (startTime - mPlanningHistoryMillis s) (steps s)
    (millisPerStep s).

Definition sensorHistory (startTime : Z) (s : SSID) : Matrix R :=
  getValues (mSensorLog s) (startTime - mPlanningHistoryMillis s) (steps s)
    (millisPerStep s).

(** Column [i] of [m], as [m.col(i)] gives it when [i] is in range. *)
Definition column (m : Matrix R) (i : nat) : Matrix R :=
  mk_matrix (rows m) 1 (λ a b, coeff m (0 + a) (i + b)).

(** The calls of a cycle up to the optimizer's, the answers it gets, and the
    object it leaves, for a cycle entered at [startTime] in state [s] whose
    rollout ends in [pos] and [vel]. *)
Definition calls_before_optimize (startTime : Z) (s : SSID)
  : list Event :=
  [ReadClock] ++ creation_events s
  ++ map (λ i, PinForce (cycle_problem s) i
                 (column (forceHistory startTime s) i))
       (seq 0 (Z.to_nat (steps s)))
  ++ [SetMetadata (cycle_problem s) "forces" (forceHistory startTime s);
      SetMetadata (cycle_problem s) "sensors" (sensorHistory startTime s);
      SetStartPos (cycle_problem s)
        (mInitialPosEstimator s (sensorHistory startTime s) startTime)].

Definition calls_until_rollout (startTime : Z) (s : SSID)
  : list Event :=
  calls_before_optimize startTime s
  ++ [Optimize (mOptimizer s) (cycle_problem s); ReadClock].

Definition computeDuration (startTime : Z) (s : SSID) : Z :=
  (timeSinceEpochMillis
     (trace s ++ calls_before_optimize startTime s
      ++ [Optimize (mOptimizer s) (cycle_problem s)])
   - timeSinceEpochMillis (trace s))%Z.

Definition cycle_calls (startTime : Z) (pos vel : Matrix R) (s : SSID)
  : list Event :=
  calls_until_rollout startTime s
  ++ [GetRolloutCache (cycle_problem s)]
  ++ map (λ l, Listener l startTime pos vel (World_getMasses (mWorld s))
                 (computeDuration startTime s))
       (mInferListeners s).

Definition after_cycle (startTime : Z) (pos vel : Matrix R) (s : SSID)
  : SSID :=
  set_problem (Some (cycle_problem s))
    (Some (optimize (trace s ++ calls_before_optimize startTime s)))
    (emit_all (cycle_calls startTime pos vel s) s).

(** The optimizer calls, oldest first: optimizer and problem. *)
Definition optimizations (events : list Event)
  : list (Optimizer * ProblemPtr) :=
  omap (λ e, match e with Optimize o p => Some (o, p) | _ => None end) events.


(** What a call made in state [s] appends to the control log and to the
    sensor log. *)
Definition logged_controls (c : Call) (s : SSID) : list (Z * Matrix R) :=
  match c with
  | call_registerControls time controls => [(time, controls)]
  | call_registerControlsNow controls =>
      [(timeSinceEpochMillis (trace s), controls)]
  | _ => []
  end.

Definition logged_sensors (c : Call) (s : SSID) : list (Z * Matrix R) :=
  match c with
  | call_registerSensors time sensors => [(time, sensors)]
  | call_registerSensorsNow sensors =>
      [(timeSinceEpochMillis (trace s), sensors)]
  | _ => []
  end.

End SSID.

Arguments World : clear implicits.
Arguments VectorLog : clear implicits.
Arguments Event : clear implicits.
Arguments Environment : clear implicits.
Arguments SSID : clear implicits.
Arguments Call : clear implicits.

End Realtime.

(** ** Concrete inputs

    Integer scalars, small worlds and a deterministic environment, on which
    the definitions above can be evaluated. *)

Module Sample.
Import Eigen.

(** Storage that has not been written shows a recognisable negative value. *)
#[export] Instance Z_Storage : Storage Z := {
  uninitialized := λ i j, (- 1 - Z.of_nat i - Z.of_nat j)%Z
}.

(** The transpose is the pseudo-inverse of the matrices met in the examples
    (the zero matrix and matrices with orthonormal columns); the examples
    never reach the least-squares solve. *)
#[export] Instance Z_Decomposition : Decomposition Z := {
  pseudoInverse := transpose;
  cod_solution := λ m b, Zero (cols m) (cols b)
}.

Definition matrix (c : nat) (l : list (list Z)) : Matrix Z := of_rows 0%Z c l.
Definition vector (l : list Z) : Matrix Z := of_list 0%Z l.

(** A two-DOF skeleton in group [0]: one clamping contact, one upper-bound
    contact tied to it, no bounce. *)
Definition skelA : Neural.Skeleton Z := {|
  Neural.Skeleton_getName := "a";
  Neural.Skeleton_getNumDofs := 2;
  Neural.Skeleton_getMassMatrix := matrix 2 [[2; 1]; [1; 1]]%Z;
  Neural.Skeleton_getInvMassMatrix := matrix 2 [[1; -1]; [-1; 2]]%Z;
  Neural.Skeleton_getGradientConstraintMatrices := Some 0
|}.

Definition groupA : Neural.Group Z := {|
  Neural.Group_getSkeletons := [skelA];
  Neural.Group_getNumDOFs := 2;
  Neural.Group_getNumConstraintDim := 2;
  Neural.Group_getClampingConstraintMatrix := matrix 1 [[1]; [0]]%Z;
  Neural.Group_getMassedClampingConstraintMatrix := matrix 1 [[1]; [-1]]%Z;
  Neural.Group_getUpperBoundConstraintMatrix := matrix 1 [[0]; [1]]%Z;
  Neural.Group_getMassedUpperBoundConstraintMatrix := matrix 1 [[-1]; [2]]%Z;
  Neural.Group_getUpperBoundMappingMatrix := matrix 1 [[1]]%Z;
  Neural.Group_getBouncingConstraintMatrix := matrix 0 [[]; []];
  Neural.Group_getBounceDiagonals := vector [1]%Z;
  Neural.Group_getRestitutionDiagonals := vector [];
  Neural.Group_getContactConstraintImpluses := vector [4; 6]%Z;
  Neural.Group_getContactConstraintMappings := vector [-1; 0]%Z
|}.

(** A one-DOF skeleton in group [1]: two clamping contacts. *)
Definition skelB : Neural.Skeleton Z := {|
  Neural.Skeleton_getName := "b";
  Neural.Skeleton_getNumDofs := 1;
  Neural.Skeleton_getMassMatrix := matrix 1 [[1]]%Z;
  Neural.Skeleton_getInvMassMatrix := matrix 1 [[1]]%Z;
  Neural.Skeleton_getGradientConstraintMatrices := Some 1
|}.

Definition groupB : Neural.Group Z := {|
  Neural.Group_getSkeletons := [skelB];
  Neural.Group_getNumDOFs := 1;
  Neural.Group_getNumConstraintDim := 2;
  Neural.Group_getClampingConstraintMatrix := matrix 2 [[1; 1]]%Z;
  Neural.Group_getMassedClampingConstraintMatrix := matrix 2 [[1; 1]]%Z;
  Neural.Group_getUpperBoundConstraintMatrix := matrix 0 [[]];
  Neural.Group_getMassedUpperBoundConstraintMatrix := matrix 0 [[]];
  Neural.Group_getUpperBoundMappingMatrix := matrix 2 [];
  Neural.Group_getBouncingConstraintMatrix := matrix 0 [[]];
  Neural.Group_getBounceDiagonals := vector [2; 3]%Z;
  Neural.Group_getRestitutionDiagonals := vector [];
  Neural.Group_getContactConstraintImpluses := vector [7; 8]%Z;
  Neural.Group_getContactConstraintMappings := vector [-1; -1]%Z
|}.

(** Two skeletons in no constraint group. *)
Definition skelC : Neural.Skeleton Z := {|
  Neural.Skeleton_getName := "c";
  Neural.Skeleton_getNumDofs := 2;
  Neural.Skeleton_getMassMatrix := matrix 2 [[2; 1]; [1; 1]]%Z;
  Neural.Skeleton_getInvMassMatrix := matrix 2 [[1; -1]; [-1; 2]]%Z;
  Neural.Skeleton_getGradientConstraintMatrices := None
|}.

Definition skelD : Neural.Skeleton Z := {|
  Neural.Skeleton_getName := "d";
  Neural.Skeleton_getNumDofs := 1;
  Neural.Skeleton_getMassMatrix := matrix 1 [[1]]%Z;
  Neural.Skeleton_getInvMassMatrix := matrix 1 [[1]]%Z;
  Neural.Skeleton_getGradientConstraintMatrices := None
|}.

Definition deref (p : Neural.GroupPtr) : Neural.Group Z :=
  match p with
  | 0 => groupA
  | _ => groupB
  end.

Definition world (skels : list (Neural.Skeleton Z)) : Neural.World Z := {|
  Neural.World_getSkeletons := skels;
  Neural.World_getTimeStep := 1%Z;
  Neural.World_deref := deref
|}.

Definition snapshot (skels : list (Neural.Skeleton Z))
  : Neural.BackpropSnapshot Z :=
  let n := sum_list (map Neural.Skeleton_getNumDofs skels) in
  Neural.new_BackpropSnapshot (world skels)
    (Zero n 1) (Zero n 1) (Zero n 1).

(** The environment of the examples: the clock starts at 5000 ms and
    advances by one with every call made; a log has as much history as has
    passed since its first entry, and is resampled by taking the latest value
    at or before each instant. *)
Definition latest (entries : list (Z * Matrix Z)) (t : Z) : Matrix Z :=
  fold_left (λ found e, if (e.1 <=? t)%Z then e.2 else found) entries
    (Zero 0 1).

#[export] Instance environment : Realtime.Environment Z := {
  Realtime.availableHistoryBefore := λ log t,
    match Realtime.VectorLog_entries log with
    | [] => 0%Z
    | e :: _ => (t - e.1)%Z
    end;
  Realtime.getValues := λ log start steps millisPerStep,
    mk_matrix (Realtime.VectorLog_dim log) (Z.to_nat steps)
      (λ i j, coeff (latest (Realtime.VectorLog_entries log)
                       (start + Z.of_nat j * millisPerStep)%Z) i 0);
  Realtime.timeSinceEpochMillis := λ events,
    (5000 + Z.of_nat (length events))%Z;
  Realtime.make_MultiShot := λ _, 1;
  Realtime.optimize := λ events, length events;
  Realtime.getPosesConst := λ _, matrix 2 [[10; 11]]%Z;
  Realtime.getVelsConst := λ _, matrix 2 [[20; 21]]%Z
}.

(** One DOF, a step of one second, two seconds of planning
    history. *)
Definition ssid_world : Realtime.World Z := {|
  Realtime.World_getNumDofs := 1;
  Realtime.World_getTimeStep := 1%Z;
  Realtime.World_getMasses := vector [3]%Z
|}.

Definition ssid : Realtime.SSID Z :=
  Realtime.registerInferListener 0
    (Realtime.new_SSID ssid_world 0 2000 1).

(** The object after a control value has been logged exactly, respectively
    more than, one planning window before the clock's next reading. *)
Definition ssid_exact : Realtime.SSID Z :=
  Realtime.registerControls 3000 (vector [9]%Z) ssid.

Definition ssid_ample : Realtime.SSID Z :=
  Realtime.registerControls 2000 (vector [9]%Z) ssid.

(** A history of calls that never replaces the estimator. *)
Definition calls : list (Realtime.Call Z) :=
  [Realtime.call_registerInferListener 0;
   Realtime.call_registerControls 2000 (vector [9]%Z);
   Realtime.call_start;
   Realtime.call_iteration;
   Realtime.call_setLoss 3;
   Realtime.call_runInference 5100;
   Realtime.call_stop].

(** The object holding a problem of the caller's. *)
Definition ssid_held : Realtime.SSID Z := Realtime.setProblem 4 ssid_ample.


(** A skeleton whose group lists another skeleton, not itself. *)
Definition skelE : Neural.Skeleton Z := {|
  Neural.Skeleton_getName := "e";
  Neural.Skeleton_getNumDofs := 1;
  Neural.Skeleton_getMassMatrix := matrix 1 [[1]]%Z;
  Neural.Skeleton_getInvMassMatrix := matrix 1 [[1]]%Z;
  Neural.Skeleton_getGradientConstraintMatrices := Some 1
|}.




(** A group's own [backprop] that hands the next timestep's position and
    velocity losses back, and twice the velocity loss as the torque loss. *)
#[export] Instance group_backprop : Neural.GroupBackprop Z := {
  Neural.Group_backprop := λ _ _ groupNextTimestepLoss,
    {| Neural.lossWrtPosition :=
         Neural.lossWrtPosition groupNextTimestepLoss;
       Neural.lossWrtVelocity :=
         Neural.lossWrtVelocity groupNextTimestepLoss;
       Neural.lossWrtTorque :=
         scale 2%Z (Neural.lossWrtVelocity groupNextTimestepLoss) |}
}.

Definition nextTimestepLoss : Neural.LossGradient Z := {|
  Neural.lossWrtPosition := vector [1; 2; 3; 4]%Z;
  Neural.lossWrtVelocity := vector [5; 6; 7; 8]%Z;
  Neural.lossWrtTorque := vector []
|}.

(** The identity mapping of a world with two DOFs and one mass. *)
Definition mapping : Neural.IdentityMapping :=
  Neural.new_IdentityMapping
    {| Neural.World_getNumDofs := 2; Neural.World_getMassDims := 1 |}.

End Sample.

(** * Properties *)

#[export] Instance Z_ScalarLaws : ScalarLaws Z.
Proof. split; intros; cbn; lia. Qed.

(** ** Dense matrices *)

Module EigenFacts.
Import Eigen.

Lemma meq_refl {T} (a : Matrix T) : meq a a.
Proof. by repeat split. Qed.

Lemma set_block_Some {T} (dst : Matrix T) r c h w src m :
  set_block dst r c h w src = Some m →
  r + h ≤ rows dst ∧ c + w ≤ cols dst ∧ rows src = h ∧ cols src = w
  ∧ rows m = rows dst ∧ cols m = cols dst
  ∧ ∀ i j, coeff m i j
           = if (r <=? i) && (i <? r + h) && (c <=? j) && (j <? c + w)
             then coeff src (i - r) (j - c) else coeff dst i j.
Proof.
  unfold set_block.
  destruct (r + h <=? rows dst) eqn:E1; [|done].
  destruct (c + w <=? cols dst) eqn:E2; [|done].
  destruct (rows src =? h) eqn:E3; [|done].
  destruct (cols src =? w) eqn:E4; [|done].
  cbn. intros [= <-]. cbn.
  apply Nat.leb_le in E1, E2. apply Nat.eqb_eq in E3, E4. done.
Qed.

Lemma set_block_is_Some {T} (dst : Matrix T) r c h w src :
  r + h ≤ rows dst → c + w ≤ cols dst → rows src = h → cols src = w →
  is_Some (set_block dst r c h w src).
Proof.
  intros H1 H2 H3 H4. unfold set_block.
  apply Nat.leb_le in H1, H2. apply Nat.eqb_eq in H3, H4.
  rewrite H1, H2, H3, H4. cbn. eauto.
Qed.

Lemma block_Some {T} (m : Matrix T) r c h w b :
  block m r c h w = Some b →
  r + h ≤ rows m ∧ c + w ≤ cols m ∧ rows b = h ∧ cols b = w
  ∧ ∀ i j, coeff b i j = coeff m (r + i) (c + j).
Proof.
  unfold block.
  destruct (r + h <=? rows m) eqn:E1; [|done].
  destruct (c + w <=? cols m) eqn:E2; [|done].
  cbn. intros [= <-]. cbn. apply Nat.leb_le in E1, E2. done.
Qed.

Lemma block_is_Some {T} (m : Matrix T) r c h w :
  r + h ≤ rows m → c + w ≤ cols m → is_Some (block m r c h w).
Proof.
  intros H1 H2. unfold block. apply Nat.leb_le in H1, H2.
  rewrite H1, H2. cbn. eauto.
Qed.

Section Checked.
Context {R : Type} `{Scalar R}.

Lemma mul_conform (a b : Matrix R) :
  cols a = rows b → mul a b = Some (times a b).
Proof. intros E. unfold mul. apply Nat.eqb_eq in E. by rewrite E. Qed.

Lemma mul_Some (a b c : Matrix R) :
  mul a b = Some c → cols a = rows b ∧ c = times a b.
Proof.
  unfold mul. destruct (cols a =? rows b) eqn:E; [|done].
  apply Nat.eqb_eq in E. by intros [= <-].
Qed.

Lemma mul_None (a b : Matrix R) : cols a ≠ rows b → mul a b = None.
Proof. intros E. unfold mul. apply Nat.eqb_neq in E. by rewrite E. Qed.

Lemma add_conform (a b : Matrix R) :
  rows a = rows b → cols a = cols b → add a b = Some (plus a b).
Proof.
  intros E1 E2. unfold add, same_shape.
  apply Nat.eqb_eq in E1, E2. by rewrite E1, E2.
Qed.

Lemma add_Some (a b c : Matrix R) :
  add a b = Some c → rows a = rows b ∧ cols a = cols b ∧ c = plus a b.
Proof.
  unfold add, same_shape.
  destruct (rows a =? rows b) eqn:E1; [|done].
  destruct (cols a =? cols b) eqn:E2; [|done].
  apply Nat.eqb_eq in E1, E2. by intros [= <-].
Qed.

Lemma sub_conform (a b : Matrix R) :
  rows a = rows b → cols a = cols b → sub a b = Some (minus a b).
Proof.
  intros E1 E2. unfold sub, same_shape.
  apply Nat.eqb_eq in E1, E2. by rewrite E1, E2.
Qed.
End Checked.

Section Arith.
Context {R : Type} `{ScalarLaws R}.

Lemma sum_upto_zero n (f : nat → R) :
  (∀ k, k < n → f k = s_zero) → sum_upto n f = s_zero.
Proof.
  induction n as [|n IH]; intros Hf; cbn; [done|].
  rewrite IH, Hf by auto with lia. apply s_add_0_l.
Qed.

(** A sum in which only the term of index [j] is not zero. *)
Lemma sum_upto_single n j (f : nat → R) :
  j < n → (∀ k, k < n → k ≠ j → f k = s_zero) → sum_upto n f = f j.
Proof.
  induction n as [|n IH]; intros Hj Hf; [lia|]. cbn.
  destruct (decide (j = n)) as [->|Hne].
  - rewrite sum_upto_zero by (intros; apply Hf; lia). apply s_add_0_l.
  - rewrite IH by (try lia; intros; apply Hf; lia).
    rewrite (Hf n) by lia. apply s_add_0_r.
Qed.

(** [m * Identity = m] *)
Lemma times_Identity (m : Matrix R) :
  meq (times m (Identity (cols m) (cols m))) m.
Proof.
  repeat split. intros i j Hi Hj. cbn in *.
  rewrite (sum_upto_single _ j); [|done|].
  - rewrite Nat.eqb_refl. apply s_mul_1_r.
  - intros k _ Hk. apply Nat.eqb_neq in Hk. rewrite Hk. apply s_mul_0_r.
Qed.

(** A product whose left factor has no column is zero everywhere. *)
Lemma times_no_columns (a b : Matrix R) i j :
  cols a = 0 → coeff (times a b) i j = s_zero.
Proof. intros E. cbn. by rewrite E. Qed.

(** A product whose left factor is zero everywhere is zero everywhere. *)
Lemma times_zero_l (a b : Matrix R) i j :
  (∀ i k, coeff a i k = s_zero) → coeff (times a b) i j = s_zero.
Proof.
  intros Ha. cbn. apply sum_upto_zero. intros k _.
  rewrite Ha. apply s_mul_0_l.
Qed.

(** [m * (Identity - z) = m] when [z] is zero everywhere. *)
Lemma times_Identity_minus_zero (m z : Matrix R) n :
  cols m = n → (∀ i j, coeff z i j = s_zero) →
  meq (times m (minus (Identity n n) z)) m.
Proof.
  intros <- Hz. split; [done|]. split; [done|].
  intros i j Hi Hj. cbn in *.
  rewrite (sum_upto_single _ j); [|done|].
  - rewrite Hz, s_sub_0_r, Nat.eqb_refl. apply s_mul_1_r.
  - intros k _ Hk. apply Nat.eqb_neq in Hk.
    rewrite Hz, s_sub_0_r, Hk. apply s_mul_0_r.
Qed.


End Arith.

End EigenFacts.

(** ** The backpropagation snapshot *)

Module NeuralFacts.
Import Eigen Neural EigenFacts.

Section Facts.
Context {R : Type} {SR : Scalar R} {StR : Storage R} {StZ : Storage Z}
  {DR : Decomposition R}.



(** *** What the constructor establishes *)

Lemma count_cols_snoc (s : BackpropSnapshot R) f groups p :
  count_cols s f (groups ++ [p])
  = count_cols s f groups + cols (f (group_of s p)).
Proof. unfold count_cols. by rewrite fold_left_app. Qed.

Lemma count_cols_world (s s' : BackpropSnapshot R) f groups :
  mWorld s' = mWorld s → count_cols s' f groups = count_cols s f groups.
Proof. unfold count_cols, group_of. by intros ->. Qed.

Lemma collect_consistent (s : BackpropSnapshot R) skel :
  consistent s → consistent (collect s skel).
Proof.
  intros (Hc & Hu & Hb). unfold consistent.
  rewrite !(count_cols_world s (collect s skel)) by done.
  cbn -[count_cols].
  destruct (Skeleton_getGradientConstraintMatrices skel) as [p|]; [|done].
  destruct (bool_decide (p ∈ mGradientMatrices s)); [done|].
  rewrite !count_cols_snoc, Hc, Hu, Hb. done.
Qed.

Lemma fold_collect (s0 : BackpropSnapshot R) skels :
  let s := fold_left collect skels s0 in
  mWorld s = mWorld s0
  ∧ mTimeStep s = mTimeStep s0
  ∧ mSkeletons s = mSkeletons s0 ++ skels
  ∧ mNumDOFs s = mNumDOFs s0 + total_dofs skels
  ∧ (consistent s0 → consistent s).
Proof.
  revert s0. induction skels as [|skel skels IH]; intros s0; cbn.
  - rewrite app_nil_r. unfold total_dofs. cbn. split_and!; auto with lia.
  - destruct (IH (collect s0 skel)) as (Hw & Ht & Hs & Hn & Hc).
    cbn in *. rewrite Hw, Ht, Hs, Hn, <- app_assoc. unfold total_dofs. cbn.
    split_and!; auto using collect_consistent with lia.
Qed.

Lemma fold_collect_free (s0 : BackpropSnapshot R) skels :
  Forall (λ skel, Skeleton_getGradientConstraintMatrices skel = None) skels →
  let s := fold_left collect skels s0 in
  mGradientMatrices s = mGradientMatrices s0
  ∧ mNumClamping s = mNumClamping s0
  ∧ mNumUpperBound s = mNumUpperBound s0
  ∧ mNumBouncing s = mNumBouncing s0.
Proof.
  intros Hfree. revert s0.
  induction Hfree as [|skel skels Hskel _ IH]; intros s0; cbn; [done|].
  destruct (IH (collect s0 skel)) as (Hg & Hc & Hu & Hb).
  cbn in *. rewrite Hg, Hc, Hu, Hb, Hskel. done.
Qed.

Lemma new_BackpropSnapshot_fields (world : World R) pos vel tau :
  let s := new_BackpropSnapshot world pos vel tau in
  mWorld s = world
  ∧ mTimeStep s = World_getTimeStep world
  ∧ mSkeletons s = World_getSkeletons world
  ∧ mNumDOFs s = total_dofs (World_getSkeletons world)
  ∧ consistent s.
Proof.
  unfold new_BackpropSnapshot.
  match goal with |- context [fold_left collect ?l ?s0] =>
    destruct (fold_collect s0 l) as (Hw & Ht & Hs & Hn & Hc) end.
  cbn in *. split_and!; try done. by apply Hc.
Qed.

(** *** Shapes of the assembled matrices *)

Lemma shuffle_shape (s : BackpropSnapshot R) gm cc skels dc m m' :
  shuffle s gm cc skels dc m = Some m' →
  rows m' = rows m ∧ cols m' = cols m.
Proof.
  revert dc m. induction skels as [|skel skels IH]; intros dc m; cbn.
  - by intros [= <-].
  - destruct (mSkeletonOffset s !! _) as [dw|]; cbn; [|done].
    destruct (block gm _ _ _ _) as [src|]; cbn; [|done].
    destruct (set_block m _ _ _ _ _) as [m1|] eqn:E; cbn; [|done].
    intros Hm'. apply IH in Hm' as [-> ->].
    apply set_block_Some in E. tauto.
Qed.

Lemma assemble_shape (s : BackpropSnapshot R) which groups cc m m' :
  assemble s which groups cc m = Some m' →
  rows m' = rows m ∧ cols m' = cols m.
Proof.
  revert cc m. induction groups as [|p groups IH]; intros cc m; cbn.
  - by intros [= <-].
  - destruct (shuffle s _ _ _ _ _) as [m1|] eqn:E; cbn; [|done].
    intros Hm'. apply IH in Hm' as [-> ->]. by apply shuffle_shape in E.
Qed.

Lemma assembleMatrix_shape (s : BackpropSnapshot R) which m :
  assembleMatrix s which = Some m →
  rows m = mNumDOFs s ∧ cols m = numColsOf s which.
Proof. intros Hm. by apply assemble_shape in Hm. Qed.

Lemma place_mappings_shape (s : BackpropSnapshot R) groups cu cc m m' :
  place_mappings s groups cu cc m = Some m' →
  rows m' = rows m ∧ cols m' = cols m.
Proof.
  revert cu cc m. induction groups as [|p groups IH]; intros cu cc m; cbn.
  - by intros [= <-].
  - destruct (set_block m _ _ _ _ _) as [m1|] eqn:E; cbn; [|done].
    intros Hm'. apply IH in Hm' as [-> ->].
    apply set_block_Some in E. tauto.
Qed.

Lemma getUpperBoundMappingMatrix_shape (s : BackpropSnapshot R) E :
  consistent s → getUpperBoundMappingMatrix s = Some E →
  rows E = mNumUpperBound s ∧ cols E = mNumClamping s.
Proof.
  intros (Hc & Hu & _) HE. apply place_mappings_shape in HE. cbn in HE.
  by rewrite <- Hc, <- Hu.
Qed.

Lemma place_diagonal_shape f (skels : list (Skeleton R)) cursor m m' :
  place_diagonal f skels cursor m = Some m' →
  rows m' = rows m ∧ cols m' = cols m.
Proof.
  revert cursor m. induction skels as [|skel skels IH]; intros cursor m; cbn.
  - by intros [= <-].
  - destruct (set_block m _ _ _ _ _) as [m1|] eqn:E; cbn; [|done].
    intros Hm'. apply IH in Hm' as [-> ->].
    apply set_block_Some in E. tauto.
Qed.

Lemma getInvMassMatrix_shape (s : BackpropSnapshot R) Minv :
  getInvMassMatrix s = Some Minv →
  rows Minv = mNumDOFs s ∧ cols Minv = mNumDOFs s.
Proof. intros HM. by apply place_diagonal_shape in HM. Qed.


(** *** Vector assembly *)

(** C8. The real-valued specialisation answers each of the three real
    vector kinds with the group's vector of that kind, so a caller that only
    passes those kinds never reaches its assertion; the assertion is what the
    integer-mapping kind meets there. The integer specialisation passes its
    assertion exactly on the integer-mapping kind, which it answers with the
    group's contact-constraint mappings. *)
Theorem getVectorToAssemble_dispatch (matrices : Group R)
    (whichVector : VectorToAssemble) :
  (whichVector ∈ [BOUNCE_DIAGONALS; RESTITUTION_DIAGONALS;
                  CONTACT_CONSTRAINT_IMPULSES] →
   getVectorToAssemble_VectorXd matrices whichVector
   = Some (match whichVector with
           | BOUNCE_DIAGONALS => Group_getBounceDiagonals matrices
           | RESTITUTION_DIAGONALS => Group_getRestitutionDiagonals matrices
           | _ => Group_getContactConstraintImpluses matrices
           end))
  ∧ (getVectorToAssemble_VectorXd matrices whichVector = None
     ↔ whichVector = CONTACT_CONSTRAINT_MAPPINGS)
  ∧ (is_Some (getVectorToAssemble_VectorXi matrices whichVector)
     ↔ whichVector = CONTACT_CONSTRAINT_MAPPINGS)
  ∧ getVectorToAssemble_VectorXi matrices CONTACT_CONSTRAINT_MAPPINGS
    = Some (Group_getContactConstraintMappings matrices).
Proof.
  split_and!.
  - intros Hin. destruct whichVector; try done.
    repeat (apply elem_of_cons in Hin as [?|Hin]; [done|]).
    by apply elem_of_nil in Hin.
  - by destruct whichVector.
  - destruct whichVector; cbn; split; try done; by intros [? [=]].
  - done.
Qed.

Lemma measure_eq {T} {V : @Vec R T} (s : BackpropSnapshot R) which first v0
    groups size0 :
  mGradientMatrices s !! 0 = Some first →
  getVectorToAssemble (group_of s first) which = Some v0 →
  measure s which groups size0 = Some (size0 + length groups * size v0).
Proof.
  intros Hfirst Hv0. revert size0.
  induction groups as [|p groups IH]; intros size0;
    cbn -[size getVectorToAssemble].
  - f_equal. lia.
  - rewrite Hfirst. cbn -[size getVectorToAssemble]. rewrite Hv0.
    cbn -[size getVectorToAssemble]. rewrite IH. f_equal. lia.
Qed.

Lemma gather_shape {T} {V : @Vec R T} (s : BackpropSnapshot R) which groups cursor
    (collected v : Matrix T) :
  gather s which groups cursor collected = Some v →
  rows v = rows collected ∧ cols v = cols collected.
Proof.
  revert cursor collected.
  induction groups as [|p groups IH]; intros cursor collected;
    cbn -[size getVectorToAssemble].
  - by intros [= <-].
  - destruct (getVectorToAssemble _ _) as [vec|];
      cbn -[size getVectorToAssemble]; [|done].
    destruct (set_segment _ _ _ _) as [c1|] eqn:E;
      cbn -[size getVectorToAssemble]; [|done].
    intros Hv. apply IH in Hv as [-> ->].
    apply set_block_Some in E. tauto.
Qed.

(** With two groups or more, the assembled vector has as many coefficients as
    there are groups times the length of the first group's vector. *)
Lemma assembleVector_rows {T} {V : @Vec R T} (s : BackpropSnapshot R) which
    p0 p1 rest (v0 v : Matrix T) :
  mGradientMatrices s = p0 :: p1 :: rest →
  getVectorToAssemble (group_of s p0) which = Some v0 →
  assembleVector s which = Some v →
  rows v = (2 + length rest) * size v0 ∧ cols v = 1.
Proof.
  intros Hg Hv0. unfold assembleVector. rewrite Hg.
  rewrite (measure_eq s which p0 v0) by (done || by rewrite Hg).
  cbn -[size gather Nat.mul]. intros Hv. apply gather_shape in Hv.
  cbn -[size Nat.mul] in Hv. done.
Qed.

(** *** Mass matrices *)

Lemma offset_0 (skels : list (Skeleton R)) : offset skels 0 = 0.
Proof. done. Qed.

Lemma offset_S skel (skels : list (Skeleton R)) i :
  offset (skel :: skels) (S i) = Skeleton_getNumDofs skel + offset skels i.
Proof. done. Qed.

Lemma total_dofs_cons skel (skels : list (Skeleton R)) :
  total_dofs (skel :: skels) = Skeleton_getNumDofs skel + total_dofs skels.
Proof. done. Qed.

(** Skeletons occupy consecutive, disjoint DOF ranges. *)
Lemma offset_mono (skels : list (Skeleton R)) i k skel :
  i < k → skels !! i = Some skel →
  offset skels i + Skeleton_getNumDofs skel ≤ offset skels k.
Proof.
  revert i k. induction skels as [|sk skels IH]; intros i k Hik Hi; [done|].
  destruct k as [|k]; [lia|]. rewrite offset_S. destruct i as [|i].
  - injection Hi as ->. rewrite offset_0. lia.
  - rewrite offset_S. cbn in Hi. specialize (IH i k ltac:(lia) Hi). lia.
Qed.

Lemma offset_le_total (skels : list (Skeleton R)) i skel :
  skels !! i = Some skel →
  offset skels i + Skeleton_getNumDofs skel ≤ total_dofs skels.
Proof.
  revert i. induction skels as [|sk skels IH]; intros i Hi; [done|].
  rewrite total_dofs_cons. destruct i as [|i].
  - injection Hi as ->. rewrite offset_0. lia.
  - rewrite offset_S. cbn in Hi. specialize (IH i Hi). lia.
Qed.

(** The loop of [getMassMatrix]: it completes when every skeleton's matrix
    is square of the skeleton's order and the blocks fit, writes each
    skeleton's matrix at its offset, and changes nothing outside the
    diagonal blocks. *)
Lemma place_diagonal_spec f (skels : list (Skeleton R)) cursor m :
  Forall (shaped f) skels →
  cursor + total_dofs skels ≤ rows m →
  cursor + total_dofs skels ≤ cols m →
  ∃ m',
    place_diagonal f skels cursor m = Some m'
    ∧ (∀ i skel a b,
         skels !! i = Some skel →
         a < Skeleton_getNumDofs skel → b < Skeleton_getNumDofs skel →
         coeff m' (cursor + offset skels i + a) (cursor + offset skels i + b)
         = coeff (f skel) a b)
    ∧ (∀ r c,
         (∀ i skel, skels !! i = Some skel →
            ¬ ((cursor + offset skels i ≤ r
                < cursor + offset skels i + Skeleton_getNumDofs skel)
               ∧ (cursor + offset skels i ≤ c
                  < cursor + offset skels i + Skeleton_getNumDofs skel))) →
         coeff m' r c = coeff m r c).
Proof.
  intros Hshaped. revert cursor m.
  induction Hshaped as [|skel skels [Hr Hc] _ IH]; intros cursor m Hrows Hcols.
  - exists m. cbn. split; [done|]. split; [|done]. by intros [|i].
  - rewrite total_dofs_cons in Hrows, Hcols. cbn.
    set (d := Skeleton_getNumDofs skel) in *.
    destruct (set_block_is_Some m cursor cursor d d (f skel))
      as [m1 Hm1]; [lia..|done|done|].
    rewrite Hm1. cbn.
    apply set_block_Some in Hm1 as (_ & _ & _ & _ & Hr1 & Hc1 & Hm1).
    destruct (IH (cursor + d) m1) as (m' & Hm' & Hin & Hout); [lia..|].
    exists m'. split; [done|]. split.
    + intros [|i] sk a b Hi Ha Hb.
      * injection Hi as <-. rewrite offset_0, !Nat.add_0_r.
        rewrite Hout, Hm1.
        -- replace (cursor + a - cursor) with a by lia.
           replace (cursor + b - cursor) with b by lia.
           destruct (Nat.leb_spec cursor (cursor + a)); [|lia].
           destruct (Nat.ltb_spec (cursor + a) (cursor + d)); [|lia].
           destruct (Nat.leb_spec cursor (cursor + b)); [|lia].
           destruct (Nat.ltb_spec (cursor + b) (cursor + d)); [|lia].
           done.
        -- intros i sk _. fold d in Ha. lia.
      * rewrite offset_S. fold d. cbn in Hi.
        replace (cursor + (d + offset skels i) + a)
          with (cursor + d + offset skels i + a) by lia.
        replace (cursor + (d + offset skels i) + b)
          with (cursor + d + offset skels i + b) by lia.
        by apply Hin.
    + intros r c Hrc. rewrite Hout, Hm1.
      * specialize (Hrc 0 skel eq_refl). rewrite offset_0 in Hrc. fold d in Hrc.
        destruct (Nat.leb_spec cursor r); [|done].
        destruct (Nat.ltb_spec r (cursor + d)); [|done].
        destruct (Nat.leb_spec cursor c); [|done].
        destruct (Nat.ltb_spec c (cursor + d)); [|done].
        lia.
      * intros i sk Hi. specialize (Hrc (S i) sk Hi).
        rewrite offset_S in Hrc. fold d in Hrc. lia.
Qed.

Lemma place_diagonal_block_diagonal f (world : World R) pos vel tau :
  let s := new_BackpropSnapshot world pos vel tau in
  Forall (shaped f) (World_getSkeletons world) →
  ∃ M,
    place_diagonal f (mSkeletons s) 0 (Zero (mNumDOFs s) (mNumDOFs s)) = Some M
    ∧ block_diagonal f (World_getSkeletons world) M.
Proof.
  intros s Hshaped.
  destruct (new_BackpropSnapshot_fields world pos vel tau)
    as (_ & _ & Hs & Hn & _).
  fold s in Hs, Hn. rewrite Hs, Hn.
  set (skels := World_getSkeletons world) in *.
  destruct (place_diagonal_spec f skels 0
              (Zero (total_dofs skels) (total_dofs skels)) Hshaped)
    as (M & HM & Hin & Hout); [done..|].
  exists M. split; [done|].
  destruct (place_diagonal_shape _ _ _ _ _ HM) as [Hr Hc]. cbn in Hr, Hc.
  split_and!; [done|done|..].
  - intros i skel a b Hi Ha Hb. by apply (Hin i skel a b).
  - intros i j si sj a b Hij Hi Hj Ha Hb. rewrite Hout; [done|].
    intros k sk Hk [Hrow Hcol]. cbn in Hrow, Hcol.
    assert (k = i) as ->.
    { destruct (Nat.lt_total k i) as [Hlt|[?|Hlt]]; [|done|].
      - pose proof (offset_mono skels k i sk Hlt Hk). lia.
      - pose proof (offset_mono skels i k si Hlt Hi). lia. }
    assert (i = j) as ->; [|done].
    destruct (Nat.lt_total i j) as [Hlt|[?|Hlt]]; [|done|].
    + pose proof (offset_mono skels i j sk Hlt Hk). lia.
    + pose proof (offset_mono skels j i sj Hlt Hj). lia.
Qed.

(** *** The offset map *)

Lemma total_dofs_app (l1 l2 : list (Skeleton R)) :
  total_dofs (l1 ++ l2) = total_dofs l1 + total_dofs l2.
Proof. unfold total_dofs. by rewrite map_app, sum_list_with_app. Qed.

Lemma offset_app_l (l1 l2 : list (Skeleton R)) i :
  i ≤ length l1 → offset (l1 ++ l2) i = offset l1 i.
Proof. intros Hi. unfold offset. by rewrite take_app_le. Qed.

Lemma offset_length (l : list (Skeleton R)) : offset l (length l) = total_dofs l.
Proof. unfold offset. by rewrite firstn_all. Qed.

(** The constructor records, for skeletons with distinct names, each
    skeleton's cumulative DOF offset under its name. *)
Lemma fold_collect_offsets (s0 : BackpropSnapshot R) skels :
  NoDup (map Skeleton_getName (mSkeletons s0 ++ skels)) →
  mNumDOFs s0 = total_dofs (mSkeletons s0) →
  (∀ k, is_Some (mSkeletonOffset s0 !! k) →
        k ∈ map Skeleton_getName (mSkeletons s0)) →
  (∀ i skel, mSkeletons s0 !! i = Some skel →
     mSkeletonOffset s0 !! Skeleton_getName skel
     = Some (offset (mSkeletons s0) i)) →
  let s := fold_left collect skels s0 in
  ∀ i skel, mSkeletons s !! i = Some skel →
    mSkeletonOffset s !! Skeleton_getName skel = Some (offset (mSkeletons s) i).
Proof.
  revert s0. induction skels as [|skel skels IH]; intros s0 Hnd Hn Hdom Hlook.
  - done.
  - cbn. apply IH; clear IH.
    + cbn. by rewrite <- app_assoc.
    + cbn -[total_dofs]. rewrite total_dofs_app, Hn. unfold total_dofs.
      cbn. lia.
    + cbn. intros k Hk. rewrite map_app. apply elem_of_app.
      unfold map_insert in Hk.
      destruct (mSkeletonOffset s0 !! Skeleton_getName skel) eqn:E.
      * left. by apply Hdom.
      * destruct (decide (k = Skeleton_getName skel)) as [->|Hne].
        -- right. cbn. constructor.
        -- rewrite lookup_insert_ne in Hk by done. left. by apply Hdom.
    + assert (mSkeletonOffset s0 !! Skeleton_getName skel = None) as Hfresh.
      { destruct (mSkeletonOffset s0 !! Skeleton_getName skel) eqn:E; [|done].
        exfalso. rewrite map_app in Hnd. apply NoDup_app in Hnd as (_ & Hnd & _).
        apply (Hnd (Skeleton_getName skel)).
        - apply Hdom. by rewrite E.
        - cbn. constructor. }
      cbn -[offset]. unfold map_insert. rewrite Hfresh.
      intros i sk Hi. apply lookup_app_Some in Hi as [Hi|[Hlen Hi]].
      * rewrite lookup_insert_ne.
        -- rewrite offset_app_l by (apply lookup_lt_Some in Hi; lia).
           by apply Hlook.
        -- intros Heq. rewrite map_app in Hnd.
           apply NoDup_app in Hnd as (_ & Hnd & _).
           apply (Hnd (Skeleton_getName sk)).
           ++ apply list_elem_of_fmap. exists sk. split; [done|].
              by apply list_elem_of_lookup_2 in Hi.
           ++ rewrite <- Heq. cbn. constructor.
      * destruct (i - length (mSkeletons s0)) as [|d] eqn:Ed; [|by destruct d].
        injection Hi as <-. rewrite lookup_insert_eq.
        assert (i = length (mSkeletons s0)) as -> by lia.
        rewrite offset_app_l, offset_length by done. by rewrite Hn.
Qed.

Lemma mSkeletonOffset_lookup (world : World R) pos vel tau i skel :
  let s := new_BackpropSnapshot world pos vel tau in
  NoDup (map Skeleton_getName (World_getSkeletons world)) →
  World_getSkeletons world !! i = Some skel →
  mSkeletonOffset s !! Skeleton_getName skel
  = Some (offset (World_getSkeletons world) i).
Proof.
  intros s Hnd Hi.
  destruct (new_BackpropSnapshot_fields world pos vel tau)
    as (_ & _ & Hs & _ & _).
  fold s in Hs. rewrite <- Hs in Hi |- *.
  unfold s, new_BackpropSnapshot in *.
  apply fold_collect_offsets; try done.
  - cbn. intros k [? Hk]. by rewrite lookup_empty in Hk.
Qed.

(** *** The assembled matrices exist on a well-formed world *)



Lemma count_cols_cons (s : BackpropSnapshot R) f p groups :
  count_cols s f (p :: groups)
  = cols (f (group_of s p)) + count_cols s f groups.
Proof.
  unfold count_cols. cbn.
  assert (∀ a, fold_left (λ n q, n + cols (f (group_of s q))) groups a
               = a + fold_left (λ n q, n + cols (f (group_of s q))) groups 0)
    as Hshift.
  { induction groups as [|q groups IH]; intros a; cbn; [lia|].
    rewrite (IH (a + _)), (IH (cols _)). lia. }
  apply Hshift.
Qed.

(** Every stored group is the group of some skeleton of the world. *)
Lemma fold_collect_groups (s0 : BackpropSnapshot R) skels p :
  p ∈ mGradientMatrices (fold_left collect skels s0) →
  p ∈ mGradientMatrices s0
  ∨ ∃ skel, skel ∈ skels
            ∧ Skeleton_getGradientConstraintMatrices skel = Some p.
Proof.
  revert s0. induction skels as [|skel skels IH]; intros s0; cbn; [by left|].
  intros [Hp|(sk & Hsk & Hg)]%IH.
  - cbn in Hp.
    destruct (Skeleton_getGradientConstraintMatrices skel) as [q|] eqn:E;
      [|by left].
    destruct (bool_decide (q ∈ mGradientMatrices s0)); [by left|].
    apply elem_of_app in Hp as [Hp|Hp]; [by left|].
    apply list_elem_of_singleton in Hp as ->.
    right. exists skel. split; [constructor|done].
  - right. exists sk. split; [by constructor|done].
Qed.

Lemma shuffle_total (s : BackpropSnapshot R) gm cc skels dc m :
  (∀ sk, sk ∈ skels →
     ∃ off, mSkeletonOffset s !! Skeleton_getName sk = Some off
            ∧ off + Skeleton_getNumDofs sk ≤ rows m) →
  dc + total_dofs skels ≤ rows gm →
  cc + cols gm ≤ cols m →
  is_Some (shuffle s gm cc skels dc m).
Proof.
  revert dc m. induction skels as [|sk skels IH]; intros dc m Hoff Hsrc Hdst.
  - cbn. eauto.
  - rewrite total_dofs_cons in Hsrc. cbn.
    destruct (Hoff sk) as (off & -> & Hfit); [constructor|]. cbn.
    destruct (block_is_Some gm dc 0 (Skeleton_getNumDofs sk) (cols gm))
      as [src Hsrc']; [lia..|].
    rewrite Hsrc'. cbn.
    apply block_Some in Hsrc' as (_ & _ & Hr & Hc & _).
    destruct (set_block_is_Some m off cc (Skeleton_getNumDofs sk) (cols gm) src)
      as [m1 Hm1]; [lia..|done|done|].
    rewrite Hm1. cbn.
    apply set_block_Some in Hm1 as (_ & _ & _ & _ & Hr1 & Hc1 & _).
    apply IH; [|lia..].
    intros sk' Hsk'. rewrite Hr1. apply Hoff. by constructor.
Qed.

Lemma assemble_total (s : BackpropSnapshot R) which groups cc m :
  (∀ p sk, p ∈ groups → sk ∈ Group_getSkeletons (group_of s p) →
     ∃ off, mSkeletonOffset s !! Skeleton_getName sk = Some off
            ∧ off + Skeleton_getNumDofs sk ≤ rows m) →
  (∀ p, p ∈ groups →
     total_dofs (Group_getSkeletons (group_of s p))
     ≤ rows (groupMatrixOf which (group_of s p))) →
  cc + count_cols s (groupMatrixOf which) groups ≤ cols m →
  is_Some (assemble s which groups cc m).
Proof.
  revert cc m. induction groups as [|p groups IH]; intros cc m Hoff Hrows Hfit.
  - cbn. eauto.
  - rewrite count_cols_cons in Hfit. cbn.
    destruct (shuffle_total s (groupMatrixOf which (group_of s p)) cc
                (Group_getSkeletons (group_of s p)) 0 m) as [m1 Hm1].
    + intros sk Hsk. apply (Hoff p); [constructor|done].
    + cbn. apply Hrows. constructor.
    + lia.
    + rewrite Hm1. cbn. apply shuffle_shape in Hm1 as [Hr1 Hc1].
      apply IH.
      * intros q sk Hq Hsk. rewrite Hr1. apply (Hoff q); [by constructor|done].
      * intros q Hq. apply Hrows. by constructor.
      * lia.
Qed.

Lemma place_mappings_total (s : BackpropSnapshot R) groups cu cc m :
  cu + count_cols s Group_getUpperBoundConstraintMatrix groups ≤ rows m →
  cc + count_cols s Group_getClampingConstraintMatrix groups ≤ cols m →
  (∀ p, p ∈ groups →
     rows (Group_getUpperBoundMappingMatrix (group_of s p))
     = cols (Group_getUpperBoundConstraintMatrix (group_of s p))
     ∧ cols (Group_getUpperBoundMappingMatrix (group_of s p))
       = cols (Group_getClampingConstraintMatrix (group_of s p))) →
  is_Some (place_mappings s groups cu cc m).
Proof.
  revert cu cc m. induction groups as [|p groups IH]; intros cu cc m Hu Hc Hg.
  - cbn. eauto.
  - rewrite count_cols_cons in Hu, Hc. cbn.
    destruct (Hg p) as [Hgr Hgc]; [constructor|].
    destruct (set_block_is_Some m cu cc
                (rows (Group_getUpperBoundMappingMatrix (group_of s p)))
                (cols (Group_getUpperBoundMappingMatrix (group_of s p)))
                (Group_getUpperBoundMappingMatrix (group_of s p)))
      as [m1 Hm1]; [lia..|done|done|].
    rewrite Hm1. cbn.
    apply set_block_Some in Hm1 as (_ & _ & _ & _ & Hr1 & Hc1 & _).
    apply IH; [lia..|]. intros q Hq. apply Hg. by constructor.
Qed.

(** On a well-formed world every assembled matrix exists. *)
Lemma assembled_matrices_exist (world : World R) pos vel tau :
  let s := new_BackpropSnapshot world pos vel tau in
  well_formed world →
  (∀ which, is_Some (assembleMatrix s which))
  ∧ is_Some (getUpperBoundMappingMatrix s).
Proof.
  intros s [Hnd Hwf].
  destruct (new_BackpropSnapshot_fields world pos vel tau)
    as (Hw & _ & Hs & Hn & Hc & Hu & Hb).
  fold s in Hw, Hs, Hn, Hc, Hu, Hb.
  assert (∀ p, p ∈ mGradientMatrices s →
            ∃ skel, skel ∈ World_getSkeletons world
                    ∧ Skeleton_getGradientConstraintMatrices skel = Some p)
    as Hgroups.
  { intros p Hp. apply fold_collect_groups in Hp as [Hp|Hp]; [|done].
    by apply elem_of_nil in Hp. }
  assert (∀ p, group_of s p = World_deref world p) as Hderef
    by (intros p; unfold group_of; by rewrite Hw).
  split.
  - intros which. unfold assembleMatrix. apply assemble_total.
    + intros p sk Hp Hsk. cbn. rewrite Hderef in Hsk.
      destruct (Hgroups p Hp) as (skel & Hskel & Hg).
      destruct (Hwf skel p Hskel Hg) as (Hin & _).
      apply Hin, list_elem_of_lookup_1 in Hsk as [i Hi].
      exists (offset (World_getSkeletons world) i). split.
      * by apply mSkeletonOffset_lookup.
      * rewrite Hn. by apply offset_le_total.
    + intros p Hp. rewrite Hderef.
      destruct (Hgroups p Hp) as (skel & Hskel & Hg).
      destruct (Hwf skel p Hskel Hg) as (_ & Hrows & _). apply Hrows.
    + cbn. apply Nat.eq_le_incl.
      assert (∀ f f' : Group R → Matrix R,
                (∀ p, p ∈ mGradientMatrices s →
                      cols (f (group_of s p)) = cols (f' (group_of s p))) →
                count_cols s f (mGradientMatrices s)
                = count_cols s f' (mGradientMatrices s)) as Hsame.
      { intros f f'. generalize (mGradientMatrices s).
        induction l as [|p l IH]; intros Hff'; [done|].
        rewrite !count_cols_cons, Hff', IH; [done| |constructor].
        intros q Hq. apply Hff'. by constructor. }
      destruct which; cbn; rewrite <- ?Hc, <- ?Hu, <- ?Hb; try done.
      * apply Hsame. intros p Hp. rewrite Hderef.
        destruct (Hgroups p Hp) as (skel & Hskel & Hg).
        destruct (Hwf skel p Hskel Hg) as (_ & _ & Hm & _). done.
      * apply Hsame. intros p Hp. rewrite Hderef.
        destruct (Hgroups p Hp) as (skel & Hskel & Hg).
        destruct (Hwf skel p Hskel Hg) as (_ & _ & _ & Hm & _). done.
  - unfold getUpperBoundMappingMatrix. apply place_mappings_total; [done..|].
    intros p Hp. rewrite Hderef.
    destruct (Hgroups p Hp) as (skel & Hskel & Hg).
    destruct (Hwf skel p Hskel Hg) as (_ & _ & _ & _ & Hr & Hcl). done.
Qed.

(** C9. When every skeleton's mass matrix and inverse mass matrix is square of
    the skeleton's DOF count, [getMassMatrix] and [getInvMassMatrix] return
    square matrices of the world's DOF count in which the diagonal block at
    each skeleton's world offset is that skeleton's own matrix and every
    coefficient coupling two different skeletons is zero. The world offset of
    a skeleton is the DOF count of the skeletons before it; it is the offset
    the constructor records under the skeleton's name when names are
    distinct. *)
Theorem mass_matrices_block_diagonal (world : World R)
    (pos vel tau : Matrix R) :
  let s := new_BackpropSnapshot world pos vel tau in
  let skels := World_getSkeletons world in
  Forall (shaped Skeleton_getMassMatrix) skels →
  Forall (shaped Skeleton_getInvMassMatrix) skels →
  (∃ M Minv,
     getMassMatrix s = Some M
     ∧ getInvMassMatrix s = Some Minv
     ∧ block_diagonal Skeleton_getMassMatrix skels M
     ∧ block_diagonal Skeleton_getInvMassMatrix skels Minv)
  ∧ (NoDup (map Skeleton_getName skels) →
     ∀ i skel, skels !! i = Some skel →
       mSkeletonOffset s !! Skeleton_getName skel = Some (offset skels i)).
Proof.
  intros s skels HM HMinv. split.
  - destruct (place_diagonal_block_diagonal _ world pos vel tau HM)
      as (M & ? & ?).
    destruct (place_diagonal_block_diagonal _ world pos vel tau HMinv)
      as (Minv & ? & ?).
    by exists M, Minv.
  - intros Hnd i skel Hi. by apply mSkeletonOffset_lookup.
Qed.

(** *** The projection into the clamping contacts *)

Lemma getProjectionIntoClampsMatrix_eq
    {DS : DecompositionShapes R} (world : World R)
    (pos vel tau A_c V_c V_ub E bounceDiagonals : Matrix R) :
  let s := new_BackpropSnapshot world pos vel tau in
  let h := World_getTimeStep world in
  getClampingConstraintMatrix s = Some A_c →
  getMassedClampingConstraintMatrix s = Some V_c →
  getMassedUpperBoundConstraintMatrix s = Some V_ub →
  getUpperBoundMappingMatrix s = Some E →
  getBounceDiagonals s = Some bounceDiagonals →
  getProjectionIntoClampsMatrix s
  = if rows bounceDiagonals =? cols A_c
    then
      let F := times (transpose A_c) (plus V_c (times V_ub E)) in
      Some (times
              (times (scale (s_div s_one h) (pseudoInverse F))
                 (asDiagonal bounceDiagonals))
              (transpose A_c))
    else None.
Proof.
  intros s h HA HVc HVub HE Hbd.
  destruct (new_BackpropSnapshot_fields world pos vel tau)
    as (_ & Ht & _ & _ & Hcons).
  fold s in Ht, Hcons.
  destruct (assembleMatrix_shape _ _ _ HA) as [HAr HAc].
  destruct (assembleMatrix_shape _ _ _ HVc) as [HVcr HVcc].
  destruct (assembleMatrix_shape _ _ _ HVub) as [HVubr HVubc].
  destruct (getUpperBoundMappingMatrix_shape _ _ Hcons HE) as [HEr HEc].
  cbn in HAc, HVcc, HVubc.
  unfold getProjectionIntoClampsMatrix.
  rewrite HA, HVc, HVub, HE, Hbd, Ht. cbn.
  rewrite mul_conform by congruence. cbn.
  rewrite add_conform by (cbn; congruence). cbn.
  rewrite mul_conform by (cbn; congruence). cbn.
  destruct (Nat.eqb_spec (rows bounceDiagonals) (cols A_c)) as [Hb|Hb].
  - rewrite mul_conform by (cbn; rewrite pseudoInverse_cols; cbn; congruence).
    cbn. by rewrite mul_conform by (cbn; congruence).
  - by rewrite mul_None by (cbn; rewrite pseudoInverse_cols; cbn; congruence).
Qed.

Lemma getProjectionIntoClampsMatrix_shape {DS : DecompositionShapes R}
    (s : BackpropSnapshot R) P_c :
  getProjectionIntoClampsMatrix s = Some P_c →
  rows P_c = mNumClamping s ∧ cols P_c = mNumDOFs s.
Proof.
  unfold getProjectionIntoClampsMatrix.
  intros (A_c & HA & H)%bind_Some.
  apply bind_Some in H as (V_c & HVc & H).
  apply bind_Some in H as (V_ub & HVub & H).
  apply bind_Some in H as (E & HE & H).
  apply bind_Some in H as (VE & HVE & H).
  apply bind_Some in H as (cf & Hcf & H).
  apply bind_Some in H as (F & HF & H).
  apply bind_Some in H as (bd & Hbd & H).
  apply bind_Some in H as (sc & Hsc & H).
  apply mul_Some in HVE as [_ ->], HF as [_ ->], Hsc as [_ ->], H as [_ ->].
  apply add_Some in Hcf as (_ & _ & ->).
  apply assembleMatrix_shape in HA as [HAr _], HVc as [_ HVc].
  cbn. rewrite pseudoInverse_rows. cbn. done.
Qed.

(** *** The force-velocity Jacobian *)

Lemma getForceVelJacobian_eq
    {DS : DecompositionShapes R} (world : World R)
    (pos vel tau A_c A_ub E P_c Minv : Matrix R) :
  let s := new_BackpropSnapshot world pos vel tau in
  let h := World_getTimeStep world in
  let I := Identity (mNumDOFs s) (mNumDOFs s) in
  getClampingConstraintMatrix s = Some A_c →
  getUpperBoundConstraintMatrix s = Some A_ub →
  getUpperBoundMappingMatrix s = Some E →
  getProjectionIntoClampsMatrix s = Some P_c →
  getInvMassMatrix s = Some Minv →
  getForceVelJacobian s
  = Some
      (if (0 <? size A_ub) && (0 <? size E)
       then
         times (scale h Minv)
           (minus I
              (times (times (scale h (plus A_c (times A_ub E))) P_c) Minv))
       else
         times (scale h Minv)
           (minus I (times (times (scale h A_c) P_c) Minv))).
Proof.
  intros s h I HA HAub HE HP HM.
  destruct (new_BackpropSnapshot_fields world pos vel tau)
    as (_ & Ht & _ & _ & Hcons).
  fold s in Ht, Hcons.
  destruct (assembleMatrix_shape _ _ _ HA) as [HAr HAc].
  destruct (assembleMatrix_shape _ _ _ HAub) as [HAubr HAubc].
  destruct (getUpperBoundMappingMatrix_shape _ _ Hcons HE) as [HEr HEc].
  destruct (getProjectionIntoClampsMatrix_shape _ _ HP) as [HPr HPc].
  destruct (getInvMassMatrix_shape _ _ HM) as [HMr HMc].
  cbn in HAc, HAubc.
  unfold getForceVelJacobian. rewrite HA, HAub, HE, HP, HM, Ht.
  cbn -[size Nat.ltb].
  destruct ((0 <? size A_ub) && (0 <? size E)).
  - rewrite mul_conform by congruence. cbn.
    rewrite add_conform by (cbn; congruence). cbn.
    rewrite mul_conform by (cbn; congruence). cbn.
    rewrite mul_conform by (cbn; congruence). cbn.
    rewrite sub_conform by (cbn; congruence). cbn.
    by rewrite mul_conform by (cbn; congruence).
  - rewrite mul_conform by (cbn; congruence). cbn.
    rewrite mul_conform by (cbn; congruence). cbn.
    rewrite sub_conform by (cbn; congruence). cbn.
    by rewrite mul_conform by (cbn; congruence).
Qed.




(** *** A world without contacts *)

Lemma free_world (world : World R) pos vel tau :
  let s := new_BackpropSnapshot world pos vel tau in
  Forall (λ skel, Skeleton_getGradientConstraintMatrices skel = None)
    (World_getSkeletons world) →
  mGradientMatrices s = []
  ∧ (∀ which, assembleMatrix s which = Some (Zero (mNumDOFs s) 0))
  ∧ getUpperBoundMappingMatrix s = Some (Zero 0 0)
  ∧ getBounceDiagonals s = Some (Uninit 0 1).
Proof.
  intros s Hfree. unfold s, new_BackpropSnapshot.
  match goal with |- context [fold_left collect ?l ?s0] =>
    destruct (fold_collect_free s0 l Hfree) as (Hg & Hc & Hu & Hb) end.
  cbn in Hg, Hc, Hu, Hb.
  split; [done|]. split; [|split].
  - intros which. unfold assembleMatrix. rewrite Hg. cbn.
    by destruct which; cbn; rewrite ?Hc, ?Hu, ?Hb.
  - unfold getUpperBoundMappingMatrix. by rewrite Hg.
  - unfold getBounceDiagonals, assembleVector. by rewrite Hg.
Qed.

(** C6. In a world none of whose skeletons is in a constraint group (and
    whose skeletons carry square inverse mass matrices of their own order),
    [getForceVelJacobian] is [h·M⁻¹] and [getPosPosJacobian] is the identity
    of order [mNumDOFs]. *)
Theorem no_contact_jacobians
    {DS : DecompositionShapes R} {Laws : ScalarLaws R} (world : World R)
    (pos vel tau : Matrix R) :
  let s := new_BackpropSnapshot world pos vel tau in
  let h := World_getTimeStep world in
  Forall (λ skel, Skeleton_getGradientConstraintMatrices skel = None)
    (World_getSkeletons world) →
  Forall (shaped Skeleton_getInvMassMatrix) (World_getSkeletons world) →
  mNumClamping s = 0 ∧ mNumUpperBound s = 0 ∧ mNumBouncing s = 0
  ∧ ∃ Minv J,
      getInvMassMatrix s = Some Minv
      ∧ getForceVelJacobian s = Some J
      ∧ meq J (scale h Minv)
      ∧ getPosPosJacobian s = Some (Identity (mNumDOFs s) (mNumDOFs s)).
Proof.
  intros s h Hfree Hshaped.
  destruct (free_world world pos vel tau Hfree) as (Hg & Hmat & HE & Hbd).
  fold s in Hg, Hmat, HE, Hbd.
  destruct (place_diagonal_block_diagonal _ world pos vel tau Hshaped)
    as (Minv & HMinv & _).
  fold s in HMinv. change (getInvMassMatrix s = Some Minv) in HMinv.
  destruct (getInvMassMatrix_shape _ _ HMinv) as [HMr HMc].
  pose proof (getProjectionIntoClampsMatrix_eq world pos vel tau
                _ _ _ _ _ (Hmat CLAMPING) (Hmat MASSED_CLAMPING)
                (Hmat MASSED_UPPER_BOUND) HE Hbd) as HP.
  fold s in HP. cbn in HP.
  pose proof (getForceVelJacobian_eq world pos vel tau
                _ _ _ _ _ (Hmat CLAMPING) (Hmat UPPER_BOUND) HE HP HMinv)
    as HJ.
  fold s in HJ. fold h in HJ.
  assert (size (Zero (mNumDOFs s) 0 : Matrix R) = 0) as Hsize
    by (unfold size; cbn; lia).
  rewrite Hsize in HJ. cbn [Nat.ltb Nat.leb andb] in HJ.
  split_and!.
  - pose proof (assembleMatrix_shape _ _ _ (Hmat CLAMPING)) as [_ Hc]. done.
  - pose proof (assembleMatrix_shape _ _ _ (Hmat UPPER_BOUND)) as [_ Hc]. done.
  - pose proof (assembleMatrix_shape _ _ _ (Hmat BOUNCING)) as [_ Hc]. done.
  - eexists Minv, _. split; [done|]. split; [exact HJ|]. split.
    + apply (times_Identity_minus_zero (scale h Minv)); [done|].
      intros i j. apply times_zero_l. intros i' k.
      by apply times_no_columns.
    + unfold getPosPosJacobian, getBouncingConstraintMatrix.
      rewrite (Hmat BOUNCING). cbn -[size Nat.eqb]. by rewrite Hsize.
Qed.

(** *** The position-position Jacobian *)

Lemma getPosPosJacobian_shortcut (s : BackpropSnapshot R) (A_b : Matrix R) :
  getBouncingConstraintMatrix s = Some A_b →
  cols A_b = 0 →
  getPosPosJacobian s = Some (Identity (mNumDOFs s) (mNumDOFs s)).
Proof.
  intros HA Hcols. unfold getPosPosJacobian. rewrite HA.
  assert (size A_b = 0) as Hsize by (unfold size; rewrite Hcols; lia).
  cbn -[size Nat.eqb]. by rewrite Hsize.
Qed.

(** On a well-formed world without bouncing contact the shortcut is taken. *)
Lemma getPosPosJacobian_without_bouncing (world : World R) pos vel tau :
  let s := new_BackpropSnapshot world pos vel tau in
  well_formed world →
  mNumBouncing s = 0 →
  getPosPosJacobian s = Some (Identity (mNumDOFs s) (mNumDOFs s)).
Proof.
  intros s Hwf Hb.
  destruct (assembled_matrices_exist world pos vel tau Hwf) as [Hex _].
  destruct (Hex BOUNCING) as [A_b HA]. fold s in HA.
  apply (getPosPosJacobian_shortcut s A_b HA).
  apply assembleMatrix_shape in HA as [_ HA]. cbn in HA. congruence.
Qed.

(** C5. When the assembled bouncing matrix has no column (the snapshot's
    bouncing count is then zero), [getPosPosJacobian] is the identity of
    order [mNumDOFs]; neither the decomposition nor the restitution
    coefficients are consulted. *)
Theorem getPosPosJacobian_no_bounce (s : BackpropSnapshot R)
    (A_b : Matrix R) :
  getBouncingConstraintMatrix s = Some A_b →
  cols A_b = 0 →
  mNumBouncing s = 0
  ∧ getPosPosJacobian s = Some (Identity (mNumDOFs s) (mNumDOFs s)).
Proof.
  intros HA Hcols. split.
  - apply assembleMatrix_shape in HA as [_ HA]. cbn in HA. congruence.
  - by apply (getPosPosJacobian_shortcut s A_b).
Qed.

(** *** Groups shared by several skeletons *)

(** The column totals of a snapshot are the sums over its groups. *)
Lemma collect_groups (s : BackpropSnapshot R) skel :
  let total (f : Group R → nat) (s : BackpropSnapshot R) :=
    sum_list (map (λ p, f (World_deref (mWorld s) p)) (mGradientMatrices s)) in
  NoDup (mGradientMatrices s) →
  mNumConstraintDim s = total Group_getNumConstraintDim s →
  mNumClamping s = total (λ g, cols (Group_getClampingConstraintMatrix g)) s →
  mNumUpperBound s
  = total (λ g, cols (Group_getUpperBoundConstraintMatrix g)) s →
  mNumBouncing s = total (λ g, cols (Group_getBouncingConstraintMatrix g)) s →
  let s' := collect s skel in
  NoDup (mGradientMatrices s')
  ∧ mNumConstraintDim s' = total Group_getNumConstraintDim s'
  ∧ mNumClamping s'
    = total (λ g, cols (Group_getClampingConstraintMatrix g)) s'
  ∧ mNumUpperBound s'
    = total (λ g, cols (Group_getUpperBoundConstraintMatrix g)) s'
  ∧ mNumBouncing s'
    = total (λ g, cols (Group_getBouncingConstraintMatrix g)) s'
  ∧ (∀ p, p ∈ mGradientMatrices s'
          ↔ p ∈ mGradientMatrices s
            ∨ Skeleton_getGradientConstraintMatrices skel = Some p).
Proof.
  intros total Hnd Hd Hc Hu Hb. unfold total in *. cbn.
  destruct (Skeleton_getGradientConstraintMatrices skel) as [q|] eqn:Eq.
  - destruct (bool_decide (q ∈ mGradientMatrices s)) eqn:Ein.
    + apply bool_decide_eq_true in Ein. split_and!; try done.
      intros p. split; [by left|]. intros [Hp|[= <-]]; done.
    + apply bool_decide_eq_false in Ein.
      rewrite !map_app, !sum_list_with_app. cbn.
      split_and!; try lia.
      * apply NoDup_app. split_and!; [done| |apply NoDup_singleton].
        intros x Hx ->%list_elem_of_singleton. done.
      * intros p. rewrite elem_of_app, list_elem_of_singleton.
        split; intros [Hp|Hp]; eauto; by simplify_eq; right.
  - split_and!; try done.
    intros p. split; [by left|]. by intros [Hp|[=]].
Qed.

Lemma fold_collect_dedup (s0 : BackpropSnapshot R) skels :
  let total (f : Group R → nat) (s : BackpropSnapshot R) :=
    sum_list (map (λ p, f (World_deref (mWorld s) p)) (mGradientMatrices s)) in
  NoDup (mGradientMatrices s0) →
  mNumConstraintDim s0 = total Group_getNumConstraintDim s0 →
  mNumClamping s0
  = total (λ g, cols (Group_getClampingConstraintMatrix g)) s0 →
  mNumUpperBound s0
  = total (λ g, cols (Group_getUpperBoundConstraintMatrix g)) s0 →
  mNumBouncing s0
  = total (λ g, cols (Group_getBouncingConstraintMatrix g)) s0 →
  let s := fold_left collect skels s0 in
  NoDup (mGradientMatrices s)
  ∧ mNumConstraintDim s = total Group_getNumConstraintDim s
  ∧ mNumClamping s = total (λ g, cols (Group_getClampingConstraintMatrix g)) s
  ∧ mNumUpperBound s
    = total (λ g, cols (Group_getUpperBoundConstraintMatrix g)) s
  ∧ mNumBouncing s = total (λ g, cols (Group_getBouncingConstraintMatrix g)) s
  ∧ (∀ p, p ∈ mGradientMatrices s
          ↔ p ∈ mGradientMatrices s0
            ∨ ∃ skel, skel ∈ skels
                ∧ Skeleton_getGradientConstraintMatrices skel = Some p).
Proof.
  intros total. revert s0.
  induction skels as [|skel skels IH]; intros s0 Hnd Hd Hc Hu Hb; cbn.
  - split_and!; try done. intros p. split; [by left|].
    intros [Hp|(sk & Hsk & _)]; [done|]. by apply elem_of_nil in Hsk.
  - destruct (collect_groups s0 skel Hnd Hd Hc Hu Hb)
      as (Hnd' & Hd' & Hc' & Hu' & Hb' & Hin).
    destruct (IH (collect s0 skel) Hnd' Hd' Hc' Hu' Hb')
      as (? & ? & ? & ? & ? & Hin').
    split_and!; try done.
    intros p. rewrite Hin', Hin. split.
    + intros [[Hp|Hp]|(sk & Hsk & Hp)]; [by left| |].
      * right. exists skel. split; [constructor|done].
      * right. exists sk. split; [by constructor|done].
    + intros [Hp|(sk & Hsk & Hp)]; [by left; left|].
      apply elem_of_cons in Hsk as [->|Hsk]; [by left; right|].
      right. eauto.
Qed.

Lemma constructor_groups (world : World R) (pos vel tau : Matrix R) :
  let s := new_BackpropSnapshot world pos vel tau in
  let total (f : Group R → nat) :=
    sum_list (map (λ p, f (World_deref world p)) (mGradientMatrices s)) in
  NoDup (mGradientMatrices s)
  ∧ (∀ p, p ∈ mGradientMatrices s
          ↔ ∃ skel, skel ∈ World_getSkeletons world
              ∧ Skeleton_getGradientConstraintMatrices skel = Some p)
  ∧ mNumConstraintDim s = total Group_getNumConstraintDim
  ∧ mNumClamping s = total (λ g, cols (Group_getClampingConstraintMatrix g))
  ∧ mNumUpperBound s
    = total (λ g, cols (Group_getUpperBoundConstraintMatrix g))
  ∧ mNumBouncing s = total (λ g, cols (Group_getBouncingConstraintMatrix g)).
Proof.
  intros s total. unfold total, s, new_BackpropSnapshot.
  match goal with |- context [fold_left collect ?l ?s0] =>
    destruct (fold_collect_dedup s0 l) as (Hnd & Hd & Hc & Hu & Hb & Hin);
      [by apply NoDup_nil|done..|];
    destruct (fold_collect s0 l) as (Hw & _)
  end.
  rewrite Hw in Hd, Hc, Hu, Hb. cbn in Hd, Hc, Hu, Hb.
  split_and!; try done.
  intros p. rewrite Hin. cbn. split; [|by right].
  intros [Hp|Hp]; [|done]. by apply elem_of_nil in Hp.
Qed.

(** X9. The constructor keeps each constraint group once, however many
    skeletons refer to it: the stored groups are pairwise distinct, a group
    is stored exactly when some skeleton of the world refers to it, and the
    constraint dimension and the clamping, upper-bound and bouncing column
    totals are the sums over the stored groups. *)
Theorem constructor_counts_each_group_once (world : World R)
    (pos vel tau : Matrix R) :
  let s := new_BackpropSnapshot world pos vel tau in
  let total (f : Group R → nat) :=
    sum_list (map (λ p, f (World_deref world p)) (mGradientMatrices s)) in
  NoDup (mGradientMatrices s)
  ∧ (∀ p, p ∈ mGradientMatrices s
          ↔ ∃ skel, skel ∈ World_getSkeletons world
              ∧ Skeleton_getGradientConstraintMatrices skel = Some p)
  ∧ mNumConstraintDim s = total Group_getNumConstraintDim
  ∧ mNumClamping s = total (λ g, cols (Group_getClampingConstraintMatrix g))
  ∧ mNumUpperBound s
    = total (λ g, cols (Group_getUpperBoundConstraintMatrix g))
  ∧ mNumBouncing s = total (λ g, cols (Group_getBouncingConstraintMatrix g)).
Proof. exact (constructor_groups world pos vel tau). Qed.

(** *** Skeletons that share a name *)

Lemma map_insert_lookup (m : gmap string nat) k v name :
  map_insert k v m !! name
  = match m !! name with
    | Some old => Some old
    | None => if decide (k = name) then Some v else None
    end.
Proof.
  unfold map_insert. destruct (m !! k) as [old|] eqn:Ek.
  - destruct (m !! name) eqn:En; [done|]. destruct (decide (k = name)); [|done].
    congruence.
  - destruct (decide (k = name)) as [->|Hne].
    + by rewrite lookup_insert_eq, Ek.
    + rewrite lookup_insert_ne by done. by destruct (m !! name).
Qed.

Lemma fold_collect_first_named (s0 : BackpropSnapshot R) skels name :
  mSkeletonOffset (fold_left collect skels s0) !! name
  = match mSkeletonOffset s0 !! name with
    | Some old => Some old
    | None =>
        (λ found, mNumDOFs s0 + offset skels found.1)
        <$> list_find (λ sk, Skeleton_getName sk = name) skels
    end.
Proof.
  revert s0. induction skels as [|sk skels IH]; intros s0.
  - cbn. by destruct (mSkeletonOffset s0 !! name).
  - cbn [fold_left]. rewrite IH. cbn [collect mSkeletonOffset mNumDOFs].
    rewrite map_insert_lookup.
    destruct (mSkeletonOffset s0 !! name) as [old|]; [done|].
    cbn [list_find]. destruct (decide (Skeleton_getName sk = name)) as [E|E].
    + cbn -[offset]. by rewrite offset_0, Nat.add_0_r.
    + destruct (list_find _ skels) as [[i found]|]; [|done].
      cbn -[offset]. rewrite offset_S. f_equal. lia.
Qed.

(** X10. The offset recorded under a name is the world offset of the first
    skeleton of the world with that name: a later skeleton of the same name
    does not replace the entry, and a name that no skeleton has is absent
    from the map. *)
Theorem offset_of_first_skeleton_with_name (world : World R)
    (pos vel tau : Matrix R) (name : string) :
  let s := new_BackpropSnapshot world pos vel tau in
  let skels := World_getSkeletons world in
  mSkeletonOffset s !! name
  = (λ found, offset skels found.1)
    <$> list_find (λ sk, Skeleton_getName sk = name) skels.
Proof.
  intros s skels. unfold s, new_BackpropSnapshot.
  rewrite fold_collect_first_named. cbn. rewrite lookup_empty.
  by destruct (list_find _ _).
Qed.

Lemma mSkeletonOffset_unknown (world : World R) pos vel tau name :
  name ∉ map Skeleton_getName (World_getSkeletons world) →
  mSkeletonOffset (new_BackpropSnapshot world pos vel tau) !! name = None.
Proof.
  intros Hname. unfold new_BackpropSnapshot.
  rewrite fold_collect_first_named. cbn. rewrite lookup_empty.
  destruct (list_find _ _) as [[i sk]|] eqn:E; [|done].
  apply list_find_Some in E as (Hi & Hsk & _). destruct Hname.
  rewrite <- Hsk. apply list_elem_of_fmap. exists sk. split; [done|].
  by eapply list_elem_of_lookup_2.
Qed.

(** *** A group that lists a skeleton the world does not have *)

Lemma shuffle_unknown (s : BackpropSnapshot R) gm cc skels dc m sk :
  sk ∈ skels →
  mSkeletonOffset s !! Skeleton_getName sk = None →
  shuffle s gm cc skels dc m = None.
Proof.
  intros Hsk Hname. revert dc m.
  induction skels as [|sk' skels IH]; intros dc m; [by apply elem_of_nil in Hsk|].
  cbn. apply elem_of_cons in Hsk as [->|Hsk]; [by rewrite Hname|].
  destruct (mSkeletonOffset s !! Skeleton_getName sk'); cbn; [|done].
  destruct (block _ _ _ _ _); cbn; [|done].
  destruct (set_block _ _ _ _ _ _); cbn; [|done]. by apply IH.
Qed.

Lemma assemble_unknown (s : BackpropSnapshot R) which groups cc m p sk :
  p ∈ groups →
  sk ∈ Group_getSkeletons (group_of s p) →
  mSkeletonOffset s !! Skeleton_getName sk = None →
  assemble s which groups cc m = None.
Proof.
  intros Hp Hsk Hname. revert cc m.
  induction groups as [|q groups IH]; intros cc m; [by apply elem_of_nil in Hp|].
  cbn. apply elem_of_cons in Hp as [->|Hp].
  - by rewrite (shuffle_unknown _ _ _ _ _ _ sk).
  - destruct (shuffle _ _ _ _ _ _); cbn; [|done]. by apply IH.
Qed.

(** X11. When a constraint group of the world lists a skeleton whose name
    no skeleton of the world has, [assembleMatrix] fails for every kind of
    matrix: the lookup of the skeleton's offset finds nothing. *)
Theorem assembleMatrix_unknown_skeleton (world : World R)
    (pos vel tau : Matrix R) (skel sk : Skeleton R) (p : GroupPtr)
    (whichMatrix : MatrixToAssemble) :
  let s := new_BackpropSnapshot world pos vel tau in
  skel ∈ World_getSkeletons world →
  Skeleton_getGradientConstraintMatrices skel = Some p →
  sk ∈ Group_getSkeletons (World_deref world p) →
  Skeleton_getName sk ∉ map Skeleton_getName (World_getSkeletons world) →
  assembleMatrix s whichMatrix = None.
Proof.
  intros s Hskel Hp Hsk Hname.
  destruct (constructor_groups world pos vel tau) as (_ & Hin & _).
  destruct (new_BackpropSnapshot_fields world pos vel tau) as (Hw & _).
  fold s in Hin, Hw.
  apply (assemble_unknown s whichMatrix _ 0 _ p sk).
  - apply Hin. eauto.
  - unfold group_of. by rewrite Hw.
  - by apply mSkeletonOffset_unknown.
Qed.

(** *** The velocity-velocity Jacobian *)

Lemma getVelVelJacobian_eq
    {DS : DecompositionShapes R} (world : World R)
    (pos vel tau A_c A_ub E P_c Minv : Matrix R) :
  let s := new_BackpropSnapshot world pos vel tau in
  let h := World_getTimeStep world in
  let I := Identity (mNumDOFs s) (mNumDOFs s) in
  getClampingConstraintMatrix s = Some A_c →
  getUpperBoundConstraintMatrix s = Some A_ub →
  getUpperBoundMappingMatrix s = Some E →
  getProjectionIntoClampsMatrix s = Some P_c →
  getInvMassMatrix s = Some Minv →
  getVelVelJacobian s
  = Some (times
            (minus I
               (times (times (scale h Minv) (plus A_c (times A_ub E))) P_c))
            I).
Proof.
  intros s h I HA HAub HE HP HM.
  destruct (new_BackpropSnapshot_fields world pos vel tau)
    as (_ & Ht & _ & _ & Hcons).
  fold s in Ht, Hcons.
  destruct (assembleMatrix_shape _ _ _ HA) as [HAr HAc].
  destruct (assembleMatrix_shape _ _ _ HAub) as [HAubr HAubc].
  destruct (getUpperBoundMappingMatrix_shape _ _ Hcons HE) as [HEr HEc].
  destruct (getProjectionIntoClampsMatrix_shape _ _ HP) as [HPr HPc].
  destruct (getInvMassMatrix_shape _ _ HM) as [HMr HMc].
  cbn in HAc, HAubc.
  unfold getVelVelJacobian. rewrite HA, HAub, HE, HP, HM, Ht. cbn.
  rewrite mul_conform by congruence. cbn.
  rewrite add_conform by (cbn; congruence). cbn.
  rewrite mul_conform by (cbn; congruence). cbn.
  rewrite mul_conform by (cbn; congruence). cbn.
  rewrite sub_conform by (cbn; congruence). cbn.
  by rewrite mul_conform by (cbn; congruence).
Qed.

(** X12. On every snapshot on which the five inputs exist,
    [getVelVelJacobian] is [(I − h·M⁻¹·(A_c + A_ub·E)·P_c)·B] with [B] the
    identity of order [mNumDOFs]: none of its sums and products fails to
    conform, and with exact scalars the factor [B] changes nothing. *)
Theorem getVelVelJacobian_formula
    {DS : DecompositionShapes R} (world : World R)
    (pos vel tau A_c A_ub E P_c Minv : Matrix R) :
  let s := new_BackpropSnapshot world pos vel tau in
  let h := World_getTimeStep world in
  let I := Identity (mNumDOFs s) (mNumDOFs s) in
  let J :=
    minus I (times (times (scale h Minv) (plus A_c (times A_ub E))) P_c) in
  getClampingConstraintMatrix s = Some A_c →
  getUpperBoundConstraintMatrix s = Some A_ub →
  getUpperBoundMappingMatrix s = Some E →
  getProjectionIntoClampsMatrix s = Some P_c →
  getInvMassMatrix s = Some Minv →
  getVelVelJacobian s = Some (times J I)
  ∧ (ScalarLaws R → meq (times J I) J).
Proof.
  intros s h I J HA HAub HE HP HM.
  split; [by apply getVelVelJacobian_eq|].
  intros Laws. apply (times_Identity J).
Qed.

(** X13. In a world none of whose skeletons is in a constraint group (and
    whose skeletons carry square inverse mass matrices of their own order),
    [getVelVelJacobian] is the identity of order [mNumDOFs] and
    [getVelPosJacobian] is [h] times that identity. *)
Theorem no_contact_velocity_jacobians
    {DS : DecompositionShapes R} {Laws : ScalarLaws R} (world : World R)
    (pos vel tau : Matrix R) :
  let s := new_BackpropSnapshot world pos vel tau in
  let h := World_getTimeStep world in
  let I := Identity (mNumDOFs s) (mNumDOFs s) in
  Forall (λ skel, Skeleton_getGradientConstraintMatrices skel = None)
    (World_getSkeletons world) →
  Forall (shaped Skeleton_getInvMassMatrix) (World_getSkeletons world) →
  (∃ J, getVelVelJacobian s = Some J ∧ meq J I)
  ∧ getVelPosJacobian s = Some (scale h I).
Proof.
  intros s h I Hfree Hshaped.
  destruct (free_world world pos vel tau Hfree) as (Hg & Hmat & HE & Hbd).
  fold s in Hg, Hmat, HE, Hbd.
  destruct (place_diagonal_block_diagonal _ world pos vel tau Hshaped)
    as (Minv & HMinv & _).
  fold s in HMinv. change (getInvMassMatrix s = Some Minv) in HMinv.
  pose proof (getProjectionIntoClampsMatrix_eq world pos vel tau
                _ _ _ _ _ (Hmat CLAMPING) (Hmat MASSED_CLAMPING)
                (Hmat MASSED_UPPER_BOUND) HE Hbd) as HP.
  fold s in HP. cbn in HP.
  pose proof (getVelVelJacobian_eq world pos vel tau
                _ _ _ _ _ (Hmat CLAMPING) (Hmat UPPER_BOUND) HE HP HMinv)
    as HJ.
  fold s in HJ. fold h in HJ. fold I in HJ.
  destruct (new_BackpropSnapshot_fields world pos vel tau)
    as (_ & Ht & _).
  fold s in Ht.
  split.
  - eexists. split; [exact HJ|].
    split; [done|]. split; [done|]. intros i j Hi Hj. cbn in Hi, Hj.
    match goal with |- coeff (times ?m _) _ _ = _ =>
      destruct (times_Identity m) as (_ & _ & Hm);
      etrans; [exact (Hm i j Hi Hj)|] end.
    cbn. apply s_sub_0_r.
  - unfold getVelPosJacobian, getPosPosJacobian, getBouncingConstraintMatrix.
    rewrite (Hmat BOUNCING), Ht. cbn -[size Nat.eqb].
    assert (size (Zero (mNumDOFs s) 0 : Matrix R) = 0) as ->
      by (unfold size; cbn; lia).
    done.
Qed.

(** *** The mapping matrix, block by block *)

Lemma offset_by_0 {A} (f : A → nat) l : offset_by f l 0 = 0.
Proof. unfold offset_by. by rewrite take_0. Qed.

Lemma offset_by_S {A} (f : A → nat) x l k :
  offset_by f (x :: l) (S k) = f x + offset_by f l k.
Proof. done. Qed.

Lemma place_mappings_spec (s : BackpropSnapshot R) groups cu cc m m' :
  place_mappings s groups cu cc m = Some m' →
  (∀ k p a b,
     groups !! k = Some p →
     a < rows (mapping_of s p) → b < cols (mapping_of s p) →
     coeff m' (cu + offset_by (λ p, rows (mapping_of s p)) groups k + a)
       (cc + offset_by (λ p, cols (mapping_of s p)) groups k + b)
     = coeff (mapping_of s p) a b)
  ∧ (∀ r c,
       (∀ k p, groups !! k = Some p →
          ¬ ((cu + offset_by (λ p, rows (mapping_of s p)) groups k ≤ r
              < cu + offset_by (λ p, rows (mapping_of s p)) groups k
                + rows (mapping_of s p))
             ∧ (cc + offset_by (λ p, cols (mapping_of s p)) groups k ≤ c
                < cc + offset_by (λ p, cols (mapping_of s p)) groups k
                  + cols (mapping_of s p)))) →
       coeff m' r c = coeff m r c).
Proof.
  revert cu cc m.
  induction groups as [|q groups IH]; intros cu cc m.
  - cbn. intros [= <-]. split; [by intros [|k]|done].
  - cbn [place_mappings]. fold (mapping_of s q).
    set (h := rows (mapping_of s q)). set (w := cols (mapping_of s q)).
    destruct (set_block m cu cc h w (mapping_of s q)) as [m1|] eqn:Hm1;
      [|done].
    cbn. intros Hrest.
    apply set_block_Some in Hm1 as (_ & _ & _ & _ & _ & _ & Hm1).
    destruct (IH _ _ _ Hrest) as [Hin Hout]. split.
    + intros [|k] p a b Hk Ha Hb.
      * injection Hk as <-. rewrite !offset_by_0, !Nat.add_0_r.
        rewrite Hout, Hm1.
        -- replace (cu + a - cu) with a by lia.
           replace (cc + b - cc) with b by lia.
           destruct (Nat.leb_spec cu (cu + a)); [|lia].
           destruct (Nat.ltb_spec (cu + a) (cu + h)); [|unfold h in *; lia].
           destruct (Nat.leb_spec cc (cc + b)); [|lia].
           destruct (Nat.ltb_spec (cc + b) (cc + w)); [|unfold w in *; lia].
           done.
        -- intros k p _. unfold h in *. lia.
      * rewrite !offset_by_S. fold h w. cbn in Hk.
        replace (cu + (h + offset_by (λ p, rows (mapping_of s p)) groups k) + a)
          with (cu + h + offset_by (λ p, rows (mapping_of s p)) groups k + a)
          by lia.
        replace (cc + (w + offset_by (λ p, cols (mapping_of s p)) groups k) + b)
          with (cc + w + offset_by (λ p, cols (mapping_of s p)) groups k + b)
          by lia.
        by apply Hin.
    + intros r c Hrc. rewrite Hout, Hm1.
      * specialize (Hrc 0 q eq_refl). rewrite !offset_by_0 in Hrc.
        fold h w in Hrc.
        destruct (Nat.leb_spec cu r); [|done].
        destruct (Nat.ltb_spec r (cu + h)); [|done].
        destruct (Nat.leb_spec cc c); [|done].
        destruct (Nat.ltb_spec c (cc + w)); [|done].
        lia.
      * intros k p Hk. specialize (Hrc (S k) p Hk).
        rewrite !offset_by_S in Hrc. fold h w in Hrc. lia.
Qed.

(** X14. The assembled upper-bound mapping matrix carries the mapping
    matrix of each group as a block: the block of the [k]-th group starts at
    the row and at the column where the blocks of the groups before it end,
    and every coefficient outside these blocks is zero. *)
Theorem getUpperBoundMappingMatrix_blocks (s : BackpropSnapshot R)
    (E : Matrix R) :
  let groups := mGradientMatrices s in
  let row_offset := offset_by (λ p, rows (mapping_of s p)) groups in
  let col_offset := offset_by (λ p, cols (mapping_of s p)) groups in
  getUpperBoundMappingMatrix s = Some E →
  (∀ k p a b,
     groups !! k = Some p →
     a < rows (mapping_of s p) → b < cols (mapping_of s p) →
     coeff E (row_offset k + a) (col_offset k + b)
     = coeff (mapping_of s p) a b)
  ∧ (∀ r c,
       (∀ k p, groups !! k = Some p →
          ¬ ((row_offset k ≤ r < row_offset k + rows (mapping_of s p))
             ∧ (col_offset k ≤ c < col_offset k + cols (mapping_of s p)))) →
       coeff E r c = s_zero).
Proof.
  intros groups row_offset col_offset HE.
  destruct (place_mappings_spec _ _ _ _ _ _ HE) as [Hin Hout]. split.
  - intros k p a b Hk Ha Hb. by apply (Hin k p a b).
  - intros r c Hrc. rewrite Hout; [done|]. intros k p Hk. by apply Hrc.
Qed.

(** *** The assembled matrices, block by block *)

Lemma shuffle_spec (s : BackpropSnapshot R) gm cc skels dc m m' :
  shuffle s gm cc skels dc m = Some m' →
  (∀ j sk, skels !! j = Some sk →
     ∃ off,
       mSkeletonOffset s !! Skeleton_getName sk = Some off
       ∧ ((∀ j' sk' off',
             j < j' → skels !! j' = Some sk' →
             mSkeletonOffset s !! Skeleton_getName sk' = Some off' →
             off + Skeleton_getNumDofs sk ≤ off'
             ∨ off' + Skeleton_getNumDofs sk' ≤ off) →
          ∀ a c, a < Skeleton_getNumDofs sk → c < cols gm →
            coeff m' (off + a) (cc + c)
            = coeff gm (dc + offset skels j + a) c))
  ∧ (∀ r c,
       (∀ j sk off,
          skels !! j = Some sk →
          mSkeletonOffset s !! Skeleton_getName sk = Some off →
          ¬ ((off ≤ r < off + Skeleton_getNumDofs sk)
             ∧ (cc ≤ c < cc + cols gm))) →
       coeff m' r c = coeff m r c).
Proof.
  revert dc m.
  induction skels as [|sk0 skels IH]; intros dc m.
  - cbn. intros [= <-]. split; [by intros [|j]|done].
  - cbn [shuffle]. set (d := Skeleton_getNumDofs sk0).
    destruct (mSkeletonOffset s !! Skeleton_getName sk0) as [off0|] eqn:Hoff0;
      [|done].
    cbn [mbind option_bind].
    destruct (block gm dc 0 d (cols gm)) as [src|] eqn:Hsrc; [|done].
    cbn [mbind option_bind].
    destruct (set_block m off0 cc d (cols gm) src) as [m1|] eqn:Hm1; [|done].
    cbn [mbind option_bind]. intros Hrest.
    apply block_Some in Hsrc as (_ & _ & _ & _ & Hsrc).
    apply set_block_Some in Hm1 as (_ & _ & _ & _ & _ & _ & Hm1).
    destruct (IH _ _ Hrest) as [Hin Hout]. split.
    + intros [|j] sk Hj.
      * injection Hj as <-. exists off0. split; [done|].
        intros Hlater a c Ha Hc. fold d in Ha.
        rewrite offset_0, Nat.add_0_r, Hout, Hm1.
        -- destruct (Nat.leb_spec off0 (off0 + a)); [|lia].
           destruct (Nat.ltb_spec (off0 + a) (off0 + d)); [|lia].
           destruct (Nat.leb_spec cc (cc + c)); [|lia].
           destruct (Nat.ltb_spec (cc + c) (cc + cols gm)); [|lia].
           cbn. rewrite Hsrc.
           replace (off0 + a - off0) with a by lia.
           replace (cc + c - cc) with c by lia. done.
        -- intros j' sk' off' Hj' Hoff'.
           destruct (Hlater (S j') sk' off') as [Hd|Hd];
             [lia|done|done|fold d in Hd; lia|lia].
      * cbn in Hj. destruct (Hin j sk Hj) as (off & Hoff & Hcoeff).
        exists off. split; [done|]. intros Hlater a c Ha Hc.
        rewrite offset_S. fold d.
        replace (dc + (d + offset skels j) + a)
          with (dc + d + offset skels j + a) by lia.
        apply Hcoeff; [|done..].
        intros j' sk' off' Hjj' Hj' Hoff'.
        apply (Hlater (S j') sk' off'); [lia|done..].
    + intros r c Hrc. rewrite Hout, Hm1.
      * specialize (Hrc 0 sk0 off0 eq_refl Hoff0). fold d in Hrc.
        destruct (Nat.leb_spec off0 r); [|done].
        destruct (Nat.ltb_spec r (off0 + d)); [|done].
        destruct (Nat.leb_spec cc c); [|done].
        destruct (Nat.ltb_spec c (cc + cols gm)); [|done].
        lia.
      * intros j sk off Hj Hoff. by apply (Hrc (S j) sk off).
Qed.

Lemma assemble_spec (s : BackpropSnapshot R) which groups cc m m' :
  let gm p := groupMatrixOf which (group_of s p) in
  let gskels p := Group_getSkeletons (group_of s p) in
  let col_offset := offset_by (λ p, cols (gm p)) groups in
  assemble s which groups cc m = Some m' →
  (∀ k p j sk, groups !! k = Some p → gskels p !! j = Some sk →
     ∃ off,
       mSkeletonOffset s !! Skeleton_getName sk = Some off
       ∧ ((∀ j' sk' off',
             j < j' → gskels p !! j' = Some sk' →
             mSkeletonOffset s !! Skeleton_getName sk' = Some off' →
             off + Skeleton_getNumDofs sk ≤ off'
             ∨ off' + Skeleton_getNumDofs sk' ≤ off) →
          ∀ a c, a < Skeleton_getNumDofs sk → c < cols (gm p) →
            coeff m' (off + a) (cc + col_offset k + c)
            = coeff (gm p) (offset (gskels p) j + a) c))
  ∧ (∀ r c,
       (∀ k p j sk off,
          groups !! k = Some p → gskels p !! j = Some sk →
          mSkeletonOffset s !! Skeleton_getName sk = Some off →
          ¬ ((off ≤ r < off + Skeleton_getNumDofs sk)
             ∧ (cc + col_offset k ≤ c < cc + col_offset k + cols (gm p)))) →
       coeff m' r c = coeff m r c).
Proof.
  intros gm gskels. cbv zeta. revert cc m.
  induction groups as [|p0 groups IH]; intros cc m.
  - cbn. intros [= <-]. split; [by intros [|k]|done].
  - cbn [assemble]. fold (gm p0). fold (gskels p0).
    destruct (shuffle s (gm p0) cc (gskels p0) 0 m) as [m1|] eqn:Hm1; [|done].
    cbn [mbind option_bind]. intros Hrest.
    destruct (shuffle_spec _ _ _ _ _ _ _ Hm1) as [Hin1 Hout1].
    destruct (IH _ _ Hrest) as [Hin Hout]. split.
    + intros [|k] p j sk Hk Hj.
      * injection Hk as <-. destruct (Hin1 j sk Hj) as (off & Hoff & Hcoeff).
        exists off. split; [done|]. intros Hlater a c Ha Hc.
        rewrite offset_by_0, Nat.add_0_r, Hout.
        -- by rewrite Hcoeff.
        -- intros k p j' sk' off' _ _ _. lia.
      * cbn in Hk. destruct (Hin k p j sk Hk Hj) as (off & Hoff & Hcoeff).
        exists off. split; [done|]. intros Hlater a c Ha Hc.
        rewrite offset_by_S.
        replace (cc + (cols (gm p0)
                       + offset_by (λ p, cols (gm p)) groups k) + c)
          with (cc + cols (gm p0)
                + offset_by (λ p, cols (gm p)) groups k + c) by lia.
        by apply Hcoeff.
    + intros r c Hrc. rewrite Hout, Hout1; [done| |].
      * intros j sk off Hj Hoff.
        specialize (Hrc 0 p0 j sk off eq_refl Hj Hoff).
        rewrite offset_by_0 in Hrc. lia.
      * intros k p j sk off Hk Hj Hoff.
        specialize (Hrc (S k) p j sk off Hk Hj Hoff).
        rewrite offset_by_S in Hrc. lia.
Qed.

Lemma NoDup_names_lookup (skels : list (Skeleton R)) i i' sk sk' :
  NoDup (map Skeleton_getName skels) →
  skels !! i = Some sk → skels !! i' = Some sk' →
  Skeleton_getName sk = Skeleton_getName sk' → i = i'.
Proof.
  intros Hnd Hi Hi' Hname.
  apply (NoDup_lookup _ i i' (Skeleton_getName sk) Hnd).
  - by rewrite list_lookup_fmap, Hi.
  - by rewrite list_lookup_fmap, Hi', Hname.
Qed.

Lemma offset_disjoint (skels : list (Skeleton R)) i i' sk sk' :
  i ≠ i' → skels !! i = Some sk → skels !! i' = Some sk' →
  offset skels i + Skeleton_getNumDofs sk ≤ offset skels i'
  ∨ offset skels i' + Skeleton_getNumDofs sk' ≤ offset skels i.
Proof.
  intros Hne Hi Hi'. destruct (Nat.lt_ge_cases i i').
  - left. by apply offset_mono.
  - right. apply offset_mono; [lia|done].
Qed.

(** X15. On a well-formed world whose groups list each of their skeletons
    once, [assembleMatrix] succeeds; its result has a row per world DOF and
    the columns of the groups side by side, in group order; the rows that a
    group holds for its [j]-th skeleton appear at that skeleton's world
    offset, in the columns of the group; every other coefficient is zero. *)
Theorem assembleMatrix_blocks (world : World R) (pos vel tau : Matrix R)
    (whichMatrix : MatrixToAssemble) :
  let s := new_BackpropSnapshot world pos vel tau in
  let skels := World_getSkeletons world in
  let groups := mGradientMatrices s in
  let gm p := groupMatrixOf whichMatrix (World_deref world p) in
  let gskels p := Group_getSkeletons (World_deref world p) in
  let col_offset := offset_by (λ p, cols (gm p)) groups in
  well_formed world →
  (∀ p, p ∈ groups → NoDup (gskels p)) →
  ∃ M,
    assembleMatrix s whichMatrix = Some M
    ∧ rows M = total_dofs skels
    ∧ cols M = sum_list (map (λ p, cols (gm p)) groups)
    ∧ (∀ k p j sk i a c,
         groups !! k = Some p → gskels p !! j = Some sk →
         skels !! i = Some sk →
         a < Skeleton_getNumDofs sk → c < cols (gm p) →
         coeff M (offset skels i + a) (col_offset k + c)
         = coeff (gm p) (offset (gskels p) j + a) c)
    ∧ (∀ r c,
         (∀ k p j sk i,
            groups !! k = Some p → gskels p !! j = Some sk →
            skels !! i = Some sk →
            ¬ ((offset skels i ≤ r < offset skels i + Skeleton_getNumDofs sk)
               ∧ (col_offset k ≤ c < col_offset k + cols (gm p)))) →
         coeff M r c = s_zero).
Proof.
  intros s skels groups gm gskels col_offset Hwf Hnodup.
  destruct (assembled_matrices_exist world pos vel tau Hwf) as [Hex _].
  destruct (Hex whichMatrix) as [M HM]. fold s in HM.
  destruct (new_BackpropSnapshot_fields world pos vel tau)
    as (Hw & _ & _ & Hn & _).
  destruct (constructor_groups world pos vel tau)
    as (_ & Hin & Hd & Hc & Hu & Hb).
  fold s in Hw, Hn, Hin, Hd, Hc, Hu, Hb.
  destruct (assembleMatrix_shape _ _ _ HM) as [Hrows Hcols].
  destruct Hwf as [Hnames Hgroups].
  assert (∀ p sk, p ∈ groups → sk ∈ gskels p → sk ∈ skels) as Hworld.
  { intros p sk (skel & Hskel & Hp)%Hin Hsk.
    by apply (Hgroups skel p Hskel Hp). }
  assert (∀ i sk, skels !! i = Some sk →
            mSkeletonOffset s !! Skeleton_getName sk = Some (offset skels i))
    as Hlookup.
  { intros i sk Hi. by apply mSkeletonOffset_lookup. }
  unfold assembleMatrix in HM.
  destruct (assemble_spec _ _ _ _ _ _ HM) as [Hcontent Hframe].
  unfold group_of in Hcontent, Hframe. rewrite Hw in Hcontent, Hframe.
  exists M. split_and!.
  - done.
  - by rewrite Hrows, Hn.
  - rewrite Hcols. unfold gm.
    assert (∀ f g : GroupPtr → nat,
              (∀ p, p ∈ groups → f p = g p) →
              sum_list (map f groups) = sum_list (map g groups)) as Hsum.
    { intros f g Hfg. f_equal. apply map_ext_in. intros p Hp.
      apply Hfg. by apply list_elem_of_In. }
    destruct whichMatrix; cbn; rewrite ?Hc, ?Hu, ?Hb; try done.
    + apply Hsum. intros p (skel & Hskel & Hp)%Hin.
      by destruct (Hgroups skel p Hskel Hp) as (_ & _ & -> & _).
    + apply Hsum. intros p (skel & Hskel & Hp)%Hin.
      by destruct (Hgroups skel p Hskel Hp) as (_ & _ & _ & -> & _).
  - intros k p j sk i a c Hk Hj Hi Ha Hc'.
    destruct (Hcontent k p j sk Hk Hj) as (off & Hoff & Hcoeff).
    rewrite (Hlookup i sk Hi) in Hoff. injection Hoff as <-.
    apply Hcoeff; [|done..].
    intros j' sk' off' Hjj' Hj' Hoff'.
    assert (sk' ∈ skels) as [i' Hi']%list_elem_of_lookup_1.
    { apply (Hworld p); by eapply list_elem_of_lookup_2. }
    rewrite (Hlookup i' sk' Hi') in Hoff'. injection Hoff' as <-.
    apply offset_disjoint; [|done..].
    intros <-. rewrite Hi in Hi'. injection Hi' as <-.
    assert (p ∈ groups) as Hp by by eapply list_elem_of_lookup_2.
    pose proof (NoDup_lookup _ j j' sk (Hnodup p Hp) Hj Hj'). lia.
  - intros r c Hrc. rewrite Hframe; [done|].
    intros k p j sk off Hk Hj Hoff.
    assert (sk ∈ skels) as [i Hi]%list_elem_of_lookup_1.
    { apply (Hworld p); by eapply list_elem_of_lookup_2. }
    rewrite (Hlookup i sk Hi) in Hoff. injection Hoff as <-.
    by apply (Hrc k p j sk i).
Qed.

(** *** The assembled vectors, segment by segment *)

Lemma sum_list_cons (x : nat) l : sum_list (x :: l) = x + sum_list l.
Proof. done. Qed.

Lemma gather_spec {T} {V : @Vec R T} (s : BackpropSnapshot R) which groups
    cursor (collected v : Matrix T) :
  gather s which groups cursor collected = Some v →
  cursor ≤ rows collected →
  (∀ k p, groups !! k = Some p →
     ∃ vk,
       getVectorToAssemble (group_of s p) which = Some vk
       ∧ cols vk = 1
       ∧ ∀ i, i < rows vk →
           coeff v (cursor + offset_by (vector_size (V:=V) s which) groups k + i) 0
           = coeff vk i 0)
  ∧ (∀ r c,
       ¬ (cursor ≤ r
          < cursor + sum_list (map (vector_size (V:=V) s which) groups)) →
       coeff v r c = coeff collected r c)
  ∧ cursor + sum_list (map (vector_size (V:=V) s which) groups) ≤ rows collected.
Proof.
  revert cursor collected.
  induction groups as [|p0 groups IH]; intros cursor collected.
  - cbn. intros [= <-] Hcursor. split_and!; [by intros [|k]|done|lia].
  - cbn [gather map]. rewrite sum_list_cons.
    destruct (getVectorToAssemble (group_of s p0) which) as [vec|] eqn:Hvec;
      [|done].
    assert (vector_size (V:=V) s which p0 = size vec) as Hvs
      by (unfold vector_size; by rewrite Hvec).
    rewrite Hvs. cbn [mbind option_bind].
    destruct (set_segment collected cursor (size vec) vec) as [c1|] eqn:Hc1;
      [|done].
    cbn [mbind option_bind]. intros Hrest Hcursor.
    apply set_block_Some in Hc1 as (Hfit & _ & Hr & Hc & Hr1 & _ & Hc1).
    assert (size vec = rows vec) as Hsize by (unfold size; rewrite Hc; lia).
    destruct (IH _ _ Hrest) as (Hin & Hout & Hle); [lia|].
    split_and!.
    + intros [|k] p Hk.
      * injection Hk as <-. exists vec. split; [done|]. split; [done|].
        intros i Hi. rewrite offset_by_0, Nat.add_0_r, Hout, Hc1 by lia.
        destruct (Nat.leb_spec cursor (cursor + i)); [|lia].
        destruct (Nat.ltb_spec (cursor + i) (cursor + size vec)); [|lia].
        cbn. by replace (cursor + i - cursor) with i by lia.
      * cbn in Hk. destruct (Hin k p Hk) as (vk & Hvk & Hcols & Hcoeff).
        exists vk. split; [done|]. split; [done|]. intros i Hi.
        rewrite offset_by_S, Hvs.
        replace (cursor + (size vec
                           + offset_by (vector_size (V:=V) s which) groups k) + i)
          with (cursor + size vec
                + offset_by (vector_size (V:=V) s which) groups k + i) by lia.
        by apply Hcoeff.
    + intros r c Hrc. rewrite Hout, Hc1 by lia.
      destruct (Nat.leb_spec cursor r); [|done].
      destruct (Nat.ltb_spec r (cursor + size vec)); [|done]. lia.
    + lia.
Qed.

(** X16. With two groups or more, when [assembleVector] returns, its
    result has as many rows as there are groups times the length of the
    first group's vector; it starts with the vectors of the groups, one
    after the other in group order; what follows them is storage that was
    never written. *)
Theorem assembleVector_segments {T} {V : @Vec R T} (s : BackpropSnapshot R)
    (whichVector : VectorToAssemble) (p0 p1 : GroupPtr)
    (rest : list GroupPtr) (v : Matrix T) :
  let groups := p0 :: p1 :: rest in
  let len := vector_size (V:=V) s whichVector in
  mGradientMatrices s = groups →
  assembleVector s whichVector = Some v →
  rows v = length groups * len p0
  ∧ cols v = 1
  ∧ sum_list (map len groups) ≤ rows v
  ∧ (∀ k p, groups !! k = Some p →
       ∃ vk,
         getVectorToAssemble (group_of s p) whichVector = Some vk
         ∧ ∀ i, i < len p →
             coeff v (offset_by len groups k + i) 0 = coeff vk i 0)
  ∧ (∀ r, sum_list (map len groups) ≤ r →
       coeff v r 0 = @uninitialized T Vec_storage r 0).
Proof.
  intros groups len Hg Hv.
  assert (∃ v0, getVectorToAssemble (group_of s p0) whichVector = Some v0)
    as [v0 Hv0].
  { unfold assembleVector in Hv. rewrite Hg in Hv.
    cbn -[getVectorToAssemble] in Hv. rewrite Hg in Hv.
    cbn -[getVectorToAssemble] in Hv.
    destruct (getVectorToAssemble (group_of s p0) whichVector); [eauto|done]. }
  destruct (assembleVector_rows s whichVector p0 p1 rest v0 v Hg Hv0 Hv)
    as [Hrows Hcols].
  unfold assembleVector in Hv. rewrite Hg in Hv. unfold groups in Hv.
  cbv beta iota in Hv.
  rewrite (measure_eq s whichVector p0 v0) in Hv by (done || by rewrite Hg).
  cbn [mbind option_bind] in Hv.
  destruct (gather_spec _ _ _ _ _ _ Hv) as (Hin & Hout & Hle); [lia|].
  cbn [rows Uninit] in Hle.
  assert (len p0 = size v0) as Hlen0
    by (unfold len, vector_size; by rewrite Hv0).
  split_and!.
  - by rewrite Hrows, Hlen0.
  - done.
  - rewrite Hrows. unfold len, groups.
    change (length (p0 :: p1 :: rest)) with (2 + length rest) in Hle. lia.
  - intros k p Hk. destruct (Hin k p Hk) as (vk & Hvk & Hc & Hcoeff).
    exists vk. split; [done|]. intros i Hi. rewrite <- Hcoeff; [done|].
    unfold len, vector_size in Hi. rewrite Hvk in Hi. cbn in Hi.
    unfold size in Hi. rewrite Hc in Hi. lia.
  - intros r Hr. unfold len, groups in Hr. by rewrite Hout by lia.
Qed.

(** *** The position-position Jacobian with bouncing contacts *)




(** *** Backpropagation through the groups *)

Lemma copy_segment_Some (dst src r : Matrix R) dstStart srcStart n :
  copy_segment dst dstStart src srcStart n = Some r →
  rows r = rows dst ∧ cols r = cols dst
  ∧ dstStart + n ≤ rows dst ∧ srcStart + n ≤ rows src
  ∧ ∀ i c, coeff r i c
           = if (dstStart <=? i) && (i <? dstStart + n) && (c =? 0)
             then coeff src (srcStart + (i - dstStart)) 0
             else coeff dst i c.
Proof.
  unfold copy_segment, segment, set_segment.
  intros (seg & Hseg & Hset)%bind_Some.
  apply block_Some in Hseg as (? & _ & _ & _ & Hseg).
  apply set_block_Some in Hset as (? & _ & _ & _ & ? & ? & Hset).
  split_and!; try done. intros i c. rewrite Hset.
  destruct (dstStart <=? i), (i <? dstStart + n); cbn; try done.
  destruct c as [|c]; cbn; [by rewrite Hseg|done].
Qed.

(** Each loop works on its vectors independently of one another. *)
Lemma gather_loss_split (s : BackpropSnapshot R) (next : LossGradient R)
    skels cursor (groupNext : LossGradient R) :
  gather_loss s next skels cursor groupNext
  = (position ← copy_segments s false (lossWrtPosition next) skels cursor
                  (lossWrtPosition groupNext);
     velocity ← copy_segments s false (lossWrtVelocity next) skels cursor
                  (lossWrtVelocity groupNext);
     Some {| lossWrtPosition := position;
             lossWrtVelocity := velocity;
             lossWrtTorque := lossWrtTorque groupNext |}).
Proof.
  revert cursor groupNext.
  induction skels as [|sk skels IH]; intros cursor groupNext.
  - cbn. by destruct groupNext.
  - cbn [gather_loss copy_segments].
    destruct (mSkeletonOffset s !! Skeleton_getName sk) as [off|]; [|done].
    cbn [mbind option_bind].
    destruct (copy_segment (lossWrtPosition groupNext) _ _ _ _) as [p|];
      cbn [mbind option_bind]; [|done].
    destruct (copy_segment (lossWrtVelocity groupNext) _ _ _ _) as [v|];
      cbn [mbind option_bind].
    + by rewrite IH.
    + by destruct (copy_segments s false (lossWrtPosition next) _ _ _).
Qed.

Lemma scatter_loss_split (s : BackpropSnapshot R) (groupThis : LossGradient R)
    skels cursor (this : LossGradient R) :
  scatter_loss s groupThis skels cursor this
  = (position ← copy_segments s true (lossWrtPosition groupThis) skels cursor
                  (lossWrtPosition this);
     velocity ← copy_segments s true (lossWrtVelocity groupThis) skels cursor
                  (lossWrtVelocity this);
     torque ← copy_segments s true (lossWrtTorque groupThis) skels cursor
                (lossWrtTorque this);
     Some {| lossWrtPosition := position;
             lossWrtVelocity := velocity;
             lossWrtTorque := torque |}).
Proof.
  revert cursor this.
  induction skels as [|sk skels IH]; intros cursor this.
  - cbn. by destruct this.
  - cbn [scatter_loss copy_segments].
    destruct (mSkeletonOffset s !! Skeleton_getName sk) as [off|]; [|done].
    cbn [mbind option_bind].
    destruct (copy_segment (lossWrtPosition this) _ _ _ _) as [p|];
      cbn [mbind option_bind]; [|done].
    destruct (copy_segment (lossWrtVelocity this) _ _ _ _) as [v|];
      cbn [mbind option_bind].
    + destruct (copy_segment (lossWrtTorque this) _ _ _ _) as [t|];
        cbn [mbind option_bind].
      * by rewrite IH.
      * destruct (copy_segments s true (lossWrtPosition groupThis) _ _ _);
          cbn; [|done].
        by destruct (copy_segments s true (lossWrtVelocity groupThis) _ _ _).
    + by destruct (copy_segments s true (lossWrtPosition groupThis) _ _ _).
Qed.

Lemma copy_segments_gather (s : BackpropSnapshot R) (src : Matrix R) skels
    cursor (dst r : Matrix R) :
  copy_segments s false src skels cursor dst = Some r →
  rows r = rows dst ∧ cols r = cols dst
  ∧ (∀ j sk, skels !! j = Some sk →
       ∃ off,
         mSkeletonOffset s !! Skeleton_getName sk = Some off
         ∧ ∀ a, a < Skeleton_getNumDofs sk →
             coeff r (cursor + offset skels j + a) 0 = coeff src (off + a) 0)
  ∧ (∀ i c, ¬ (cursor ≤ i < cursor + total_dofs skels) →
       coeff r i c = coeff dst i c).
Proof.
  revert cursor dst.
  induction skels as [|sk0 skels IH]; intros cursor dst.
  - cbn. intros [= <-]. split_and!; [done|done|by intros [|j]|done].
  - cbn [copy_segments]. set (d := Skeleton_getNumDofs sk0).
    destruct (mSkeletonOffset s !! Skeleton_getName sk0) as [off0|] eqn:Hoff0;
      [|done].
    cbn [mbind option_bind].
    destruct (copy_segment dst cursor src off0 d) as [r1|] eqn:Hr1; [|done].
    cbn [mbind option_bind]. intros Hrest.
    apply copy_segment_Some in Hr1 as (Hrows1 & Hcols1 & _ & _ & Hr1).
    destruct (IH _ _ Hrest) as (Hrows & Hcols & Hin & Hout).
    split_and!; [congruence|congruence|..].
    + intros [|j] sk Hj.
      * injection Hj as <-. exists off0. split; [done|]. intros a Ha.
        fold d in Ha. rewrite offset_0, Nat.add_0_r, Hout, Hr1 by lia.
        destruct (Nat.leb_spec cursor (cursor + a)); [|lia].
        destruct (Nat.ltb_spec (cursor + a) (cursor + d)); [|lia].
        cbn. by replace (cursor + a - cursor) with a by lia.
      * cbn in Hj. destruct (Hin j sk Hj) as (off & Hoff & Hcoeff).
        exists off. split; [done|]. intros a Ha.
        rewrite offset_S. fold d.
        replace (cursor + (d + offset skels j) + a)
          with (cursor + d + offset skels j + a) by lia.
        by apply Hcoeff.
    + intros i c Hi. rewrite total_dofs_cons in Hi. fold d in Hi.
      rewrite Hout, Hr1 by lia.
      destruct (Nat.leb_spec cursor i); [|done].
      destruct (Nat.ltb_spec i (cursor + d)); [|done]. lia.
Qed.

Lemma copy_segments_scatter (s : BackpropSnapshot R) (src : Matrix R) skels
    cursor (dst r : Matrix R) :
  copy_segments s true src skels cursor dst = Some r →
  rows r = rows dst ∧ cols r = cols dst
  ∧ (∀ j sk, skels !! j = Some sk →
       ∃ off,
         mSkeletonOffset s !! Skeleton_getName sk = Some off
         ∧ ((∀ j' sk' off',
               j < j' → skels !! j' = Some sk' →
               mSkeletonOffset s !! Skeleton_getName sk' = Some off' →
               off + Skeleton_getNumDofs sk ≤ off'
               ∨ off' + Skeleton_getNumDofs sk' ≤ off) →
            ∀ a, a < Skeleton_getNumDofs sk →
              coeff r (off + a) 0
              = coeff src (cursor + offset skels j + a) 0))
  ∧ (∀ i c,
       (∀ j sk off,
          skels !! j = Some sk →
          mSkeletonOffset s !! Skeleton_getName sk = Some off →
          ¬ (off ≤ i < off + Skeleton_getNumDofs sk)) →
       coeff r i c = coeff dst i c).
Proof.
  revert cursor dst.
  induction skels as [|sk0 skels IH]; intros cursor dst.
  - cbn. intros [= <-]. split_and!; [done|done|by intros [|j]|done].
  - cbn [copy_segments]. set (d := Skeleton_getNumDofs sk0).
    destruct (mSkeletonOffset s !! Skeleton_getName sk0) as [off0|] eqn:Hoff0;
      [|done].
    cbn [mbind option_bind].
    destruct (copy_segment dst off0 src cursor d) as [r1|] eqn:Hr1; [|done].
    cbn [mbind option_bind]. intros Hrest.
    apply copy_segment_Some in Hr1 as (Hrows1 & Hcols1 & _ & _ & Hr1).
    destruct (IH _ _ Hrest) as (Hrows & Hcols & Hin & Hout).
    split_and!; [congruence|congruence|..].
    + intros [|j] sk Hj.
      * injection Hj as <-. exists off0. split; [done|].
        intros Hlater a Ha. fold d in Ha.
        rewrite offset_0, Nat.add_0_r, Hout, Hr1.
        -- destruct (Nat.leb_spec off0 (off0 + a)); [|lia].
           destruct (Nat.ltb_spec (off0 + a) (off0 + d)); [|lia].
           cbn. by replace (off0 + a - off0) with a by lia.
        -- intros j' sk' off' Hj' Hoff'.
           destruct (Hlater (S j') sk' off') as [Hd|Hd];
             [lia|done|done|fold d in Hd; lia|lia].
      * cbn in Hj. destruct (Hin j sk Hj) as (off & Hoff & Hcoeff).
        exists off. split; [done|]. intros Hlater a Ha.
        rewrite offset_S. fold d.
        replace (cursor + (d + offset skels j) + a)
          with (cursor + d + offset skels j + a) by lia.
        apply Hcoeff; [|done].
        intros j' sk' off' Hjj' Hj' Hoff'.
        apply (Hlater (S j') sk' off'); [lia|done..].
    + intros i c Hi. rewrite Hout, Hr1.
      * specialize (Hi 0 sk0 off0 eq_refl Hoff0). fold d in Hi.
        destruct (Nat.leb_spec off0 i); [|done].
        destruct (Nat.ltb_spec i (off0 + d)); [|done]. lia.
      * intros j sk off Hj Hoff. by apply (Hi (S j) sk off).
Qed.

Section Backprop.
Context {GB : GroupBackprop R}.
Implicit Types (X : LossGradient R → Matrix R) (next this : LossGradient R).

Lemma backprop_group_Some (s : BackpropSnapshot R) (next this this' : LossGradient R) p :
  let group := group_of s p in
  backprop_group s next this p = Some this' →
  ∃ groupNext,
    gather_loss s next (Group_getSkeletons group) 0
      (fresh_groupNextTimestepLoss (Group_getNumDOFs group))
    = Some groupNext
    ∧ ∀ X, X ∈ loss_vectors →
        copy_segments s true
          (X (Group_backprop p (fresh_LossGradient (Group_getNumDOFs group))
                groupNext))
          (Group_getSkeletons group) 0 (X this)
        = Some (X this').
Proof.
  intros group. unfold backprop_group. fold group.
  intros (groupNext & Hnext & Hthis)%bind_Some.
  exists groupNext. split; [done|].
  rewrite scatter_loss_split in Hthis.
  apply bind_Some in Hthis as (p' & Hp & Hthis).
  apply bind_Some in Hthis as (v' & Hv & Hthis).
  apply bind_Some in Hthis as (t' & Ht & Hthis).
  injection Hthis as <-. cbn.
  intros X HX. unfold loss_vectors in HX.
  repeat (apply elem_of_cons in HX as [->|HX]; [done|]).
  by apply elem_of_nil in HX.
Qed.

(** X18. [backprop] never reads the loss of the next timestep with respect
    to torque: replacing it changes nothing of the outcome. *)
Theorem backprop_ignores_next_torque (s : BackpropSnapshot R)
    (nextTimestepLoss : LossGradient R) (torque : Matrix R) :
  backprop s
    {| lossWrtPosition := lossWrtPosition nextTimestepLoss;
       lossWrtVelocity := lossWrtVelocity nextTimestepLoss;
       lossWrtTorque := torque |}
  = backprop s nextTimestepLoss.
Proof.
  unfold backprop.
  generalize (fresh_LossGradient (R:=R) (mNumDOFs s)).
  induction (mGradientMatrices s) as [|p groups IH]; intros this; [done|].
  cbn [backprop_groups]. unfold backprop_group.
  rewrite !gather_loss_split. cbn [lossWrtPosition lossWrtVelocity].
  destruct (copy_segments s false (lossWrtPosition nextTimestepLoss) _ _ _)
    as [position|]; [|done].
  cbn [mbind option_bind].
  destruct (copy_segments s false (lossWrtVelocity nextTimestepLoss) _ _ _)
    as [velocity|]; [|done].
  cbn [mbind option_bind].
  destruct (scatter_loss _ _ _ _ _); [|done]. cbn [mbind option_bind].
  apply IH.
Qed.

Lemma backprop_groups_spec (s : BackpropSnapshot R)
    (next : LossGradient R) groups (this0 this : LossGradient R) :
  let gskels p := Group_getSkeletons (group_of s p) in
  let groupThis p groupNext :=
    Group_backprop p
      (fresh_LossGradient (Group_getNumDOFs (group_of s p))) groupNext in
  backprop_groups s next groups this0 = Some this →
  (∀ X, X ∈ loss_vectors →
     rows (X this) = rows (X this0) ∧ cols (X this) = cols (X this0))
  ∧ (∀ k p, groups !! k = Some p →
       ∃ groupNext,
         gather_loss s next (gskels p) 0
           (fresh_groupNextTimestepLoss (Group_getNumDOFs (group_of s p)))
         = Some groupNext
         ∧ ∀ j sk, gskels p !! j = Some sk →
             ∃ off,
               mSkeletonOffset s !! Skeleton_getName sk = Some off
               ∧ ((∀ k' p' j' sk' off',
                     (k = k' ∧ j < j') ∨ k < k' →
                     groups !! k' = Some p' → gskels p' !! j' = Some sk' →
                     mSkeletonOffset s !! Skeleton_getName sk' = Some off' →
                     off + Skeleton_getNumDofs sk ≤ off'
                     ∨ off' + Skeleton_getNumDofs sk' ≤ off) →
                  ∀ X a, X ∈ loss_vectors → a < Skeleton_getNumDofs sk →
                    coeff (X this) (off + a) 0
                    = coeff (X (groupThis p groupNext))
                        (offset (gskels p) j + a) 0))
  ∧ (∀ X i c,
       X ∈ loss_vectors →
       (∀ k p j sk off,
          groups !! k = Some p → gskels p !! j = Some sk →
          mSkeletonOffset s !! Skeleton_getName sk = Some off →
          ¬ (off ≤ i < off + Skeleton_getNumDofs sk)) →
       coeff (X this) i c = coeff (X this0) i c).
Proof.
  intros gskels groupThis. revert this0.
  induction groups as [|p0 groups IH]; intros this0.
  - cbn. intros [= <-]. split_and!; [done|by intros [|k]|done].
  - cbn [backprop_groups].
    destruct (backprop_group s next this0 p0) as [this1|] eqn:H1; [|done].
    cbn [mbind option_bind]. intros Hrest.
    apply backprop_group_Some in H1 as (groupNext & Hnext & Hscatter).
    destruct (IH _ Hrest) as (Hshape & Hin & Hout).
    split_and!.
    + intros X HX. destruct (Hshape X HX) as [-> ->].
      apply Hscatter in HX.
      by apply copy_segments_scatter in HX as (-> & -> & _).
    + intros [|k] p Hk.
      * injection Hk as <-. exists groupNext. split; [done|].
        intros j sk Hj.
        assert (@lossWrtPosition R ∈ loss_vectors) as HP by constructor.
        apply Hscatter, copy_segments_scatter in HP as (_ & _ & HinP & _).
        destruct (HinP j sk Hj) as (off & Hoff & _).
        exists off. split; [done|]. intros Hlater X a HX Ha.
        rewrite (Hout X);
          [|done
           |intros k' p' j' sk' off' Hk' Hj' Hoff';
            destruct (Hlater (S k') p' j' sk' off') as [Hd|Hd];
            [right; lia|done..|lia|lia]].
        apply Hscatter, copy_segments_scatter in HX as (_ & _ & HinX & _).
        destruct (HinX j sk Hj) as (off' & Hoff' & Hcoeff).
        rewrite Hoff in Hoff'. injection Hoff' as <-.
        rewrite Hcoeff; [done| |done].
        intros j' sk' off' Hjj' Hj' Hoff'.
        apply (Hlater 0 p0 j' sk' off'); [left; lia|done..].
      * cbn in Hk. destruct (Hin k p Hk) as (gn & Hgn & Hcontent).
        exists gn. split; [done|]. intros j sk Hj.
        destruct (Hcontent j sk Hj) as (off & Hoff & Hcoeff).
        exists off. split; [done|]. intros Hlater X a HX Ha.
        apply Hcoeff; [|done..].
        intros k' p' j' sk' off' Hkk' Hk' Hj' Hoff'.
        apply (Hlater (S k') p' j' sk' off'); [lia|done..].
    + intros X i c HX Hi.
      rewrite (Hout X);
        [|done
         |intros k p j sk off Hk Hj Hoff; by apply (Hi (S k) p j sk off)].
      apply Hscatter, copy_segments_scatter in HX as (_ & _ & _ & HoutX).
      apply HoutX. intros j sk off Hj Hoff.
      by apply (Hi 0 p0 j sk off).
Qed.

Lemma NoDup_concat_lookup {A B} (f : A → B) (ls : list (list A))
    k k' l l' j j' x x' :
  NoDup (map f (concat ls)) →
  ls !! k = Some l → ls !! k' = Some l' →
  l !! j = Some x → l' !! j' = Some x' →
  f x = f x' → k = k' ∧ j = j'.
Proof.
  revert k k'. induction ls as [|l0 ls IH]; intros k k'; [done|].
  cbn [concat]. rewrite map_app.
  intros (Hl0 & Hdisj & Hls)%NoDup_app Hk Hk' Hj Hj' Hf.
  assert (∀ (m : list A) n y, m !! n = Some y → f y ∈ map f m) as Hmem.
  { intros m n y Hy. apply list_elem_of_fmap. exists y. split; [done|].
    by eapply list_elem_of_lookup_2. }
  assert (∀ n (m : list A) i y,
            ls !! n = Some m → m !! i = Some y → f y ∈ map f (concat ls))
    as Hmem'.
  { intros n m i y Hn Hy. apply list_elem_of_fmap. exists y. split; [done|].
    apply list_elem_of_In, in_concat. exists m.
    split; apply list_elem_of_In; by eapply list_elem_of_lookup_2. }
  destruct k as [|k], k' as [|k']; cbn in Hk, Hk'.
  - injection Hk as <-. injection Hk' as <-. split; [done|].
    apply (NoDup_lookup _ j j' (f x) Hl0).
    + by rewrite list_lookup_fmap, Hj.
    + by rewrite list_lookup_fmap, Hj', Hf.
  - injection Hk as <-. destruct (Hdisj (f x)).
    + by eapply Hmem.
    + rewrite Hf. by eapply Hmem'.
  - injection Hk' as <-. destruct (Hdisj (f x')).
    + by eapply Hmem.
    + rewrite <- Hf. by eapply Hmem'.
  - destruct (IH k k' Hls Hk Hk' Hj Hj' Hf) as [-> ->]. done.
Qed.

(** X19. On a well-formed world, when [backprop] returns, each of the
    three vectors it leaves has one row per world DOF, and the rows of a
    skeleton that no constraint group lists are as they were allocated:
    never written. *)
Theorem backprop_skips_ungrouped_skeletons (world : World R)
    (pos vel tau : Matrix R) (nextTimestepLoss thisTimestepLoss : LossGradient R) :
  let s := new_BackpropSnapshot world pos vel tau in
  let skels := World_getSkeletons world in
  well_formed world →
  backprop s nextTimestepLoss = Some thisTimestepLoss →
  (∀ X, X ∈ loss_vectors →
     rows (X thisTimestepLoss) = total_dofs skels
     ∧ cols (X thisTimestepLoss) = 1)
  ∧ (∀ X i sk a,
       X ∈ loss_vectors →
       skels !! i = Some sk →
       (∀ p, p ∈ mGradientMatrices s →
             sk ∉ Group_getSkeletons (World_deref world p)) →
       a < Skeleton_getNumDofs sk →
       coeff (X thisTimestepLoss) (offset skels i + a) 0
       = uninitialized (offset skels i + a) 0).
Proof.
  intros s skels Hwf Hthis.
  destruct (new_BackpropSnapshot_fields world pos vel tau)
    as (Hw & _ & _ & Hn & _).
  destruct (constructor_groups world pos vel tau) as (_ & Hin & _).
  fold s in Hw, Hn, Hin.
  destruct Hwf as [Hnames Hgroups].
  assert (∀ i sk, skels !! i = Some sk →
            mSkeletonOffset s !! Skeleton_getName sk = Some (offset skels i))
    as Hlookup.
  { intros i sk Hi. by apply mSkeletonOffset_lookup. }
  unfold backprop in Hthis.
  apply backprop_groups_spec in Hthis as (Hshape & _ & Hframe).
  unfold group_of in Hframe. rewrite Hw in Hframe.
  assert (∀ X, X ∈ loss_vectors →
            X (fresh_LossGradient (mNumDOFs s)) = Uninit (mNumDOFs s) 1)
    as Hfresh.
  { intros X HX. unfold loss_vectors in HX.
    repeat (apply elem_of_cons in HX as [->|HX]; [done|]).
    by apply elem_of_nil in HX. }
  split.
  - intros X HX. destruct (Hshape X HX) as [-> ->].
    rewrite (Hfresh X HX). cbn. by rewrite Hn.
  - intros X i sk a HX Hi Hfree Ha.
    rewrite (Hframe X _ _ HX), (Hfresh X HX); [done|].
    intros k p j sk' off Hk Hj Hoff.
    assert (p ∈ mGradientMatrices s) as Hp by by eapply list_elem_of_lookup_2.
    assert (sk' ∈ Group_getSkeletons (World_deref world p)) as Hsk'
      by by eapply list_elem_of_lookup_2.
    destruct (proj1 (Hin p) Hp) as (skel & Hskel & Hptr).
    destruct (Hgroups skel p Hskel Hptr) as (Hsub & _).
    assert (sk' ∈ skels) as [i' Hi']%list_elem_of_lookup_1 by by apply Hsub.
    rewrite (Hlookup i' sk' Hi') in Hoff. injection Hoff as <-.
    assert (i ≠ i') as Hne.
    { intros Heq. subst i'. assert (sk' = sk) as -> by congruence.
      by apply (Hfree p Hp). }
    destruct (offset_disjoint skels i i' sk sk' Hne Hi Hi'); lia.
Qed.

(** X20. On a well-formed world whose groups list each skeleton at most
    once overall, when [backprop] returns: the group of a skeleton has been
    handed, at the skeleton's offset in the group, the position and velocity
    losses found at the skeleton's offset in the world; and each of the
    three vectors [backprop] leaves carries, at the skeleton's offset in the
    world, what the group's own [backprop] left at the skeleton's offset in
    the group. *)
Theorem backprop_routes_gradients (world : World R) (pos vel tau : Matrix R)
    (nextTimestepLoss thisTimestepLoss : LossGradient R)
    (k j i : nat) (p : GroupPtr) (sk : Skeleton R) :
  let s := new_BackpropSnapshot world pos vel tau in
  let skels := World_getSkeletons world in
  let groups := mGradientMatrices s in
  let gskels p := Group_getSkeletons (World_deref world p) in
  let groupDofs := Group_getNumDOFs (World_deref world p) in
  well_formed world →
  NoDup (map Skeleton_getName (concat (map gskels groups))) →
  backprop s nextTimestepLoss = Some thisTimestepLoss →
  groups !! k = Some p → gskels p !! j = Some sk → skels !! i = Some sk →
  ∃ groupNextTimestepLoss,
    gather_loss s nextTimestepLoss (gskels p) 0
      (fresh_groupNextTimestepLoss groupDofs)
    = Some groupNextTimestepLoss
    ∧ (∀ a, a < Skeleton_getNumDofs sk →
         coeff (lossWrtPosition groupNextTimestepLoss)
           (offset (gskels p) j + a) 0
         = coeff (lossWrtPosition nextTimestepLoss) (offset skels i + a) 0
         ∧ coeff (lossWrtVelocity groupNextTimestepLoss)
             (offset (gskels p) j + a) 0
           = coeff (lossWrtVelocity nextTimestepLoss) (offset skels i + a) 0)
    ∧ (∀ X a, X ∈ loss_vectors → a < Skeleton_getNumDofs sk →
         coeff (X thisTimestepLoss) (offset skels i + a) 0
         = coeff (X (Group_backprop p (fresh_LossGradient groupDofs)
                       groupNextTimestepLoss))
             (offset (gskels p) j + a) 0).
Proof.
  intros s skels groups gskels groupDofs Hwf Hpart Hthis Hk Hj Hi.
  destruct (new_BackpropSnapshot_fields world pos vel tau)
    as (Hw & _ & _ & Hn & _).
  destruct (constructor_groups world pos vel tau) as (_ & Hin & _).
  fold s in Hw, Hn, Hin.
  destruct Hwf as [Hnames Hgroups].
  assert (∀ i sk, skels !! i = Some sk →
            mSkeletonOffset s !! Skeleton_getName sk = Some (offset skels i))
    as Hlookup.
  { intros i0 sk0 Hi0. by apply mSkeletonOffset_lookup. }
  assert (∀ p sk, p ∈ groups → sk ∈ gskels p → sk ∈ skels) as Hworld.
  { intros p0 sk0 (skel & Hskel & Hp)%Hin Hsk.
    by apply (Hgroups skel p0 Hskel Hp). }
  unfold backprop in Hthis.
  apply backprop_groups_spec in Hthis as (_ & Hcontent & _).
  unfold group_of in Hcontent. rewrite Hw in Hcontent.
  destruct (Hcontent k p Hk) as (groupNext & Hnext & Hblocks).
  exists groupNext. split; [done|]. split.
  - intros a Ha. rewrite gather_loss_split in Hnext.
    apply bind_Some in Hnext as (position & Hposition & Hnext).
    apply bind_Some in Hnext as (velocity & Hvelocity & Hnext).
    injection Hnext as <-. cbn [lossWrtPosition lossWrtVelocity].
    apply copy_segments_gather in Hposition as (_ & _ & Hposition & _).
    apply copy_segments_gather in Hvelocity as (_ & _ & Hvelocity & _).
    destruct (Hposition j sk Hj) as (off & Hoff & Hcoeff).
    destruct (Hvelocity j sk Hj) as (off' & Hoff' & Hcoeff').
    rewrite (Hlookup i sk Hi) in Hoff, Hoff'.
    injection Hoff as <-. injection Hoff' as <-.
    split; [by apply Hcoeff|by apply Hcoeff'].
  - intros X a HX Ha.
    destruct (Hblocks j sk Hj) as (off & Hoff & Hcoeff).
    rewrite (Hlookup i sk Hi) in Hoff. injection Hoff as <-.
    apply Hcoeff; [|done..].
    intros k' p' j' sk' off' Horder Hk' Hj' Hoff'.
    assert (sk' ∈ skels) as [i' Hi']%list_elem_of_lookup_1.
    { apply (Hworld p'); by eapply list_elem_of_lookup_2. }
    rewrite (Hlookup i' sk' Hi') in Hoff'. injection Hoff' as <-.
    apply offset_disjoint; [|done..].
    intros Heq. subst i'. assert (sk' = sk) as -> by congruence.
    destruct (NoDup_concat_lookup Skeleton_getName (map gskels groups)
                k k' (gskels p) (gskels p') j j' sk sk Hpart)
      as [-> ->];
      [rewrite list_lookup_fmap; unfold groups in *; by rewrite Hk
      |rewrite list_lookup_fmap; unfold groups in *; by rewrite Hk'
      |done..|].
    lia.
Qed.

End Backprop.

(** *** The identity mapping *)

Lemma times_Zero_r (J : Matrix R) {Laws : ScalarLaws R} r c i j :
  coeff (times J (Zero r c)) i j = s_zero.
Proof. cbn. apply sum_upto_zero. intros k _. apply s_mul_0_r. Qed.

(** X21. Every Jacobian of the identity mapping between a mapped quantity
    and the real one is square, of the dimension of the quantity, and leaves
    unchanged a Jacobian it is multiplied into; the two Jacobians between
    positions and velocities are square of the DOF count and make every
    such product zero. *)
Theorem identity_mapping_leaves_jacobians_unchanged {Laws : ScalarLaws R}
    (m : IdentityMapping) (J : Matrix R) :
  let dims (jac : IdentityMapping → Matrix R) := (rows (jac m), cols (jac m)) in
  let square n : nat * nat := (n, n) in
  map dims mapped_to_real
  = map square [getPosDim m; getVelDim m; getForceDim m; getMassDim m]
  ∧ map dims real_to_mapped = map dims mapped_to_real
  ∧ map dims across = map square [getPosDim m; getVelDim m]
  ∧ (∀ jac, jac ∈ mapped_to_real ++ real_to_mapped →
       cols J = rows (jac m) → meq (times J (jac m)) J)
  ∧ (∀ jac i j, jac ∈ across → coeff (times J (jac m)) i j = s_zero).
Proof.
  intros dims square. split_and!; [done..| |].
  - intros jac Hjac HJ. unfold mapped_to_real, real_to_mapped in Hjac.
    cbn in Hjac.
    repeat (apply elem_of_cons in Hjac as [->|Hjac];
            [cbv [getMappedPosToRealPosJac getMappedVelToRealVelJac
                  getMappedForceToRealForceJac getMappedMassToRealMassJac
                  getRealPosToMappedPosJac getRealVelToMappedVelJac
                  getRealForceToMappedForceJac getRealMassToMappedMassJac]
               in HJ |- *;
             cbn in HJ; rewrite <- HJ; apply times_Identity|]).
    by apply elem_of_nil in Hjac.
  - intros jac i j Hjac. unfold across in Hjac.
    repeat (apply elem_of_cons in Hjac as [->|Hjac];
            [by apply times_Zero_r|]).
    by apply elem_of_nil in Hjac.
Qed.

End Facts.
End NeuralFacts.

(** ** The system-identification loop *)

Module RealtimeFacts.
Import Eigen Realtime.

Section Facts.
Context {R : Type} `{Scalar R} `{Conversions R} `{Environment R}.
Implicit Types (s : SSID R) (evs pre post : list (Event R)) (e : Event R)
  (forceHistory pos vel mass : Matrix R) (c : Call R).

Lemma emit_all_app evs1 evs2 (s : SSID R) :
  emit_all (evs1 ++ evs2) s = emit_all evs2 (emit_all evs1 s).
Proof. apply fold_left_app. Qed.

Lemma trace_emit_all evs (s : SSID R) : trace (emit_all evs s) = trace s ++ evs.
Proof.
  unfold emit_all. revert s. induction evs as [|e evs IH]; intros s; cbn.
  - by rewrite app_nil_r.
  - rewrite IH. cbn. by rewrite <- app_assoc.
Qed.

(** Emitting events changes no field but the trace. *)
Ltac frame_by_induction :=
  let s := fresh "s" in
  intros ? s; revert s; unfold emit_all;
  match goal with
  | |- ∀ s, _ (fold_left _ ?evs s) = _ =>
      induction evs as [|? ? IH]; intros s; cbn; [done|by rewrite IH]
  end.

Lemma mRunning_emit_all evs (s : SSID R) : mRunning (emit_all evs s) = mRunning s.
Proof. revert evs s. frame_by_induction. Qed.

Lemma mWorld_emit_all evs (s : SSID R) : mWorld (emit_all evs s) = mWorld s.
Proof. revert evs s. frame_by_induction. Qed.

Lemma mPlanningHistoryMillis_emit_all evs (s : SSID R) : mPlanningHistoryMillis (emit_all evs s) = mPlanningHistoryMillis s.
Proof. revert evs s. frame_by_induction. Qed.

Lemma mSensorLog_emit_all evs (s : SSID R) : mSensorLog (emit_all evs s) = mSensorLog s.
Proof. revert evs s. frame_by_induction. Qed.

Lemma mControlLog_emit_all evs (s : SSID R) : mControlLog (emit_all evs s) = mControlLog s.
Proof. revert evs s. frame_by_induction. Qed.

Lemma mInitialPosEstimator_emit_all evs (s : SSID R) : mInitialPosEstimator (emit_all evs s) = mInitialPosEstimator s.
Proof. revert evs s. frame_by_induction. Qed.

Lemma mOptimizer_emit_all evs (s : SSID R) : mOptimizer (emit_all evs s) = mOptimizer s.
Proof. revert evs s. frame_by_induction. Qed.

Lemma mProblem_emit_all evs (s : SSID R) : mProblem (emit_all evs s) = mProblem s.
Proof. revert evs s. frame_by_induction. Qed.

Lemma mInferListeners_emit_all evs (s : SSID R) : mInferListeners (emit_all evs s) = mInferListeners s.
Proof. revert evs s. frame_by_induction. Qed.

Create Rewrite HintDb ssid_frame.
#[local] Hint Rewrite trace_emit_all mRunning_emit_all mWorld_emit_all
  mPlanningHistoryMillis_emit_all mSensorLog_emit_all mControlLog_emit_all
  mInitialPosEstimator_emit_all mOptimizer_emit_all mProblem_emit_all
  mInferListeners_emit_all : ssid_frame.

(** The pinning loop only emits [PinForce] events. *)
Lemma pin_loop problem forceHistory n s s1 :
  for_upto n
    (λ i s, force ← col forceHistory i;
            Some (emit (PinForce problem i force) s)) s = Some s1 →
  ∃ evs, s1 = emit_all evs s ∧ forallb quiet evs = true.
Proof.
  revert s1. induction n as [|n IH]; intros s1; cbn.
  - intros [= <-]. by exists [].
  - destruct (for_upto n _ s) as [s0|] eqn:E; cbn; [|done].
    destruct (col forceHistory n) as [force|]; cbn; [|done].
    intros [= <-]. destruct (IH _ eq_refl) as (evs & -> & Hq).
    exists (evs ++ [PinForce problem n force]). split.
    + by rewrite emit_all_app.
    + rewrite forallb_app, Hq. done.
Qed.

(** The listener fan-out only emits [Listener] events. *)
Lemma listener_loop t pos vel mass d ls (s : SSID R) :
  ∃ evs,
    fold_left (λ s l, emit (Listener l t pos vel mass d) s) ls s
    = emit_all evs s ∧ forallb quiet evs = true.
Proof.
  revert s. induction ls as [|l ls IH]; intros s; cbn.
  - by exists [].
  - destruct (IH (emit (Listener l t pos vel mass d) s)) as (evs & -> & Hq).
    exists (Listener l t pos vel mass d :: evs). done.
Qed.

(** The calls of one inference cycle: exactly one [SetStartPos], carrying the
    estimator's answer, directly followed by the one [Optimize]. *)
Lemma runInference_trace t s s' :
  runInference t s = Some s' →
  ∃ pre post p sensors,
    trace s' = trace s ++ pre
                 ++ [SetStartPos p (mInitialPosEstimator s sensors t);
                     Optimize (mOptimizer s) p] ++ post
    ∧ forallb quiet pre = true ∧ forallb quiet post = true
    ∧ mInitialPosEstimator s' = mInitialPosEstimator s
    ∧ mWorld s' = mWorld s.
Proof.
  unfold runInference, now. cbn -[for_upto col_at].
  set (ms := ceil_to_int (s_mul _ _)). set (steps := ceil_to_int _).
  set (s0 := match mProblem s with Some _ => _ | None => _ end).
  assert (∃ evs0, trace s0 = trace s ++ evs0 ∧ forallb quiet evs0 = true
            ∧ mInitialPosEstimator s0 = mInitialPosEstimator s
            ∧ mWorld s0 = mWorld s ∧ mOptimizer s0 = mOptimizer s)
    as (evs0 & Ht0 & Hq0 & He0 & Hw0 & Ho0).
  { subst s0. destruct (mProblem s); cbn.
    - by exists [ReadClock].
    - eexists [ReadClock; _; _]. rewrite <- !app_assoc. done. }
  clearbody s0.
  destruct (mProblem s0) as [problem|]; cbn -[for_upto col_at]; [|intros [=]].
  destruct (for_upto _ _ s0) as [s1|] eqn:Eloop; cbn -[col_at]; [|intros [=]].
  apply pin_loop in Eloop as (evs1 & -> & Hq1).
  autorewrite with ssid_frame.
  destruct (col_at (getPosesConst _) _) as [pos|]; cbn -[col_at];
    [|intros [=]].
  destruct (col_at (getVelsConst _) _) as [vel|]; cbn; [|intros [=]].
  intros [= <-].
  match goal with
  | |- context [fold_left (λ s1 l, emit (Listener l ?t ?p ?v ?m ?d) s1) ?ls ?b] =>
      destruct (listener_loop t p v m d ls b) as (evs2 & Heq & Hq2);
      rewrite Heq; clear Heq
  end.
  autorewrite with ssid_frame. cbn. autorewrite with ssid_frame.
  exists (evs0 ++ evs1
          ++ [SetMetadata problem "forces"
                (getValues (mControlLog s0) (t - mPlanningHistoryMillis s0)
                   steps ms);
              SetMetadata problem "sensors"
                (getValues (mSensorLog s0) (t - mPlanningHistoryMillis s0)
                   steps ms)]),
    ([ReadClock; GetRolloutCache problem] ++ evs2), problem,
    (getValues (mSensorLog s0) (t - mPlanningHistoryMillis s0) steps ms).
  rewrite Ht0, He0, Ho0, Hw0, !forallb_app, Hq0, Hq1, Hq2.
  repeat split; try done.
  rewrite <- !app_assoc. done.
Qed.




Lemma startPositions_app (l1 l2 : list (Event R)) :
  startPositions (l1 ++ l2) = startPositions l1 ++ startPositions l2.
Proof. apply omap_app. Qed.

Lemma cyclesRun_app (l1 l2 : list (Event R)) :
  cyclesRun (l1 ++ l2) = cyclesRun l1 + cyclesRun l2.
Proof. unfold cyclesRun. by rewrite omap_app, length_app. Qed.

Lemma threadsStarted_app (l1 l2 : list (Event R)) :
  threadsStarted (l1 ++ l2) = threadsStarted l1 + threadsStarted l2.
Proof. unfold threadsStarted. by rewrite omap_app, length_app. Qed.

Lemma quiet_startPositions (l : list (Event R)) :
  forallb quiet l = true → startPositions l = [].
Proof.
  induction l as [|e l IH]; [done|]. cbn. intros [He Hl]%andb_prop.
  unfold startPositions in *. cbn. rewrite (IH Hl). by destruct e.
Qed.

Lemma quiet_cyclesRun (l : list (Event R)) :
  forallb quiet l = true → cyclesRun l = 0.
Proof.
  induction l as [|e l IH]; [done|]. cbn. intros [He Hl]%andb_prop.
  unfold cyclesRun in *. cbn. specialize (IH Hl). by destruct e.
Qed.

(** One inference cycle hands the problem exactly one start position, the
    estimator's, and calls the optimizer exactly once. *)
Lemma runInference_counts t s s' :
  runInference t s = Some s' →
  (∃ sensors,
     startPositions (trace s')
     = startPositions (trace s) ++ [mInitialPosEstimator s sensors t])
  ∧ cyclesRun (trace s') = S (cyclesRun (trace s))
  ∧ mInitialPosEstimator s' = mInitialPosEstimator s
  ∧ mWorld s' = mWorld s.
Proof.
  intros (pre & post & p & sensors & -> & Hpre & Hpost & He & Hw)
    %runInference_trace.
  repeat split; [|
    |done|done].
  - exists sensors. rewrite !startPositions_app.
    rewrite (quiet_startPositions pre Hpre).
    by rewrite (quiet_startPositions post Hpost).
  - rewrite !cyclesRun_app, (quiet_cyclesRun pre Hpre).
    rewrite (quiet_cyclesRun post Hpost).
    change (cyclesRun [_; _]) with 1. lia.
Qed.

(** C2 (as amended). A turn of the worker loop reads the clock once; it
    enters [runInference] when the control log holds strictly more than
    [mPlanningHistoryMillis] of history before that reading, and otherwise
    does nothing else. Hence a turn that returns has run an inference cycle
    if and only if the available history exceeds the planning window; with
    exactly [mPlanningHistoryMillis] available no cycle is run. *)
Theorem iteration_runs_cycle (s : SSID R) :
  let startTime := timeSinceEpochMillis (trace s) in
  let available := availableHistoryBefore (mControlLog s) startTime in
  ((available ≤ mPlanningHistoryMillis s)%Z →
     iteration s = Some (emit ReadClock s))
  ∧ ((mPlanningHistoryMillis s < available)%Z →
       iteration s
       = runInference startTime
           (emit (Printed "Running inference") (emit ReadClock s)))
  ∧ (∀ s', iteration s = Some s' →
       (cyclesRun (trace s') = S (cyclesRun (trace s))
        ↔ (mPlanningHistoryMillis s < available)%Z)).
Proof.
  intros startTime available. unfold iteration, now. cbn -[runInference].
  fold startTime. fold available.
  destruct (Z.ltb_spec (mPlanningHistoryMillis s) available) as [Hlt|Hle].
  - split; [lia|]. split; [done|]. intros s' Hrun. split; [done|intros _].
    apply runInference_counts in Hrun as (_ & -> & _). cbn [trace emit].
    rewrite !cyclesRun_app. cbn. lia.
  - split; [done|]. split; [lia|]. intros s' [= <-]. cbn [trace emit].
    rewrite cyclesRun_app. cbn. lia.
Qed.

(** Once the flag is down the loop makes no further turn. *)
Lemma iterations_not_running n s :
  mRunning s = false → iterations n s = Some s.
Proof. destruct n; cbn -[iteration]; [done|]. by intros ->. Qed.

(** C7. [start()] on a running object and [stop()] on a stopped one return
    the object unchanged; so starting twice is starting once, stopping twice
    is stopping once, and two consecutive [start()] calls start one worker
    thread, not two. *)
Theorem start_stop_idempotent (s : SSID R) :
  (if mRunning s then start s = s else stop s = s)
  ∧ start (start s) = start s
  ∧ stop (stop s) = stop s
  ∧ mRunning (start s) = true
  ∧ mRunning (stop s) = false
  ∧ threadsStarted (trace (start (start s)))
    = threadsStarted (trace s) + (if mRunning s then 0 else 1)
  ∧ threadsStarted (trace (stop s)) = threadsStarted (trace s).
Proof.
  unfold start, stop.
  destruct (mRunning s) eqn:Hr; cbn -[threadsStarted]; rewrite ?Hr;
    cbn -[threadsStarted]; rewrite ?threadsStarted_app; cbn;
    repeat split; try done; lia.
Qed.

Lemma default_estimator_emit dofs e s :
  quiet e = true ∨ (∃ t, e = Printed t) ∨ e = ThreadStarted →
  default_estimator dofs s → default_estimator dofs (emit e s).
Proof.
  intros He [Hest Hpos]. split; [done|]. cbn [trace emit].
  rewrite startPositions_app.
  apply Forall_app. split; [done|].
  destruct He as [He|[[t ->]| ->]]; [|by constructor..].
  destruct e; try done; by constructor.
Qed.

Lemma default_estimator_runInference dofs t s s' :
  default_estimator dofs s → runInference t s = Some s' →
  default_estimator dofs s'.
Proof.
  intros [Hest Hpos] ([sensors Hs'] & _ & He' & _)%runInference_counts.
  split; [by rewrite He'|]. rewrite Hs'. apply Forall_app. split; [done|].
  rewrite Hest. by repeat constructor.
Qed.

Lemma default_estimator_perform dofs c s s' :
  is_setInitialPosEstimator c = false →
  default_estimator dofs s → perform c s = Some s' →
  default_estimator dofs s'.
Proof.
  intros Hc Hs. destruct c; try done; cbn -[runInference iteration].
  1-5, 8: by intros [= <-].
  - intros [= <-]. by apply (default_estimator_emit _ ReadClock s); [left|].
  - intros [= <-]. by apply (default_estimator_emit _ ReadClock s); [left|].
  - intros [= <-]. unfold start. destruct (mRunning s); [done|].
    destruct Hs as [Hest Hpos]. split; [done|]. cbn -[startPositions].
    rewrite startPositions_app. apply Forall_app. split; [done|constructor].
  - intros [= <-]. unfold stop. destruct (mRunning s); [|done].
    destruct Hs as [Hest Hpos]. split; [done|]. cbn -[startPositions].
    rewrite startPositions_app. apply Forall_app. split; [done|constructor].
  - by apply default_estimator_runInference.
  - unfold iteration, now. cbn -[runInference]. destruct (_ <? _)%Z.
    + apply default_estimator_runInference.
      apply default_estimator_emit; [right; left; eauto|].
      apply default_estimator_emit; [by left|done].
    + intros [= <-]. apply default_estimator_emit; [by left|done].
Qed.

(** C10. From construction on, and for as long as [setInitialPosEstimator]
    has not been called, the estimator answers the zero vector whose length
    is the world's DOF count, whatever sensor history and timestamp it is
    given; every inference cycle hands exactly that vector to the problem as
    its start position. *)
Theorem default_start_position (world : World R) (loss : LossPtr)
    (planningHistoryMillis sensorDim : Z) (calls : list (Call R))
    (s : SSID R) :
  existsb is_setInitialPosEstimator calls = false →
  perform_all calls (new_SSID world loss planningHistoryMillis sensorDim)
  = Some s →
  (∀ sensors time,
     mInitialPosEstimator s sensors time = Zero (World_getNumDofs world) 1)
  ∧ Forall (λ v, v = Zero (World_getNumDofs world) 1)
      (startPositions (trace s))
  ∧ (∀ startTime s', runInference startTime s = Some s' →
       startPositions (trace s')
       = startPositions (trace s) ++ [Zero (World_getNumDofs world) 1]).
Proof.
  intros Hcalls Hrun.
  assert (default_estimator (World_getNumDofs world) s) as [Hest Hpos].
  { assert (default_estimator (World_getNumDofs world)
              (new_SSID world loss planningHistoryMillis sensorDim)) as Hnew
      by (split; [done|constructor]).
    revert Hcalls Hrun Hnew.
    generalize (new_SSID world loss planningHistoryMillis sensorDim).
    induction calls as [|c calls IH]; intros s0; cbn.
    - by intros _ [= <-].
    - intros [Hc Hcs]%orb_false_elim.
      destruct (perform c s0) as [s1|] eqn:E; cbn; [|done].
      intros Hrun Hnew. apply (IH s1 Hcs Hrun).
      by apply (default_estimator_perform _ c s0). }
  split; [by rewrite Hest|]. split; [done|].
  intros startTime s' ([sensors ->] & _)%runInference_counts.
  by rewrite Hest.
Qed.

(** *** The calls of one inference cycle, in full *)

Lemma mOptimizationThread_emit_all evs (s : SSID R) :
  mOptimizationThread (emit_all evs s) = mOptimizationThread s.
Proof.
  unfold emit_all. revert s.
  induction evs as [|e evs IH]; intros s; cbn; [done|by rewrite IH].
Qed.

Lemma col_column (m : Matrix R) i (v : Matrix R) :
  col m i = Some v → i < cols m ∧ v = column m i.
Proof.
  unfold col, block. destruct (_ && _) eqn:E; [|done]. intros [= <-].
  apply andb_prop in E as [_ E]. apply Nat.leb_le in E. split; [lia|done].
Qed.

Lemma set_block_col_full (m : Matrix R) i :
  col m i = if i <? cols m then Some (column m i) else None.
Proof.
  unfold col, block, column. rewrite Nat.add_0_l, Nat.leb_refl.
  destruct (Nat.ltb_spec i (cols m)) as [Hlt|Hge].
  - replace (i + 1 <=? cols m) with true
      by (symmetry; apply Nat.leb_le; lia).
    reflexivity.
  - replace (i + 1 <=? cols m) with false
      by (symmetry; apply Nat.leb_gt; lia).
    reflexivity.
Qed.

(** The pinning loop pins column [i] at step [i], for [i] from [0] up; it
    fails when the history has fewer columns than there are steps. *)
Lemma pin_loop_eq problem (fh : Matrix R) n s :
  for_upto n
    (λ i s, force ← col fh i; Some (emit (PinForce problem i force) s)) s
  = if n <=? cols fh
    then Some (emit_all (map (λ i, PinForce problem i (column fh i)) (seq 0 n))
                 s)
    else None.
Proof.
  induction n as [|n IH]; cbn -[seq Nat.leb]; [done|].
  rewrite IH, set_block_col_full.
  destruct (Nat.leb_spec (S n) (cols fh)) as [Hle|Hgt].
  - replace (n <=? cols fh) with true by (symmetry; apply Nat.leb_le; lia).
    replace (n <? cols fh) with true by (symmetry; apply Nat.ltb_lt; lia).
    cbn -[seq]. rewrite seq_S, map_app, emit_all_app. done.
  - destruct (Nat.leb_spec n (cols fh)); [|done].
    replace (n <? cols fh) with false by (symmetry; apply Nat.ltb_ge; lia).
    done.
Qed.

Lemma listener_loop_events t pos vel mass d ls s :
  fold_left (λ s l, emit (Listener l t pos vel mass d) s) ls s
  = emit_all (map (λ l, Listener l t pos vel mass d) ls) s.
Proof.
  revert s. induction ls as [|l ls IH]; intros s; cbn; [done|]. by rewrite IH.
Qed.

(** Emitting is appending to the trace. *)
Lemma emit_all_eq evs s :
  emit_all evs s
  = {| mRunning := mRunning s; mWorld := mWorld s; mLoss := mLoss s;
       mPlanningHistoryMillis := mPlanningHistoryMillis s;
       mSensorDim := mSensorDim s; mSensorLog := mSensorLog s;
       mControlLog := mControlLog s;
       mInitialPosEstimator := mInitialPosEstimator s;
       mOptimizer := mOptimizer s; mProblem := mProblem s;
       mSolution := mSolution s;
       mOptimizationThread := mOptimizationThread s;
       mInferListeners := mInferListeners s;
       trace := trace s ++ evs |}.
Proof.
  unfold emit_all. revert s. induction evs as [|e evs IH]; intros s; cbn.
  - rewrite app_nil_r. by destruct s.
  - rewrite IH. cbn. by rewrite <- app_assoc.
Qed.

(** [runInference], call by call: it completes exactly when the control
    history has a column for every step and the rollout has a column
    [steps - 1]. *)
Lemma runInference_eq t s :
  runInference t s
  = if Z.to_nat (steps s) <=? cols (forceHistory t s)
    then
      pos ← col_at (getPosesConst (trace s ++ calls_until_rollout t s))
               (steps s - 1);
      vel ← col_at (getVelsConst (trace s ++ calls_until_rollout t s))
               (steps s - 1);
      Some (after_cycle t pos vel s)
    else None.
Proof.
  unfold runInference, now. cbn -[for_upto col_at Nat.leb].
  fold (millisPerStep s). fold (steps s).
  set (s0 := match mProblem s with Some _ => _ | None => _ end).
  assert (s0 = set_problem (Some (cycle_problem s)) (mSolution s)
                 (emit_all ([ReadClock] ++ creation_events s) s)) as ->.
  { subst s0. rewrite emit_all_eq. unfold creation_events, cycle_problem.
    destruct (mProblem s) eqn:Ep; cbn.
    { unfold emit, set_problem. cbn. by rewrite Ep. }
    unfold emit, set_problem. cbn. by rewrite <- !app_assoc. }
  cbn -[for_upto col_at Nat.leb emit_all]. rewrite pin_loop_eq.
  autorewrite with ssid_frame.
  fold (forceHistory t s).
  destruct (_ <=? _); [|done].
  cbn -[col_at emit_all]. rewrite !emit_all_eq. cbn -[col_at].
  fold (sensorHistory t s).
  unfold after_cycle, cycle_calls, computeDuration, calls_until_rollout,
    calls_before_optimize.
  rewrite <- ?app_assoc. cbn -[col_at emit_all]. rewrite <- ?app_assoc.
  cbn -[col_at emit_all]. rewrite <- ?app_assoc.
  destruct (col_at (getPosesConst _) _) as [pos|]; [|done].
  destruct (col_at (getVelsConst _) _) as [vel|]; [|done].
  cbn -[emit_all]. rewrite listener_loop_events, !emit_all_eq. cbn.
  rewrite <- ?app_assoc. cbn. rewrite <- ?app_assoc.
  done.
Qed.
Lemma omap_map_Some {A B C} (f : B → option C) (g : A → B) (h : A → C) l :
  (∀ a, f (g a) = Some (h a)) → omap f (map g l) = map h l.
Proof.
  intros Hfg. induction l as [|a l IH]; cbn; [done|]. by rewrite Hfg, IH.
Qed.

Lemma omap_map_None {A B C} (f : B → option C) (g : A → B) l :
  (∀ a, f (g a) = None) → omap f (map g l) = [].
Proof.
  intros Hfg. induction l as [|a l IH]; cbn; [done|]. by rewrite Hfg, IH.
Qed.

(** *** What a cycle leaves behind *)

Lemma runInference_Some t s s' :
  runInference t s = Some s' →
  ∃ pos vel,
    Z.to_nat (steps s) ≤ cols (forceHistory t s)
    ∧ s' = after_cycle t pos vel s.
Proof.
  rewrite runInference_eq.
  destruct (Nat.leb_spec (Z.to_nat (steps s)) (cols (forceHistory t s)));
    [|done].
  destruct (col_at (getPosesConst _) _) as [pos|]; [|done].
  destruct (col_at (getVelsConst _) _) as [vel|]; [|done].
  intros [= <-]. eauto.
Qed.

Lemma iteration_eq s :
  iteration s
  = if (mPlanningHistoryMillis s
        <? availableHistoryBefore (mControlLog s)
             (timeSinceEpochMillis (trace s)))%Z
    then runInference (timeSinceEpochMillis (trace s))
           (emit_all [ReadClock; Printed "Running inference"] s)
    else Some (emit_all [ReadClock] s).
Proof. reflexivity. Qed.

Lemma trace_after_cycle t pos vel s :
  trace (after_cycle t pos vel s) = trace s ++ cycle_calls t pos vel s.
Proof. unfold after_cycle. cbn -[emit_all]. by rewrite trace_emit_all. Qed.

Lemma mInferListeners_after_cycle t pos vel s :
  mInferListeners (after_cycle t pos vel s) = mInferListeners s.
Proof. unfold after_cycle. cbn -[emit_all]. by rewrite mInferListeners_emit_all. Qed.

Lemma mWorld_after_cycle t pos vel s :
  mWorld (after_cycle t pos vel s) = mWorld s.
Proof. unfold after_cycle. cbn -[emit_all]. by rewrite mWorld_emit_all. Qed.

Lemma mRunning_after_cycle t pos vel s :
  mRunning (after_cycle t pos vel s) = mRunning s.
Proof. unfold after_cycle. cbn -[emit_all]. by rewrite mRunning_emit_all. Qed.

Lemma mOptimizationThread_after_cycle t pos vel s :
  mOptimizationThread (after_cycle t pos vel s) = mOptimizationThread s.
Proof. unfold after_cycle. cbn -[emit_all]. by rewrite mOptimizationThread_emit_all. Qed.

Lemma mProblem_after_cycle t pos vel s :
  mProblem (after_cycle t pos vel s) = Some (cycle_problem s).
Proof. done. Qed.


Lemma pinnedForces_cycle t pos vel s :
  pinnedForces (cycle_calls t pos vel s)
  = map (λ i, (cycle_problem s, i, column (forceHistory t s) i))
      (seq 0 (Z.to_nat (steps s))).
Proof.
  unfold cycle_calls, calls_until_rollout, calls_before_optimize,
    creation_events, pinnedForces.
  rewrite !omap_app, (omap_map_None _ _ (mInferListeners s)) by done.
  erewrite omap_map_Some by done.
  destruct (mProblem s); cbn; by rewrite !app_nil_r.
Qed.

Lemma problemsCreated_cycle t pos vel s :
  problemsCreated (cycle_calls t pos vel s)
  = match mProblem s with Some _ => 0 | None => 1 end.
Proof.
  unfold cycle_calls, calls_until_rollout, calls_before_optimize,
    creation_events, problemsCreated.
  rewrite !omap_app, (omap_map_None _ _ (mInferListeners s)) by done.
  rewrite (omap_map_None _ _ (seq _ _)) by done.
  by destruct (mProblem s).
Qed.

Lemma optimizations_cycle t pos vel s :
  optimizations (cycle_calls t pos vel s) = [(mOptimizer s, cycle_problem s)].
Proof.
  unfold cycle_calls, calls_until_rollout, calls_before_optimize,
    creation_events, optimizations.
  rewrite !omap_app, (omap_map_None _ _ (mInferListeners s)) by done.
  rewrite (omap_map_None _ _ (seq _ _)) by done.
  by destruct (mProblem s).
Qed.

Lemma threadsStarted_cycle t pos vel s :
  threadsStarted (cycle_calls t pos vel s) = 0.
Proof.
  unfold cycle_calls, calls_until_rollout, calls_before_optimize,
    creation_events, threadsStarted.
  rewrite !omap_app, (omap_map_None _ _ (mInferListeners s)) by done.
  rewrite (omap_map_None _ _ (seq _ _)) by done.
  by destruct (mProblem s).
Qed.

Lemma threadsJoined_cycle t pos vel s :
  threadsJoined (cycle_calls t pos vel s) = 0.
Proof.
  unfold cycle_calls, calls_until_rollout, calls_before_optimize,
    creation_events, threadsJoined.
  rewrite !omap_app, (omap_map_None _ _ (mInferListeners s)) by done.
  rewrite (omap_map_None _ _ (seq _ _)) by done.
  by destruct (mProblem s).
Qed.

Lemma cyclesRun_cycle t pos vel s :
  cyclesRun (cycle_calls t pos vel s) = 1.
Proof.
  unfold cycle_calls, calls_until_rollout, calls_before_optimize,
    creation_events, cyclesRun.
  rewrite !omap_app, (omap_map_None _ _ (mInferListeners s)) by done.
  rewrite (omap_map_None _ _ (seq _ _)) by done.
  by destruct (mProblem s).
Qed.


Lemma pinnedForces_app evs evs' :
  pinnedForces (evs ++ evs') = pinnedForces evs ++ pinnedForces evs'.
Proof. apply omap_app. Qed.

Lemma optimizations_app evs evs' :
  optimizations (evs ++ evs') = optimizations evs ++ optimizations evs'.
Proof. apply omap_app. Qed.

Lemma problemsCreated_app evs evs' :
  problemsCreated (evs ++ evs') = problemsCreated evs + problemsCreated evs'.
Proof. unfold problemsCreated. by rewrite omap_app, length_app. Qed.

Lemma threadsJoined_app evs evs' :
  threadsJoined (evs ++ evs') = threadsJoined evs + threadsJoined evs'.
Proof. unfold threadsJoined. by rewrite omap_app, length_app. Qed.

(** *** Calls, one at a time *)

Ltac perform_cases Hp :=
  let pos := fresh "pos" in
  let vel := fresh "vel" in
  match type of Hp with
  | perform ?c _ = Some _ =>
      destruct c; cbn -[runInference iteration] in Hp;
      [injection Hp as <- ..
      |apply runInference_Some in Hp as (pos & vel & _ & ->)
      |rewrite iteration_eq in Hp; destruct (_ <? _)%Z;
       [apply runInference_Some in Hp as (pos & vel & _ & ->)
       |injection Hp as <-]]
  end.

Ltac after_call s :=
  let Hr := fresh "Hr" in
  unfold registerSensorsNow, registerControlsNow, now, start, stop;
  try (destruct (mRunning s) eqn:Hr; rewrite ?Hr in * );
  rewrite ?trace_after_cycle, ?mRunning_after_cycle,
    ?mOptimizationThread_after_cycle, ?mProblem_after_cycle,
    ?mInferListeners_after_cycle, ?mWorld_after_cycle,
    ?trace_emit_all, ?mRunning_emit_all, ?mOptimizationThread_emit_all,
    ?mProblem_emit_all, ?mInferListeners_emit_all, ?mWorld_emit_all;
  cbn -[problemsCreated cyclesRun threadsStarted threadsJoined cycle_calls];
  rewrite ?problemsCreated_app, ?cyclesRun_app, ?threadsStarted_app,
    ?threadsJoined_app, ?problemsCreated_cycle, ?cyclesRun_cycle,
    ?threadsStarted_cycle, ?threadsJoined_cycle;
  rewrite ?problemsCreated_app, ?cyclesRun_app, ?threadsStarted_app,
    ?threadsJoined_app;
  cbn -[problemsCreated cyclesRun threadsStarted threadsJoined cycle_calls];
  change (problemsCreated [ReadClock]) with 0;
  change (cyclesRun [ReadClock]) with 0;
  change (threadsStarted [ReadClock]) with 0;
  change (threadsJoined [ReadClock]) with 0;
  change (threadsStarted [ThreadStarted]) with 1;
  change (threadsJoined [ThreadStarted]) with 0;
  change (threadsStarted [ThreadJoined]) with 0;
  change (threadsJoined [ThreadJoined]) with 1;
  change (problemsCreated [ThreadStarted]) with 0;
  change (problemsCreated [ThreadJoined]) with 0;
  change (cyclesRun [ThreadStarted]) with 0;
  change (cyclesRun [ThreadJoined]) with 0;
  change (problemsCreated [ReadClock; Printed _]) with 0;
  change (cyclesRun [ReadClock; Printed _]) with 0;
  change (threadsStarted [ReadClock; Printed _]) with 0;
  change (threadsJoined [ReadClock; Printed _]) with 0;
  try match goal with Hr : mRunning s = _ |- _ => rewrite !Hr end.

Lemma perform_all_app (cs1 cs2 : list (Call R)) s :
  perform_all (cs1 ++ cs2) s = s' ← perform_all cs1 s; perform_all cs2 s'.
Proof.
  revert s. induction cs1 as [|c cs1 IH]; intros s; cbn; [done|].
  destruct (perform c s); cbn; [apply IH|done].
Qed.

(** *** Listener fan-out *)





(** *** Pinned forces *)

(** X2. A cycle that completes pins, on the problem it works on, step [i]
    to column [i] of the control history, for every step [i] from [0] to
    [steps - 1] in this order, and pins nothing else. *)
Theorem forces_pinned_column_by_column (startTime : Z) (s s' : SSID R) :
  runInference startTime s = Some s' →
  pinnedForces (trace s')
  = pinnedForces (trace s)
    ++ map (λ i, (cycle_problem s, i, column (forceHistory startTime s) i))
         (seq 0 (Z.to_nat (steps s))).
Proof.
  intros (pos & vel & _ & ->)%runInference_Some.
  by rewrite trace_after_cycle, pinnedForces_app, pinnedForces_cycle.
Qed.

(** *** When a cycle completes *)

Lemma col_at_is_Some (m : Matrix R) (i : Z) :
  is_Some (col_at m i) ↔ (0 ≤ i)%Z ∧ Z.to_nat i < cols m.
Proof.
  unfold col_at. rewrite set_block_col_full.
  destruct (Z.leb_spec 0 i), (Nat.ltb_spec (Z.to_nat i) (cols m));
    split; try (intros [? [=]]); try (intros [? ?]; lia); eauto with lia.
Qed.

(** X3. A cycle runs to completion exactly when there is at least one step
    and the control history, the rollout's positions and the rollout's
    velocities each have a column for every step. In particular a planning
    window of no step fails, on column [-1] of the rollout. *)
Theorem runInference_completes_iff (startTime : Z) (s : SSID R) :
  let rollout := trace s ++ calls_until_rollout startTime s in
  is_Some (runInference startTime s)
  ↔ (0 < steps s)%Z
    ∧ Z.to_nat (steps s) ≤ cols (forceHistory startTime s)
    ∧ Z.to_nat (steps s) ≤ cols (getPosesConst rollout)
    ∧ Z.to_nat (steps s) ≤ cols (getVelsConst rollout).
Proof.
  intros rollout. rewrite runInference_eq. fold rollout.
  pose proof (col_at_is_Some (getPosesConst rollout) (steps s - 1)) as Hp.
  pose proof (col_at_is_Some (getVelsConst rollout) (steps s - 1)) as Hv.
  destruct (Nat.leb_spec (Z.to_nat (steps s))
              (cols (forceHistory startTime s))).
  - destruct (col_at (getPosesConst rollout) _) as [pos|]; cbn.
    + destruct (col_at (getVelsConst rollout) _) as [vel|]; cbn.
      * assert (is_Some (Some pos)) as Hp'%Hp by eauto.
        assert (is_Some (Some vel)) as Hv'%Hv by eauto.
        split; [intros _; lia|eauto].
      * split; [by intros [? [=]]|]. intros (? & ? & ? & ?).
        assert (is_Some (@None (Matrix R))) as [? [=]]. apply Hv. lia.
    + split; [by intros [? [=]]|]. intros (? & ? & ? & ?).
      assert (is_Some (@None (Matrix R))) as [? [=]]. apply Hp. lia.
  - split; [by intros [? [=]]|]. lia.
Qed.

(** *** The problem a cycle works on *)





(** X6. A cycle on an object that holds a problem builds none, calls the
    optimizer exactly once, with the optimizer then held and on the problem
    held, and leaves that problem held. *)
Theorem cycle_optimizes_held_problem (startTime : Z) (problem : ProblemPtr)
    (s s' : SSID R) :
  mProblem s = Some problem →
  runInference startTime s = Some s' →
  optimizations (trace s')
  = optimizations (trace s) ++ [(mOptimizer s, problem)]
  ∧ problemsCreated (trace s') = problemsCreated (trace s)
  ∧ mProblem s' = Some problem.
Proof.
  intros Hp (pos & vel & _ & ->)%runInference_Some.
  rewrite trace_after_cycle, optimizations_app, optimizations_cycle,
    problemsCreated_app, problemsCreated_cycle, mProblem_after_cycle.
  unfold cycle_problem. rewrite Hp. split_and!; [done|lia|done].
Qed.

(** *** The worker thread *)

Lemma perform_balanced c s s' :
  mOptimizationThread s = mRunning s
  ∧ threadsStarted (trace s)
    = threadsJoined (trace s) + (if mRunning s then 1 else 0) →
  perform c s = Some s' →
  mOptimizationThread s' = mRunning s'
  ∧ threadsStarted (trace s')
    = threadsJoined (trace s') + (if mRunning s' then 1 else 0).
Proof.
  intros [Hj Hn] Hp. perform_cases Hp; after_call s; try done.
  all: split; [done|lia].
Qed.

(** X7. Whatever calls are made on the object from construction on, the
    thread handle is joinable exactly when the object is running, and the
    number of threads started is the number of threads joined, plus one
    while the object is running: [start] never launches a second worker and
    [stop] joins the one there is. *)
Theorem threads_started_and_joined_in_turn (world : World R) (loss : LossPtr)
    (planningHistoryMillis sensorDim : Z) (calls : list (Call R))
    (s : SSID R) :
  perform_all calls (new_SSID world loss planningHistoryMillis sensorDim)
  = Some s →
  mOptimizationThread s = mRunning s
  ∧ threadsStarted (trace s)
    = threadsJoined (trace s) + (if mRunning s then 1 else 0).
Proof.
  assert (∀ s0 : SSID R,
            mOptimizationThread s0 = mRunning s0
            ∧ threadsStarted (trace s0)
              = threadsJoined (trace s0) + (if mRunning s0 then 1 else 0) →
            perform_all calls s0 = Some s →
            mOptimizationThread s = mRunning s
            ∧ threadsStarted (trace s)
              = threadsJoined (trace s) + (if mRunning s then 1 else 0))
    as Hind.
  { induction calls as [|c calls IH]; intros s0 Hinv; cbn.
    - by intros [= <-].
    - destruct (perform c s0) as [s1|] eqn:Hc; [|done]. cbn.
      apply IH. by eapply perform_balanced. }
  apply Hind. by cbn.
Qed.

Lemma iterations_polling n s :
  (∀ t, (availableHistoryBefore (mControlLog s) t
         ≤ mPlanningHistoryMillis s)%Z) →
  mRunning s = true →
  iterations n s = Some (emit_all (replicate n ReadClock) s).
Proof.
  revert s. induction n as [|n IH]; intros s Hshort Hrun; [done|].
  cbn -[iteration]. rewrite Hrun, iteration_eq.
  destruct (Z.ltb_spec (mPlanningHistoryMillis s)
              (availableHistoryBefore (mControlLog s)
                 (timeSinceEpochMillis (trace s)))) as [Hlt|_].
  { specialize (Hshort (timeSinceEpochMillis (trace s))). lia. }
  cbn -[iterations]. by rewrite IH.
Qed.

(** X8. While the object is running and the control log never holds more
    than the planning window of history, [n] turns of the worker loop block
    the signals and then read the clock [n] times, and do nothing else: no
    cycle is run, no listener is called, and nothing waits between two
    readings. *)
Theorem worker_only_polls_clock_without_history (n : nat) (s : SSID R) :
  (∀ t, (availableHistoryBefore (mControlLog s) t
         ≤ mPlanningHistoryMillis s)%Z) →
  mRunning s = true →
  optimizationThreadLoop n s
  = Some (emit_all (SignalsBlocked :: replicate n ReadClock) s).
Proof.
  intros Hshort Hrun. unfold optimizationThreadLoop.
  by rewrite iterations_polling.
Qed.

(** *** The logs *)

Lemma mSensorLog_after_cycle t pos vel s :
  mSensorLog (after_cycle t pos vel s) = mSensorLog s.
Proof. unfold after_cycle. cbn -[emit_all]. by rewrite mSensorLog_emit_all. Qed.

Lemma mControlLog_after_cycle t pos vel s :
  mControlLog (after_cycle t pos vel s) = mControlLog s.
Proof. unfold after_cycle. cbn -[emit_all]. by rewrite mControlLog_emit_all. Qed.

(** X22. Each call appends to the control log and to the sensor log exactly
    what it registers, with the time it was given or, for the calls that
    take none, the reading of the clock: a log is only ever extended, its
    width never changes, and neither an inference cycle nor a turn of the
    worker writes to it. *)
Theorem logs_record_registrations (c : Call R) (s s' : SSID R) :
  perform c s = Some s' →
  VectorLog_entries (mControlLog s')
  = VectorLog_entries (mControlLog s) ++ logged_controls c s
  ∧ VectorLog_entries (mSensorLog s')
    = VectorLog_entries (mSensorLog s) ++ logged_sensors c s
  ∧ VectorLog_dim (mControlLog s') = VectorLog_dim (mControlLog s)
  ∧ VectorLog_dim (mSensorLog s') = VectorLog_dim (mSensorLog s).
Proof.
  intros Hp. perform_cases Hp; after_call s;
    rewrite ?mSensorLog_after_cycle, ?mControlLog_after_cycle,
      ?mSensorLog_emit_all, ?mControlLog_emit_all;
    cbn; by rewrite ?app_nil_r.
Qed.

End Facts.
End RealtimeFacts.

(** ** The properties on concrete inputs *)

Module Examples.
Import Eigen Sample.

#[export] Instance Z_DecompositionShapes : DecompositionShapes Z.
Proof. by split. Qed.

(** C1. Two groups whose bounce diagonals are [[2; 3]] and [[1]]: the
    assembled vector is sized twice the first group's length, four, and not
    the three coefficients of the concatenation [[2; 3; 1]]; its last
    coefficient is storage that was never written. *)
Theorem assembleVector_sized_by_first_group :
  Neural.mGradientMatrices (snapshot [skelB; skelA]) = [1; 0]
  ∧ entries (Neural.Group_getBounceDiagonals groupB)
    ++ entries (Neural.Group_getBounceDiagonals groupA) = [2; 3; 1]%Z
  ∧ (entries <$> Neural.getBounceDiagonals (snapshot [skelB; skelA]))
    = Some [2; 3; 1; uninitialized 3 0]%Z
  ∧ (rows <$> Neural.getBounceDiagonals (snapshot [skelB; skelA])) = Some 4
  ∧ Neural.getBounceDiagonals (snapshot [skelA; skelB]) = None.
Proof. split_and!; vm_compute; reflexivity. Qed.

Lemma getVectorToAssemble_dispatch_witness :
  Neural.getVectorToAssemble_VectorXd groupA Neural.BOUNCE_DIAGONALS
  = Some (vector [1]%Z).
Proof.
  apply (NeuralFacts.getVectorToAssemble_dispatch groupA
           Neural.BOUNCE_DIAGONALS).
  constructor.
Defined.



Lemma getPosPosJacobian_no_bounce_witness :
  ∃ A_b,
    Neural.getBouncingConstraintMatrix (snapshot [skelA; skelB]) = Some A_b
    ∧ cols A_b = 0
    ∧ Neural.mNumBouncing (snapshot [skelA; skelB]) = 0
    ∧ Neural.getPosPosJacobian (snapshot [skelA; skelB])
      = Some (Identity 3 3).
Proof.
  eexists. split; [reflexivity|]. split; [reflexivity|].
  exact (NeuralFacts.getPosPosJacobian_no_bounce (snapshot [skelA; skelB])
           _ eq_refl eq_refl).
Defined.

Lemma no_contact_jacobians_witness :
  Neural.mNumClamping (snapshot [skelC; skelD]) = 0
  ∧ Neural.mNumUpperBound (snapshot [skelC; skelD]) = 0
  ∧ Neural.mNumBouncing (snapshot [skelC; skelD]) = 0
  ∧ ∃ Minv J,
      Neural.getInvMassMatrix (snapshot [skelC; skelD]) = Some Minv
      ∧ Neural.getForceVelJacobian (snapshot [skelC; skelD]) = Some J
      ∧ meq J (scale 1%Z Minv)
      ∧ Neural.getPosPosJacobian (snapshot [skelC; skelD])
        = Some (Identity 3 3).
Proof.
  apply (NeuralFacts.no_contact_jacobians (world [skelC; skelD])).
  - repeat constructor.
  - repeat constructor.
Defined.

Lemma names_distinct :
  NoDup (map Neural.Skeleton_getName [skelA; skelB]).
Proof. apply (bool_decide_unpack _). by vm_compute. Qed.

Lemma sample_world_well_formed :
  Neural.well_formed (world [skelA; skelB]).
Proof.
  split; [exact names_distinct|].
  intros skel p Hskel Hp. cbn in Hskel.
  apply elem_of_cons in Hskel as [->|Hskel];
    [|apply list_elem_of_singleton in Hskel as ->];
    cbn in Hp; assert (Hp' := eq_sym (Some_inj _ _ Hp)); subst p; cbn.
  - split; [intros sk ->%list_elem_of_singleton; repeat constructor|].
    split; [intros []; vm_compute; lia|]. done.
  - split; [intros sk ->%list_elem_of_singleton; repeat constructor|].
    split; [intros []; vm_compute; lia|]. done.
Qed.

Lemma mass_matrices_block_diagonal_witness :
  (∃ M Minv,
     Neural.getMassMatrix (snapshot [skelA; skelB]) = Some M
     ∧ Neural.getInvMassMatrix (snapshot [skelA; skelB]) = Some Minv
     ∧ Neural.block_diagonal Neural.Skeleton_getMassMatrix [skelA; skelB] M
     ∧ Neural.block_diagonal Neural.Skeleton_getInvMassMatrix [skelA; skelB]
         Minv)
  ∧ Neural.mSkeletonOffset (snapshot [skelA; skelB]) !! "b" = Some 2.
Proof.
  destruct (NeuralFacts.mass_matrices_block_diagonal (world [skelA; skelB])
              (Zero 3 1) (Zero 3 1) (Zero 3 1)) as [Hblocks Hoffsets].
  - repeat constructor.
  - repeat constructor.
  - split; [exact Hblocks|]. exact (Hoffsets names_distinct 1 skelB eq_refl).
Defined.

(** C2, as first stated, fails: with exactly [mPlanningHistoryMillis] of
    control history before the clock reading, the turn runs no cycle. *)
Lemma iteration_exact_history_no_cycle :
  (Realtime.mPlanningHistoryMillis ssid_exact
   ≤ Realtime.availableHistoryBefore (Realtime.mControlLog ssid_exact)
       (Realtime.timeSinceEpochMillis (Realtime.trace ssid_exact)))%Z
  ∧ ¬ Realtime.runs_cycle ssid_exact.
Proof.
  split; [by vm_compute|].
  intros (s' & Hturn & Hcount).
  change (Some (Realtime.emit Realtime.ReadClock ssid_exact) = Some s')
    in Hturn.
  injection Hturn as <-. vm_compute in Hcount. discriminate.
Qed.

Lemma iteration_runs_cycle_witness :
  ∃ s',
    Realtime.iteration ssid_ample = Some s'
    ∧ Realtime.cyclesRun (Realtime.trace s')
      = S (Realtime.cyclesRun (Realtime.trace ssid_ample)).
Proof.
  eexists. split; [vm_compute; reflexivity|].
  apply (proj2 (proj2 (RealtimeFacts.iteration_runs_cycle ssid_ample)));
    reflexivity.
Defined.

Lemma default_start_position_witness :
  ∃ s,
    Realtime.perform_all calls (Realtime.new_SSID ssid_world 0 2000 1) = Some s
    ∧ length (Realtime.startPositions (Realtime.trace s)) = 2
    ∧ Forall (λ v, v = Zero 1 1) (Realtime.startPositions (Realtime.trace s)).
Proof.
  eexists. split; [vm_compute; reflexivity|]. split; [reflexivity|].
  apply (RealtimeFacts.default_start_position ssid_world 0 2000 1 calls);
    reflexivity.
Defined.


Lemma forces_pinned_column_by_column_witness :
  ∃ s',
    Realtime.runInference 5100 ssid_ample = Some s'
    ∧ Realtime.pinnedForces (Realtime.trace s')
      = Realtime.pinnedForces (Realtime.trace ssid_ample)
        ++ map (λ i, (Realtime.cycle_problem ssid_ample, i,
                      Realtime.column (Realtime.forceHistory 5100 ssid_ample) i))
             (seq 0 (Z.to_nat (Realtime.steps ssid_ample))).
Proof.
  eexists. split; [vm_compute; reflexivity|].
  apply (RealtimeFacts.forces_pinned_column_by_column 5100 ssid_ample).
  vm_compute; reflexivity.
Defined.



Lemma cycle_optimizes_held_problem_witness :
  Realtime.mProblem ssid_held = Some 4
  ∧ ∃ s',
      Realtime.runInference 5100 ssid_held = Some s'
      ∧ Realtime.optimizations (Realtime.trace s')
        = Realtime.optimizations (Realtime.trace ssid_held)
          ++ [(Realtime.mOptimizer ssid_held, 4)]
      ∧ Realtime.problemsCreated (Realtime.trace s')
        = Realtime.problemsCreated (Realtime.trace ssid_held)
      ∧ Realtime.mProblem s' = Some 4.
Proof.
  split; [reflexivity|]. eexists. split; [vm_compute; reflexivity|].
  apply (RealtimeFacts.cycle_optimizes_held_problem 5100 4 ssid_held);
    [reflexivity|vm_compute; reflexivity].
Defined.

Lemma threads_started_and_joined_in_turn_witness :
  ∃ s,
    Realtime.perform_all calls (Realtime.new_SSID ssid_world 0 2000 1) = Some s
    ∧ Realtime.threadsStarted (Realtime.trace s) = 1
    ∧ Realtime.mOptimizationThread s = Realtime.mRunning s
    ∧ Realtime.threadsStarted (Realtime.trace s)
      = Realtime.threadsJoined (Realtime.trace s)
        + (if Realtime.mRunning s then 1 else 0).
Proof.
  eexists. split; [vm_compute; reflexivity|]. split; [reflexivity|].
  apply (RealtimeFacts.threads_started_and_joined_in_turn ssid_world 0 2000 1 calls).
  vm_compute; reflexivity.
Defined.

Lemma worker_only_polls_clock_without_history_witness :
  (∀ t, (Realtime.availableHistoryBefore
           (Realtime.mControlLog (Realtime.start ssid)) t
         ≤ Realtime.mPlanningHistoryMillis (Realtime.start ssid))%Z)
  ∧ Realtime.mRunning (Realtime.start ssid) = true
  ∧ Realtime.optimizationThreadLoop 3 (Realtime.start ssid)
    = Some (Realtime.emit_all
              (Realtime.SignalsBlocked
               :: replicate 3 Realtime.ReadClock)
              (Realtime.start ssid)).
Proof.
  assert (∀ t, (Realtime.availableHistoryBefore
                  (Realtime.mControlLog (Realtime.start ssid)) t
                ≤ Realtime.mPlanningHistoryMillis (Realtime.start ssid))%Z)
    as Hshort by (intros t; vm_compute; discriminate).
  split; [exact Hshort|]. split; [reflexivity|].
  apply (RealtimeFacts.worker_only_polls_clock_without_history 3 (Realtime.start ssid));
    [exact Hshort|reflexivity].
Defined.

Lemma assembleMatrix_unknown_skeleton_witness :
  skelE ∈ Neural.World_getSkeletons (world [skelE])
  ∧ skelB ∈ Neural.Group_getSkeletons (deref 1)
  ∧ (Neural.Skeleton_getName skelB
     ∉ map Neural.Skeleton_getName (Neural.World_getSkeletons (world [skelE])))
  ∧ Neural.assembleMatrix (snapshot [skelE]) Neural.CLAMPING = None.
Proof.
  assert (Neural.Skeleton_getName skelB
          ∉ map Neural.Skeleton_getName
              (Neural.World_getSkeletons (world [skelE]))) as Hname.
  { cbn. intros Hin%list_elem_of_singleton. discriminate Hin. }
  split_and!; [constructor|constructor|exact Hname|].
  apply (NeuralFacts.assembleMatrix_unknown_skeleton (world [skelE])
           (Zero 1 1) (Zero 1 1) (Zero 1 1) skelE skelB 1 Neural.CLAMPING);
    [constructor|reflexivity|constructor|exact Hname].
Defined.

Lemma getVelVelJacobian_formula_witness :
  ∃ A_c A_ub E P_c Minv J,
    Neural.getClampingConstraintMatrix (snapshot [skelA]) = Some A_c
    ∧ Neural.getUpperBoundConstraintMatrix (snapshot [skelA]) = Some A_ub
    ∧ Neural.getUpperBoundMappingMatrix (snapshot [skelA]) = Some E
    ∧ Neural.getProjectionIntoClampsMatrix (snapshot [skelA]) = Some P_c
    ∧ Neural.getInvMassMatrix (snapshot [skelA]) = Some Minv
    ∧ Neural.getVelVelJacobian (snapshot [skelA]) = Some J
    ∧ to_rows J = [[1; 0]; [0; 1]]%Z.
Proof.
  eexists _, _, _, _, _, _.
  split; [reflexivity|]. split; [reflexivity|]. split; [reflexivity|].
  split; [reflexivity|]. split; [reflexivity|].
  split;
    [exact (proj1 (NeuralFacts.getVelVelJacobian_formula (world [skelA])
                     _ _ _ _ _ _ _ _
                     eq_refl eq_refl eq_refl eq_refl eq_refl))|].
  vm_compute; reflexivity.
Defined.

Lemma no_contact_velocity_jacobians_witness :
  (∃ J, Neural.getVelVelJacobian (snapshot [skelC; skelD]) = Some J
        ∧ meq J (Identity 3 3))
  ∧ Neural.getVelPosJacobian (snapshot [skelC; skelD])
    = Some (scale 1%Z (Identity 3 3)).
Proof.
  apply (NeuralFacts.no_contact_velocity_jacobians (world [skelC; skelD])).
  - repeat constructor.
  - repeat constructor.
Defined.

Lemma getUpperBoundMappingMatrix_blocks_witness :
  ∃ E,
    Neural.getUpperBoundMappingMatrix (snapshot [skelA; skelB]) = Some E
    ∧ to_rows E = [[1; 0; 0]]%Z
    ∧ coeff E 0 0 = coeff (Neural.mapping_of (snapshot [skelA; skelB]) 0) 0 0.
Proof.
  eexists. split; [reflexivity|]. split; [reflexivity|].
  apply (proj1 (NeuralFacts.getUpperBoundMappingMatrix_blocks
                  (snapshot [skelA; skelB]) _ eq_refl) 0 0 0 0);
    [reflexivity|vm_compute; lia..].
Defined.

Lemma assembleMatrix_blocks_witness :
  Neural.well_formed (world [skelA; skelB])
  ∧ ∃ M,
      Neural.assembleMatrix (snapshot [skelA; skelB]) Neural.CLAMPING = Some M
      ∧ to_rows M = [[1; 0; 0]; [0; 0; 0]; [0; 1; 1]]%Z
      ∧ coeff M 2 1
        = coeff (Neural.Group_getClampingConstraintMatrix groupB) 0 0.
Proof.
  split; [exact sample_world_well_formed|].
  destruct (NeuralFacts.assembleMatrix_blocks (world [skelA; skelB])
              (Zero 3 1) (Zero 3 1) (Zero 3 1) Neural.CLAMPING
              sample_world_well_formed)
    as (M & HM & _ & _ & Hblocks & _).
  - intros p Hp. vm_compute in Hp.
    apply elem_of_cons in Hp as [->|Hp];
      [|apply list_elem_of_singleton in Hp as ->]; apply NoDup_singleton.
  - exists M. split; [exact HM|].
    assert (Some M = Neural.assembleMatrix (snapshot [skelA; skelB])
                       Neural.CLAMPING) as HM' by (symmetry; exact HM).
    vm_compute in HM'. injection HM' as ->.
    split; [reflexivity|].
    apply (Hblocks 1 1 0 skelB 1 0 0); vm_compute; reflexivity || lia.
Defined.

Lemma assembleVector_segments_witness :
  ∃ v,
    Neural.mGradientMatrices (snapshot [skelB; skelA]) = [1; 0]
    ∧ Neural.getBounceDiagonals (snapshot [skelB; skelA]) = Some v
    ∧ rows v = 2 * 2 ∧ cols v = 1
    ∧ entries v = [2; 3; 1; uninitialized 3 0]%Z
    ∧ coeff v 3 0 = uninitialized 3 0.
Proof.
  eexists. split; [reflexivity|]. split; [reflexivity|].
  destruct (NeuralFacts.assembleVector_segments (V:=Neural.VectorXd)
              (snapshot [skelB; skelA]) Neural.BOUNCE_DIAGONALS 1 0 [] _
              eq_refl eq_refl)
    as (Hrows & Hcols & _ & _ & Hrest).
  split; [exact Hrows|]. split; [exact Hcols|]. split; [reflexivity|].
  apply (Hrest 3). vm_compute. lia.
Defined.


Lemma grouped_and_free_well_formed :
  Neural.well_formed (world [skelA; skelC]).
Proof.
  split; [apply (bool_decide_unpack _); by vm_compute|].
  intros skel p Hskel Hp. cbn in Hskel.
  apply elem_of_cons in Hskel as [->|Hskel];
    [|apply list_elem_of_singleton in Hskel as ->; discriminate Hp].
  cbn in Hp. assert (Hp' := eq_sym (Some_inj _ _ Hp)). subst p. cbn.
  split; [intros sk ->%list_elem_of_singleton; repeat constructor|].
  split; [intros []; vm_compute; lia|]. done.
Qed.

Lemma backprop_skips_ungrouped_skeletons_witness :
  Neural.well_formed (world [skelA; skelC])
  ∧ ∃ thisTimestepLoss,
      Neural.backprop (snapshot [skelA; skelC]) nextTimestepLoss
      = Some thisTimestepLoss
      ∧ entries (Neural.lossWrtTorque thisTimestepLoss)
        = [10; 12; uninitialized 2 0; uninitialized 3 0]%Z
      ∧ coeff (Neural.lossWrtTorque thisTimestepLoss)
          (Neural.offset [skelA; skelC] 1 + 1) 0
        = uninitialized (Neural.offset [skelA; skelC] 1 + 1) 0.
Proof.
  split; [exact grouped_and_free_well_formed|].
  assert (∃ this, Neural.backprop (snapshot [skelA; skelC]) nextTimestepLoss
                  = Some this) as [this Hthis]
    by (eexists; vm_compute; reflexivity).
  exists this. split; [exact Hthis|].
  pose proof (NeuralFacts.backprop_skips_ungrouped_skeletons
                (world [skelA; skelC]) (Zero 4 1) (Zero 4 1) (Zero 4 1)
                nextTimestepLoss this grouped_and_free_well_formed Hthis)
    as [_ Hfree].
  assert (Some this
          = Neural.backprop (snapshot [skelA; skelC]) nextTimestepLoss)
    as Hvalue by (symmetry; exact Hthis).
  vm_compute in Hvalue. injection Hvalue as ->.
  split; [reflexivity|].
  apply (Hfree Neural.lossWrtTorque 1 skelC 1).
  - repeat constructor.
  - reflexivity.
  - intros p Hp. vm_compute in Hp. apply list_elem_of_singleton in Hp as ->.
    intros Hin%list_elem_of_singleton. discriminate Hin.
  - vm_compute. lia.
Defined.

Lemma backprop_routes_gradients_witness :
  Neural.well_formed (world [skelA; skelB])
  ∧ ∃ thisTimestepLoss groupNextTimestepLoss,
      Neural.backprop (snapshot [skelA; skelB]) nextTimestepLoss
      = Some thisTimestepLoss
      ∧ Neural.gather_loss (snapshot [skelA; skelB]) nextTimestepLoss
          [skelB] 0 (Neural.fresh_groupNextTimestepLoss 1)
        = Some groupNextTimestepLoss
      ∧ entries (Neural.lossWrtVelocity groupNextTimestepLoss) = [7%Z]
      ∧ entries (Neural.lossWrtTorque thisTimestepLoss) = [10; 12; 14]%Z
      ∧ ∀ (X : Neural.LossGradient Z → Matrix Z) a,
          X ∈ Neural.loss_vectors → a < 1 →
          coeff (X thisTimestepLoss) (2 + a) 0
          = coeff (X (Neural.Group_backprop 1 (Neural.fresh_LossGradient 1)
                        groupNextTimestepLoss))
              (0 + a) 0.
Proof.
  split; [exact sample_world_well_formed|].
  assert (∃ this, Neural.backprop (snapshot [skelA; skelB]) nextTimestepLoss
                  = Some this) as [this Hvalue]
    by (eexists; vm_compute; reflexivity).
  destruct (NeuralFacts.backprop_routes_gradients (world [skelA; skelB])
              (Zero 3 1) (Zero 3 1) (Zero 3 1) nextTimestepLoss
              this 1 0 1 1 skelB sample_world_well_formed)
    as (groupNext & Hnext & _ & Hthis);
    [apply (bool_decide_unpack _); by vm_compute
    |exact Hvalue
    |reflexivity..|].
  exists this, groupNext. split; [exact Hvalue|].
  split; [exact Hnext|].
  assert (Some this
          = Neural.backprop (snapshot [skelA; skelB]) nextTimestepLoss)
    as Hvalue' by (symmetry; exact Hvalue).
  vm_compute in Hvalue'. injection Hvalue' as ->.
  assert (Some groupNext
          = Neural.gather_loss (snapshot [skelA; skelB]) nextTimestepLoss
              [skelB] 0 (Neural.fresh_groupNextTimestepLoss 1)) as Hnext'
    by (symmetry; exact Hnext).
  vm_compute in Hnext'. injection Hnext' as ->.
  split; [reflexivity|]. split; [reflexivity|]. exact Hthis.
Defined.

Lemma identity_mapping_leaves_jacobians_unchanged_witness :
  meq (times (matrix 2 [[1; 2]; [3; 4]]%Z)
         (Neural.getMappedPosToRealPosJac mapping))
    (matrix 2 [[1; 2]; [3; 4]]%Z)
  ∧ to_rows (times (matrix 2 [[1; 2]; [3; 4]]%Z)
               (Neural.getRealVelToMappedPosJac mapping))
    = [[0; 0]; [0; 0]]%Z.
Proof.
  destruct (NeuralFacts.identity_mapping_leaves_jacobians_unchanged mapping
              (matrix 2 [[1; 2]; [3; 4]]%Z))
    as (_ & _ & _ & Hidentity & _).
  split; [|reflexivity].
  apply (Hidentity Neural.getMappedPosToRealPosJac); [constructor|reflexivity].
Defined.

Lemma logs_record_registrations_witness :
  ∃ s',
    Realtime.perform (Realtime.call_registerControlsNow (vector [9]%Z))
      ssid_ample = Some s'
    ∧ map fst (Realtime.VectorLog_entries (Realtime.mControlLog s'))
      = [2000; 5000]%Z
    ∧ Realtime.VectorLog_entries (Realtime.mControlLog s')
      = Realtime.VectorLog_entries (Realtime.mControlLog ssid_ample)
        ++ Realtime.logged_controls
             (Realtime.call_registerControlsNow (vector [9]%Z)) ssid_ample.
Proof.
  eexists. split; [reflexivity|]. split; [reflexivity|].
  apply (RealtimeFacts.logs_record_registrations
           (Realtime.call_registerControlsNow (vector [9]%Z)) ssid_ample).
  reflexivity.
Defined.

End Examples.
